(** * GeomTools of arcsupport.py: a shallow embedding and its properties

    The geometry helpers of [arcsupport.py] (class [GeomTools]) are written
    against Python's duck-typed numbers: the same source text runs on
    binary64 floats (what arcpy hands over) and means real arithmetic on
    paper.  The embedding keeps that shape.  Every function is written once,
    over a class [PyNum] of the numeric operations the source uses, and is
    read at two instances:

    - [float] (primitive binary64 floats): what CPython computes, executable
      with [vm_compute]; used for the concrete runs;
    - [R] (Stdlib reals): exact arithmetic; used where a statement needs the
      laws of an ordered field.

    Calls into libm ([math.atan2], [math.sin], [math.cos], [math.log10]),
    into the Python runtime ([round], [int], ['%s' %]) and into the vendor
    API (arcpy cursors and geoprocessing tools) are parameters of the
    functions that make them.  The values of [math.sqrt] and of
    [math.pow(v, 2)] are operations of [PyNum]; the errors of these calls
    ([OverflowError] of [math.pow], [ValueError] of [math.sqrt] and
    [math.log10]) are raised where an argument can reach them.

    Conventions.  A call that can raise returns a [res]; a function that
    can return the sentinel [False] returns an [or_false]; Python's [None]
    is [None].  A [while] loop or a recursion whose end depends on the data
    takes a [fuel] argument, and answers [None] when the fuel is spent
    while it is still running.  The source is Python 2.7 with
    [from __future__ import division]: [/] is the true division.

    Beside [GeomTools] the file embeds the row and field-list helpers of
    class [ArcTools] ([getSmartRow], [setSmartRow], [getShapeGeomToken],
    [addShapeGeomToken]) and the numbered levels of [ArcLogger] in
    [logs.py]. *)

From Stdlib Require Import Floats.
From Stdlib Require Import ZArith Reals Lra Lia Bool DecimalString.
From stdpp Require Import gmap strings list sorting.

(** ** Python values *)

(** Exceptions the modelled code can raise. *)
Inductive exn : Set :=
| ValueError
| KeyError
| IndexError
| ZeroDivisionError
| OverflowError.

(** The outcome of a call: a value or a raised exception. *)
Inductive res (A : Type) : Type :=
| Ret (a : A)
| Raise (e : exn).
Arguments Ret {A} a.
Arguments Raise {A} e.

Definition bind {A B : Type} (m : res A) (k : A → res B) : res B :=
  match m with
  | Ret a => k a
  | Raise e => Raise e
  end.

Fixpoint mapM {A B : Type} (f : A → res B) (l : list A) : res (list B) :=
  match l with
  | [] => Ret []
  | a :: l' => bind (f a) (λ b, bind (mapM f l') (λ bs, Ret (b :: bs)))
  end.

(** A function that returns either a value or the sentinel [False]. *)
Inductive or_false (A : Type) : Type :=
| Val (a : A)
| PyFalse.
Arguments Val {A} a.
Arguments PyFalse {A}.

(** ** Numbers *)

(** The numeric operations the source uses.  [nmod] is Python's [%] on
    floats (the result takes the sign of the divisor); [nfinite] tells the
    values [int()] accepts; [npow2 v] is the value libm's [pow] gives
    [math.pow(v, 2)]. *)
Class PyNum (N : Type) : Type := {
  of_Z : Z → N;
  nadd : N → N → N;
  nsub : N → N → N;
  nmul : N → N → N;
  ndiv : N → N → N;
  nmod : N → N → N;
  nlt : N → N → bool;
  neq : N → N → bool;
  nfabs : N → N;
  nsqrt : N → N;
  npow2 : N → N;
  npi : N;
  nfinite : N → bool
}.

Declare Scope py_scope.
Delimit Scope py_scope with py.
Infix "+" := nadd : py_scope.
Infix "-" := nsub : py_scope.
Infix "*" := nmul : py_scope.
Infix "/" := ndiv : py_scope.
Infix "mod" := nmod : py_scope.
Infix "<?" := nlt : py_scope.
Infix "=?" := neq : py_scope.

(** *** Binary64 *)

Module F64.

(** Python's int-to-float conversion (exact below 2^53). *)
Definition of_Z (z : Z) : float :=
  match z with
  | Z0 => PrimFloat.zero
  | Zpos _ => PrimFloat.of_uint63 (Uint63.of_Z z)
  | Zneg p => PrimFloat.opp (PrimFloat.of_uint63 (Uint63.of_Z (Zpos p)))
  end.

(** C's [fmod]: the exact remainder of the magnitudes, with the sign of
    the dividend.  With [e] the smaller of the two exponents both
    operands are integers in units of [2^e], and the remainder, below
    [2^53] in those units, converts back without rounding. *)
Definition fmod (x y : float) : float :=
  match Prim2SF x, Prim2SF y with
  | S754_finite sx mx ex, S754_finite _ my ey =>
      let e := Z.min ex ey in
      let r := Z.rem (Z.pos mx * 2 ^ (ex - e)) (Z.pos my * 2 ^ (ey - e)) in
      let f := Z.ldexp (PrimFloat.of_uint63 (Uint63.of_Z r)) e in
      if sx then PrimFloat.opp f else f
  | S754_zero _, S754_finite _ _ _ => x
  | S754_zero _, S754_infinity _ => x
  | S754_finite _ _ _, S754_infinity _ => x
  | _, _ => PrimFloat.nan
  end.

(** CPython's [float_rem] (Objects/floatobject.c): [fmod], then the
    divisor is added when the signs differ; a zero remainder takes the
    sign of the divisor. *)
Definition py_mod (v w : float) : float :=
  let m := fmod v w in
  if negb (PrimFloat.eqb m PrimFloat.zero) then
    if Bool.eqb (PrimFloat.ltb w PrimFloat.zero) (PrimFloat.ltb m PrimFloat.zero)
    then m
    else PrimFloat.add m w
  else if PrimFloat.ltb w PrimFloat.zero then PrimFloat.neg_zero
       else PrimFloat.zero.

(** [math.pi]. *)
Definition pi : float := 0x1.921fb54442d18p+1%float.

(** libm on the arguments the concrete runs reach, where its value is
    known without a model of libm: a zero first argument of [atan2]
    with a positive second one (CPython returns the signed zero itself),
    and arguments below [2^-27] in magnitude, where [atan2(y, 1)] and
    [sin(t)] round to the argument and [cos(t)] rounds to [1].  [nan]
    marks every argument this table does not cover. *)
Definition small_atan2 (y x : float) : float :=
  if PrimFloat.eqb y PrimFloat.zero && PrimFloat.ltb PrimFloat.zero x then y
  else if PrimFloat.eqb x PrimFloat.one
          && PrimFloat.ltb (PrimFloat.abs y) 0x1p-27%float then y
  else PrimFloat.nan.

Definition small_sin (t : float) : float :=
  if PrimFloat.ltb (PrimFloat.abs t) 0x1p-27%float then t else PrimFloat.nan.

Definition small_cos (t : float) : float :=
  if PrimFloat.ltb (PrimFloat.abs t) 0x1p-27%float then PrimFloat.one
  else PrimFloat.nan.

(** [math.log10] at the powers of ten from 1 to 1000, where it is exact;
    [nan] elsewhere. *)
Definition small_log10 (v : float) : float :=
  if PrimFloat.eqb v 1 then 0%float
  else if PrimFloat.eqb v 10 then 1%float
  else if PrimFloat.eqb v 100 then 2%float
  else if PrimFloat.eqb v 1000 then 3%float
  else PrimFloat.nan.

(** libm's [pow(v, 2)] where its value is known without a model of libm,
    for every libm whose error stays below one unit in the last place.
    The exact square of [m * 2^e] is [m^2 * 2^(2e)].  At [2^1024] and above
    the result is infinite; at [2^-1076] and below it is zero; a square
    that is a binary64 number is returned as it is.  [nan] marks every
    other argument.  Zeros, infinities and NaN square as in C. *)
Definition pow2 (v : float) : float :=
  let r := PrimFloat.mul v v in
  match Prim2SF v with
  | S754_finite _ m e =>
      let square := (Z.pos m * Z.pos m)%Z in
      let e2 := (2 * e)%Z in
      if (if 0 <=? e2 then 2 ^ 1024 <=? square * 2 ^ e2
          else 2 ^ (1024 - e2) <=? square)%Z
      then PrimFloat.infinity
      else if ((0 <=? - 1076 - e2) && (square <=? 2 ^ (- 1076 - e2)))%Z
      then PrimFloat.zero
      else
        match Prim2SF r with
        | S754_finite _ mr er =>
            let c := Z.min er e2 in
            if (Z.pos mr * 2 ^ (er - c) =? square * 2 ^ (e2 - c))%Z then r
            else PrimFloat.nan
        | _ => PrimFloat.nan
        end
  | _ => r
  end.

(** The truncation toward zero that [int()] makes of a finite float. *)
Definition trunc (x : float) : Z :=
  match Prim2SF x with
  | S754_finite s m e =>
      let a := (if 0 <=? e then Z.pos m * 2 ^ e else Z.pos m / 2 ^ (- e))%Z in
      if s then (- a)%Z else a
  | _ => 0%Z
  end.

(** [round(x, ndigits)] of Python 2.7 for [ndigits <= 0] and [x] below
    [2^52] in magnitude: the nearest multiple of [10^(-ndigits)], ties
    away from zero, with the sign of [x]; the multiple is an integer below
    [2^53] and converts exactly.  [nan] elsewhere. *)
Definition round_tens (x : float) (ndigits : Z) : float :=
  match Prim2SF x with
  | S754_finite s m e =>
      if (ndigits <=? 0)%Z && PrimFloat.ltb (PrimFloat.abs x) 0x1p52%float then
        let q := (10 ^ (- ndigits))%Z in
        let d := (if 0 <=? e then 1 else 2 ^ (- e))%Z in
        let n := (if 0 <=? e then Z.pos m * 2 ^ e else Z.pos m)%Z in
        let k := ((2 * n + q * d) / (2 * q * d))%Z in
        let r := of_Z (k * q) in
        if s then PrimFloat.opp r else r
      else PrimFloat.nan
  | _ => x
  end.

(** [str] of a float of integral value below [1e11] in magnitude: its
    digits, then [.0].  The text [nan] elsewhere. *)
Definition str_integral (x : float) : string :=
  match Prim2SF x with
  | S754_zero s => if s then "-0.0" else "0.0"
  | S754_finite s m e =>
      if PrimFloat.eqb (of_Z (trunc x)) x
         && PrimFloat.ltb (PrimFloat.abs x) 1e11%float
      then (if s then "-" else "")
           +:+ NilZero.string_of_uint (N.to_uint (Z.to_N (Z.abs (trunc x))))
           +:+ ".0"
      else "nan"
  | _ => "nan"
  end.

(** [str] of an int. *)
Definition str_int (z : Z) : string :=
  (if (z <? 0)%Z then "-" else "")
  +:+ NilZero.string_of_uint (N.to_uint (Z.to_N (Z.abs z))).

End F64.

#[export] Instance float_PyNum : PyNum float := {|
  of_Z := F64.of_Z;
  nadd := PrimFloat.add;
  nsub := PrimFloat.sub;
  nmul := PrimFloat.mul;
  ndiv := PrimFloat.div;
  nmod := F64.py_mod;
  nlt := PrimFloat.ltb;
  neq := PrimFloat.eqb;
  nfabs := PrimFloat.abs;
  nsqrt := PrimFloat.sqrt;
  npow2 := F64.pow2;
  npi := F64.pi;
  nfinite := PrimFloat.is_finite
|}.

(** *** Exact reals *)

Module Real.

Definition ltb (a b : R) : bool := if Rlt_dec a b then true else false.
Definition eqb (a b : R) : bool := if Req_dec_T a b then true else false.

(** Floor-modulo: [x - y * floor (x / y)]. *)
Definition py_mod (x y : R) : R := (x - y * IZR (Int_part (x / y)))%R.

(** [math.atan2(y, x)]: the angle of the vector [(x, y)], in [(-pi, pi]],
    and [0] at the origin. *)
Definition atan2 (y x : R) : R :=
  if Rlt_dec 0 x then atan (y / x)
  else if Rlt_dec x 0 then
    if Rle_dec 0 y then (atan (y / x) + PI)%R else (atan (y / x) - PI)%R
  else if Rlt_dec 0 y then (PI / 2)%R
  else if Rlt_dec y 0 then (- PI / 2)%R
  else 0%R.

(** [math.log10]. *)
Definition log10 (v : R) : R := (ln v / ln 10)%R.

(** The truncation toward zero of [int()]. *)
Definition trunc (x : R) : Z :=
  if Rle_dec 0 x then Int_part x else (- Int_part (- x))%Z.

(** [round(x, ndigits)] of Python 2.7: the nearest multiple of
    [10^(-ndigits)], ties away from zero. *)
Definition round (x : R) (ndigits : Z) : R :=
  let scale := powerRZ 10 ndigits in
  let magnitude := (IZR (Int_part (Rabs x * scale + 1 / 2)) / scale)%R in
  if Rle_dec 0 x then magnitude else (- magnitude)%R.

(** A real number has no text of its own; where one is needed, this one
    writes the integral part. *)
Definition str_whole (x : R) : string := F64.str_int (trunc x).

End Real.

#[export] Instance R_PyNum : PyNum R := {|
  of_Z := IZR;
  nadd := Rplus;
  nsub := Rminus;
  nmul := Rmult;
  ndiv := Rdiv;
  nmod := Real.py_mod;
  nlt := Real.ltb;
  neq := Real.eqb;
  nfabs := Rabs;
  nsqrt := R_sqrt.sqrt;
  npow2 := λ v, (v * v)%R;
  npi := PI;
  nfinite := λ _, true
|}.

(** ** Geometry values *)

(** [arcpy.Point]: the two coordinates the source reads. *)
Record Point (N : Type) : Type := mkPoint { X : N; Y : N }.
Arguments mkPoint {N} X Y.
Arguments X {N} p.
Arguments Y {N} p.

(** [arcpy.Polyline] (single part): a first point, inner vertices and a
    last point, so that [firstPoint], [lastPoint] and [pointCount] are
    the properties the source reads. *)
Record Polyline (N : Type) : Type := mkPolyline {
  firstPoint : Point N;
  inner : list (Point N);
  lastPoint : Point N
}.
Arguments mkPolyline {N} firstPoint inner lastPoint.
Arguments firstPoint {N} p.
Arguments inner {N} p.
Arguments lastPoint {N} p.

Definition pointCount {N : Type} (geom : Polyline N) : nat :=
  S (S (length (inner geom))).

(** [geom.getPart(0)]: the vertices in order. *)
Definition getPart {N : Type} (geom : Polyline N) : list (Point N) :=
  firstPoint geom :: inner geom ++ [lastPoint geom].

(** [arcpy.Polyline(arr)] for a two-point array. *)
Definition segment {N : Type} (p q : Point N) : Polyline N :=
  mkPolyline p [] q.

(** Points and two-point lines with binary64 coordinates. *)
Definition fpoint (x y : float) : Point float := mkPoint x y.
Definition fsegment (x1 y1 x2 y2 : float) : Polyline float :=
  segment (fpoint x1 y1) (fpoint x2 y2).

Section Numeric.

Context {N : Type} `{PyNum N}.
Local Open Scope py_scope.

(** Python's [min(a, b)] and [max(a, b)]: the first argument is kept
    unless the second compares strictly better. *)
Definition py_min (a b : N) : N := if b <? a then b else a.
Definition py_max (a b : N) : N := if a <? b then b else a.

(** [math.degrees] and [math.radians] (CPython: a product with the
    constant [180 / pi], resp. [pi / 180]). *)
Definition degrees (x : N) : N := x * (of_Z 180 / npi).
Definition radians (x : N) : N := x * (npi / of_Z 180).

(** ** intersectLines *)

Definition intersectLines (x1y1x2y2 x3y3x4y4 : N * N * N * N) : option (N * N) :=
  let '(x1, y1, x2, y2) := x1y1x2y2 in
  let '(x3, y3, x4, y4) := x3y3x4y4 in
  let A1 := y2 - y1 in
  let B1 := x1 - x2 in
  let C1 := A1 * x1 + B1 * y1 in
  let A2 := y4 - y3 in
  let B2 := x3 - x4 in
  let C2 := A2 * x3 + B2 * y3 in
  let det := A1 * B2 - A2 * B1 in
  if det =? of_Z 0 then None
  else
    let x := (B2 * C1 - B1 * C2) / det in
    let y := (A1 * C2 - A2 * C1) / det in
    if (py_min x1 x2 <? x) && (x <? py_max x1 x2)
       && (py_min x3 x4 <? x) && (x <? py_max x3 x4)
       && (py_min y1 y2 <? y) && (y <? py_max y1 y2)
       && (py_min y3 y4 <? y) && (y <? py_max y3 y4)
    then Some (x, y)
    else None.

(** ** dist, midpoint *)

(** [math.pow(v, 2)]: CPython raises [OverflowError] (math range error)
    when libm's result is infinite and [v] is finite; a result that
    underflows to zero is returned. *)
Definition pow2 (v : N) : res N :=
  let r := npow2 v in
  if nfinite v && negb (nfinite r) && (r =? r) then Raise OverflowError
  else Ret r.

Definition dist (p1 p2 : Point N) : res N :=
  let x1 := X p1 in
  let x2 := X p2 in
  let y1 := Y p1 in
  let y2 := Y p2 in
  bind (pow2 (x2 - x1)) (λ dx2,
  bind (pow2 (y2 - y1)) (λ dy2,
    let dist := nsqrt (dx2 + dy2) in
    Ret dist)).

Definition midpointFractional (p1 p2 : Point N) (fraction : N) : Point N :=
  let x1 := X p1 in
  let y1 := Y p1 in
  let x2 := X p2 in
  let y2 := Y p2 in
  let deltaX := x2 - x1 in
  let deltaY := y2 - y1 in
  mkPoint (x1 + deltaX * fraction) (y1 + deltaY * fraction).

(** The literal [0.5] is the quotient [1 / 2], exactly. *)
Definition midpoint (p1 p2 : Point N) : Point N :=
  let fraction := of_Z 1 / of_Z 2 in
  midpointFractional p1 p2 fraction.

(** ** flipLineSegment *)

Definition flipLineSegment (geom : Polyline N) : or_false (Polyline N) :=
  if (2 <? pointCount geom)%nat then PyFalse
  else
    let x1 := X (firstPoint geom) in
    let y1 := Y (firstPoint geom) in
    let x2 := X (lastPoint geom) in
    let y2 := Y (lastPoint geom) in
    Val (segment (mkPoint x2 y2) (mkPoint x1 y1)).

Section Libm.

(** [math.atan2], [math.sin], [math.cos]: total on floats. *)
Variable atan2 : N → N → N.
Variables sin cos : N → N.

(** ** getAzimuth *)

Definition getAzimuth (geom : Polyline N) : N :=
  let x1 := X (firstPoint geom) in
  let y1 := Y (firstPoint geom) in
  let x2 := X (lastPoint geom) in
  let y2 := Y (lastPoint geom) in
  let deltaX := x2 - x1 in
  let deltaY := y2 - y1 in
  let azm_absolute := atan2 deltaX deltaY in
  degrees azm_absolute mod of_Z 360.

(** ** extendLineAlongAzimuth *)

Definition extendLineAlongAzimuth (geom : Polyline N) (distance : N)
    (direction : string) : or_false (Polyline N) :=
  let azimuth := getAzimuth geom in
  let flipped :=
    if String.eqb direction "OPPOSITE" then
      match flipLineSegment geom with
      | PyFalse => PyFalse
      | Val geom' => Val ((azimuth + of_Z 180) mod of_Z 360, geom')
      end
    else Val (azimuth, geom) in
  match flipped with
  | PyFalse => PyFalse
  | Val (azimuth, geom) =>
      let azimuth := radians azimuth in
      let deltaX := distance * sin azimuth in
      let deltaY := distance * cos azimuth in
      let startX := X (firstPoint geom) in
      let startY := Y (firstPoint geom) in
      let newEndX := X (lastPoint geom) + deltaX in
      let newEndY := Y (lastPoint geom) + deltaY in
      Val (segment (mkPoint startX startY) (mkPoint newEndX newEndY))
  end.

End Libm.

Section Keys.

(** [math.log10] off its domain error, the truncation of [int()],
    [round(x, ndigits)] and the two renderings of ['%s' %]: of a
    float and of an int. *)
Variable log10 : N → N.
Variable trunc : N → Z.
Variable round : N → Z → N.
Variable str : N → string.
Variable str_int : Z → string.

(** [math.log10(v)]: a domain error at zero and below. *)
Definition math_log10 (v : N) : res N :=
  if (v =? of_Z 0) || (v <? of_Z 0) then Raise ValueError
  else Ret (log10 v).

(** [int(v)] on a float: NaN and the infinities are refused. *)
Definition py_int (v : N) : res Z :=
  if negb (v =? v) then Raise ValueError
  else if negb (nfinite v) then Raise OverflowError
  else Ret (trunc v).

(** ** spatialKey *)

(** The local [round_factor]. *)
Definition round_factor (grid_size : N) : res Z :=
  bind (math_log10 (nfabs grid_size)) (λ l,
  bind (py_int l) (λ z, Ret (-1 * z)%Z)).

Definition spatialKey (x y grid_size : N) (invert : bool) : res string :=
  bind (round_factor grid_size) (λ round_factor,
    if invert then
      bind (py_int (round x round_factor / grid_size)) (λ x_key,
      bind (py_int (round y round_factor / grid_size)) (λ y_key,
        Ret (str_int x_key +:+ ":" +:+ str_int y_key)))
    else
      let x_key := round x round_factor in
      let y_key := round y round_factor in
      Ret (str x_key +:+ ":" +:+ str y_key)).

Definition spatialKeyFromPoint (point : Point N) (grid_size : N) : res string :=
  let x := X point in
  let y := Y point in
  spatialKey x y grid_size false.

(** ** buildSpatialIndex *)

(** The loop [for i in range(0, len(arr))], from index [i] on. *)
Fixpoint buildSpatialIndex_loop (arr : list (Point N)) (i : nat)
    (grid_scale : N) (idx : gmap string (gset nat))
    : res (gmap string (gset nat)) :=
  match arr with
  | [] => Ret idx
  | point :: arr' =>
      bind (spatialKeyFromPoint point grid_scale) (λ key,
        let idx' :=
          match idx !! key with
          | None => <[key := {[ i ]}]> idx
          | Some s => <[key := s ∪ {[ i ]}]> idx
          end in
        buildSpatialIndex_loop arr' (S i) grid_scale idx')
  end.

(** [geom] is given by the vertex array of its part 0. *)
Definition buildSpatialIndex (geom : list (Point N)) (grid_scale : N)
    (density : string) : res (or_false (gmap string (gset nat))) :=
  if negb (bool_decide (density ∈ ["ALL"; "ENDS"])) then Ret PyFalse
  else
    let idx := ∅ in
    let arr := geom in
    bind (buildSpatialIndex_loop arr 0 grid_scale idx) (λ idx, Ret (Val idx)).

(** ** makeNearbyKeys *)

(** One [while delta < max_delta] loop.  [acc] is the set of
    increments, kept as a list (only membership is observed).  [None]:
    the loop is still running when the fuel is spent. *)
Fixpoint increments_loop (fuel : nat) (origin step max_delta current delta : N)
    (acc : list N) : option (list N) :=
  if delta <? max_delta then
    match fuel with
    | O => None
    | S fuel' =>
        let current := current + step in
        let delta := nfabs (current - origin) in
        increments_loop fuel' origin step max_delta current delta (current :: acc)
    end
  else Some acc.

(** The body of [for i in [-1, 1]] for one [i]. *)
Definition increments_pass (fuel : nat) (lat lon max_lat_delta max_lon_delta
    grid_size : N) (i : Z) (sets : list N * list N) : option (list N * list N) :=
  let '(lat_increments, lon_increments) := sets in
  let current_lat := lat in
  let lat_increments := current_lat :: lat_increments in
  let current_lon := lon in
  let lon_increments := current_lon :: lon_increments in
  let delta := of_Z 0 in
  match increments_loop fuel lat (of_Z i * grid_size) max_lat_delta
          current_lat delta lat_increments with
  | None => None
  | Some lat_increments =>
      let delta := of_Z 0 in
      match increments_loop fuel lon (of_Z i * grid_size) max_lon_delta
              current_lon delta lon_increments with
      | None => None
      | Some lon_increments => Some (lat_increments, lon_increments)
      end
  end.

Definition increments (fuel : nat) (lat lon max_lat_delta max_lon_delta
    grid_size : N) : option (list N * list N) :=
  match increments_pass fuel lat lon max_lat_delta max_lon_delta grid_size
          (-1) ([], []) with
  | None => None
  | Some sets =>
      increments_pass fuel lat lon max_lat_delta max_lon_delta grid_size 1 sets
  end.

(** The test [delta_total < min_delta] on one candidate. *)
Definition near (lat lon min_delta : N) (pair : N * N) : bool :=
  let '(latnew, lonnew) := pair in
  let delta_lat := nfabs (latnew - lat) in
  let delta_lon := nfabs (lonnew - lon) in
  let delta_total := nsqrt (delta_lat * delta_lat + delta_lon * delta_lon) in
  delta_total <? min_delta.

(** The candidates that pass the test, before their keys are taken. *)
Definition nearbyCoordinates (fuel : nat) (lat lon max_lat_delta max_lon_delta
    grid_size min_delta : N) : option (list (N * N)) :=
  match increments fuel lat lon max_lat_delta max_lon_delta grid_size with
  | None => None
  | Some (lat_increments, lon_increments) =>
      let pairs := list_prod lat_increments lon_increments in
      Some (List.filter (near lat lon min_delta) pairs)
  end.

Definition makeNearbyKeys (fuel : nat) (lat lon max_lat_delta max_lon_delta
    grid_size min_delta : N) : option (res (gset string)) :=
  match nearbyCoordinates fuel lat lon max_lat_delta max_lon_delta
          grid_size min_delta with
  | None => None
  | Some kept =>
      Some (bind
        (mapM (λ '(latnew, lonnew), spatialKey lonnew latnew grid_size false) kept)
        (λ keys, Ret (list_to_set keys)))
  end.

End Keys.

(** ** splitRectangle *)

(** One entry of the [edges] dictionary. *)
Record Edge : Type := mkEdge {
  e_from : Point N;
  e_to : Point N;
  e_length : N;
  e_longEdge : bool;
  e_midpoint : Point N
}.

(** [sorted]: a stable ascending sort by [<]. *)
Fixpoint insert_sorted (x : N) (l : list N) : list N :=
  match l with
  | [] => [x]
  | y :: l' => if x <? y then x :: y :: l' else y :: insert_sorted x l'
  end.

Definition sorted (l : list N) : list N :=
  fold_left (λ acc x, insert_sorted x acc) l [].

(** [x in l], by [==]. *)
Definition py_in (x : N) (l : list N) : bool := existsb (λ y, x =? y) l.

(** The edges [edges[1]], [edges[2]], ... built from consecutive points. *)
Fixpoint build_edges (pts : list (Point N)) : list (Point N * Point N) :=
  match pts with
  | p :: (q :: _) as pts' => (p, q) :: build_edges pts'
  | _ => []
  end.

(** The loop [for i in range(1,5)] that sets the lengths reads
    [edges[i]]: a [KeyError] when the ring has no edge [i], else the call
    of [dist]. *)
Definition edge_length (edges : list (Point N * Point N)) (i : nat) : res N :=
  match edges !! i with
  | Some ft => dist (fst ft) (snd ft)
  | None => Raise KeyError
  end.

(** [rectangle] is given by the vertex array of its part 0; the two
    halves are returned the same way.  The spatial reference [sr] only
    tags the outputs and is left out. *)
Definition splitRectangle (rectangle : list (Point N))
    : res (list (list (Point N))) :=
  let arr := rectangle in
  let edges := build_edges arr in
  bind (mapM (edge_length edges) [0; 1; 2; 3]%nat) (λ edgeLengths,
    match edges, edgeLengths with
    | ft1 :: ft2 :: ft3 :: ft4 :: _, [length1; length2; length3; length4] =>
        let longEdges := drop (length (sorted edgeLengths) - 2) (sorted edgeLengths) in
        let edge (ft : Point N * Point N) (length : N) :=
          mkEdge (fst ft) (snd ft) length
                 (py_in length longEdges)
                 (midpoint (fst ft) (snd ft)) in
        let edges1 := edge ft1 length1 in
        let edges2 := edge ft2 length2 in
        let edges3 := edge ft3 length3 in
        let edges4 := edge ft4 length4 in
        let '(edg1, edg2, edg3, edg4) :=
          if negb (e_longEdge edges1)
          then (edges2, edges3, edges4, edges1)
          else (edges1, edges2, edges3, edges4) in
        let pts1 := e_from edg1 in
        let pts2 := e_from edg2 in
        let pts3 := e_from edg3 in
        let pts4 := e_from edg4 in
        let pts6 := e_midpoint edg1 in
        let pts7 := e_midpoint edg3 in
        let r1 := [pts1; pts6; pts7; pts4; pts1] in
        let r2 := [pts6; pts2; pts3; pts7; pts6] in
        Ret [r1; r2]
    | _, _ => Raise KeyError
    end).

(** ** extendLinesToIntersect *)

(** A row geometry after the last cursor: a polyline, or the empty
    geometry [arcpy.Polyline] makes of an empty array. *)
Inductive Shape : Type :=
| Line (geom : Polyline N)
| EmptyLine.

(** [arcpy.Polyline(arr)]; the source passes no or two points. *)
Definition Polyline_of_array (arr : list (Point N)) : Shape :=
  match arr with
  | [p; q] => Line (segment p q)
  | _ => EmptyLine
  end.

Section Extend.

Variable atan2 : N → N → N.
Variables sin cos : N → N.

(** The vendor API: [Intersect_analysis] on the extended lines and
    the target feature class, read through its search cursor as rows
    (parts of the multipoint, FID of the extended line);
    [PointGeometry.distanceTo]; [Polyline.length]. *)
Variable IntersectFC : Type.
Variable Intersect_analysis :
  list (nat * Polyline N) → IntersectFC → list (list (Point N) * nat).
Variable distanceTo : Point N → Point N → N.
Variable geom_length : Polyline N → N.

(** First cursor: every row is extended, unless the extension fails. *)
Definition extend_rows (rows : list (nat * Polyline N)) (maxDistance : N)
    (direction : string) : list (nat * Polyline N) :=
  map (λ '(oid, geom),
         match extendLineAlongAzimuth atan2 sin cos geom maxDistance direction with
         | PyFalse => (oid, geom)
         | Val geom' => (oid, geom')
         end) rows.

(** Second cursor: the intersections, indexed by FID. *)
Definition index_intersections (rows : list (list (Point N) * nat))
    : gmap nat (list (Point N)) :=
  fold_left (λ intersections '(multiPointGeom, transectFID),
    fold_left (λ (intersections : gmap nat (list (Point N))) ptGeom,
      let intersections :=
        match intersections !! transectFID with
        | None => <[transectFID := []]> intersections
        | Some _ => intersections
        end in
      alter (λ l, l ++ [ptGeom]) transectFID intersections)
      multiPointGeom intersections)
    rows ∅.

(** The loop [for inter in possibleIntersections]; the state is
    ([closestIntersection], [minDistance]). *)
Definition closest_loop (first : Point N) (possibleIntersections : list (Point N))
    (minDistance : N) : option (Point N) * N :=
  fold_left (λ '(closestIntersection, minDistance) inter,
    let distance := distanceTo first inter in
    if distance <? minDistance then (Some inter, distance)
    else (closestIntersection, minDistance))
    possibleIntersections (None, minDistance).

(** Third cursor, one row. *)
Definition nearest_row (intersections : gmap nat (list (Point N)))
    (maxDistance : N) (direction : string) (row : nat * Polyline N)
    : nat * Shape :=
  let '(oid, geom) := row in
  match intersections !! oid with
  | None | Some [] => (oid, Line geom)
  | Some possibleIntersections =>
      let minDistance := maxDistance + geom_length geom in
      match fst (closest_loop (firstPoint geom) possibleIntersections minDistance) with
      | None => (oid, Line geom)
      | Some closestIntersection =>
          let startPoint := mkPoint (X (firstPoint geom)) (Y (firstPoint geom)) in
          let endPoint := mkPoint (X closestIntersection) (Y closestIntersection) in
          let arr :=
            if String.eqb direction "AZIMUTH" then [startPoint; endPoint]
            else if String.eqb direction "OPPOSITE" then [endPoint; startPoint]
            else [] in
          (oid, Polyline_of_array arr)
      end
  end.

(** The rows of [extendedLineFC] when the function ends. *)
Definition extendLinesToIntersect (lineFC : list (nat * Polyline N))
    (intersectFC : IntersectFC) (maxDistance : N) (direction : string)
    : list (nat * Shape) :=
  let extendedLineFC := extend_rows lineFC maxDistance direction in
  let intersections :=
    index_intersections (Intersect_analysis extendedLineFC intersectFC) in
  map (nearest_row intersections maxDistance direction) extendedLineFC.

End Extend.

(** ** polygonReduction *)

Section Reduction.

(** The vendor API.  [MinimumBoundingGeometry] stands for the tool of
    that name run on [fc], read twice: through the search cursor (the
    fields [MBG_Width], [MBG_Length]) and through [CopyFeatures] (the
    rectangles).  [clip_and_select] stands for steps 6 to 10: clip by
    both halves, merge, repair, select by [basePts], delete the rest,
    copy. *)
Variable FC : Type.
Variable BasePts : Type.
Variable MinimumBoundingGeometry : FC → list (N * N * list (Point N)).
Variable clip_and_select : FC → list (list (Point N)) → BasePts → FC.

(** What one activation does, up to its recursive call. *)
Inductive activation : Type :=
| Accept (fc : FC)
| Split (fcCut : FC)
| Fails (e : exn).

(** The cursor loop over [boundRect]: the fields of the last row, or
    the initial [1], [1]. *)
Definition read_width_length (boundRect : list (N * N * list (Point N)))
    : N * N :=
  fold_left (λ _ row, (fst (fst row), snd (fst row))) boundRect (of_Z 1, of_Z 1).

Definition polygonReduction_body (fc : FC) (reductionRatio : N)
    (basePts : BasePts) : activation :=
  let boundRect := MinimumBoundingGeometry fc in
  let '(width, length) := read_width_length boundRect in
  if width =? of_Z 0 then Fails ZeroDivisionError
  else
    let ratio := length / width in
    if ratio <? reductionRatio then Accept fc
    else
      match map snd boundRect with
      | [] => Fails IndexError
      | rect0 :: _ =>
          match splitRectangle rect0 with
          | Raise e => Fails e
          | Ret rects => Split (clip_and_select fc rects basePts)
          end
      end.

(** [None]: the recursion is still running when the fuel is spent. *)
Fixpoint polygonReduction (fuel : nat) (fc : FC) (reductionRatio : N)
    (basePts : BasePts) : option (res FC) :=
  match fuel with
  | O => None
  | S fuel' =>
      match polygonReduction_body fc reductionRatio basePts with
      | Accept fc => Some (Ret fc)
      | Fails e => Some (Raise e)
      | Split fcCut => polygonReduction fuel' fcCut reductionRatio basePts
      end
  end.

End Reduction.

End Numeric.

Arguments Line {N} geom.
Arguments EmptyLine {N}.
Arguments Accept {FC} fc.
Arguments Split {FC} fcCut.
Arguments Fails {FC} e.

(** [PointGeometry.distanceTo] and [Polyline.length] of the vendor API
    in a planar coordinate system. *)
Definition planar_distance {N : Type} `{PyNum N} (p q : Point N) : N :=
  nsqrt (nadd (nmul (nsub (X q) (X p)) (nsub (X q) (X p)))
              (nmul (nsub (Y q) (Y p)) (nsub (Y q) (Y p)))).

Fixpoint path_length {N : Type} `{PyNum N} (pts : list (Point N)) : N :=
  match pts with
  | p :: (q :: _) as pts' => nadd (planar_distance p q) (path_length pts')
  | _ => of_Z 0
  end.

Definition planar_length {N : Type} `{PyNum N} (geom : Polyline N) : N :=
  path_length (getPart geom).

(** ** Stand-ins for the vendor tools, for the concrete runs *)

Module Demo.

(** [MinimumBoundingGeometry] on a feature class that holds one rectangle,
    given by its ring: the rectangle is its own bounding rectangle, its
    width the shorter side and its length the longer one. *)
Definition rectangle_mbg (fc : list (Point float))
    : list (float * float * list (Point float)) :=
  match fc with
  | [p1; p2; p3; _; _] =>
      let a := planar_distance p1 p2 in
      let b := planar_distance p2 p3 in
      [(py_min a b, py_max a b, fc)]
  | _ => []
  end.

(** Steps 6 to 10 when the base points lie in the first half: the clip of
    a rectangle by that half is the half. *)
Definition keep_first_half (fc : list (Point float))
    (rects : list (list (Point float))) (basePts : unit) : list (Point float) :=
  match rects with
  | r1 :: _ => r1
  | [] => fc
  end.

(** Steps 6 to 10 when the selection gives the whole polygon back. *)
Definition keep_all (fc : list (Point float))
    (rects : list (list (Point float))) (basePts : unit) : list (Point float) :=
  fc.

Definition unit_square : list (Point float) :=
  [fpoint 0 0; fpoint 1 0; fpoint 1 1; fpoint 0 1; fpoint 0 0].

Definition rectangle_8_by_1 : list (Point float) :=
  [fpoint 0 0; fpoint 8 0; fpoint 8 1; fpoint 0 1; fpoint 0 0].

End Demo.

(** ** Further functions of [GeomTools] *)

Section Lines.

Context {N : Type} `{PyNum N}.
Local Open Scope py_scope.

(** ** flipLine *)

(** The array [arr2] receives [reversed(arr)]: of the vertices
    [first, inner..., last] that is [last, reversed inner..., first]. *)
Definition flipLine (geom : Polyline N) : Polyline N :=
  mkPolyline (lastPoint geom) (rev (inner geom)) (firstPoint geom).

(** ** isPolylineClosed *)

Definition isPolylineClosed (geom : Polyline N) : bool :=
  if X (firstPoint geom) =? X (lastPoint geom) then
    if Y (firstPoint geom) =? Y (lastPoint geom) then true
    else false
  else false.

(** ** appendToArrayStart *)

(** [arr.getObject(i)] for [i] in [range(0, len(arr))]. *)
Definition appendToArrayStart {A : Type} (arr points : list A) : list A :=
  let newArr := fold_left (λ newArr point, newArr ++ [point]) points [] in
  fold_left (λ newArr i,
               match arr !! i with
               | Some o => newArr ++ [o]
               | None => newArr
               end) (seq 0 (length arr)) newArr.

(** ** polylineExplodeSegments *)

(** The loop [while next(arr)] over one part; the state is
    ([previousPoint], [explodedLines]). *)
Definition explode_part (arr : list (Point N))
    (explodedLines : list (Polyline N)) : list (Polyline N) :=
  snd (fold_left (λ '(previousPoint, explodedLines) p,
         match previousPoint with
         | Some previous => (Some p, explodedLines ++ [segment previous p])
         | None => (Some p, explodedLines)
         end) arr (None, explodedLines)).

(** The feature class is given by the parts of its polylines; the result
    is the list of geometries copied to the output feature class. *)
Definition polylineExplodeSegments (plineList : list (list (list (Point N))))
    : list (Polyline N) :=
  fold_left (λ explodedLines pline,
    fold_left (λ explodedLines arr, explode_part arr explodedLines)
      pline explodedLines) plineList [].

Section Trigonometry.

Variable atan2 : N → N → N.
Variables sin cos : N → N.

(** ** makeLineOnAzimuthFromPoint *)

(** [ptGeom] is given by its point, [ptGeom.getPart(0)]. *)
Definition makeLineOnAzimuthFromPoint (ptGeom : Point N) (distance azimuth : N)
    : Polyline N * Point N :=
  let azimuth := radians azimuth in
  let deltaX := distance * sin azimuth in
  let deltaY := distance * cos azimuth in
  let endX := X ptGeom + deltaX in
  let endY := Y ptGeom + deltaY in
  let pline := segment ptGeom (mkPoint endX endY) in
  let endPt := mkPoint endX endY in
  (pline, endPt).

(** ** calcDistanceLL *)

(** [math.sqrt(v)]: a domain error below zero. *)
Definition math_sqrt (v : N) : res N :=
  if v <? of_Z 0 then Raise ValueError else Ret (nsqrt v).

Definition calcDistanceLL (lat1 long1 lat2 long2 : N) : res N :=
  let earthRadius := of_Z 6371000 in
  let dLat := radians (lat2 - lat1) in
  let dLng := radians (long2 - long1) in
  let a := sin (dLat / of_Z 2) * sin (dLat / of_Z 2)
           + cos (radians lat1) * cos (radians lat2)
             * sin (dLng / of_Z 2) * sin (dLng / of_Z 2) in
  bind (math_sqrt a) (λ root_a,
  bind (math_sqrt (of_Z 1 - a)) (λ root_1_a,
    let c := of_Z 2 * atan2 root_a root_1_a in
    let dist := earthRadius * c in
    Ret dist)).

End Trigonometry.

End Lines.

(** ** fuzzyCoordinate, buildSpatialIndexFC *)

Section Fuzzy.

Context {N : Type} `{PyNum N}.
Local Open Scope py_scope.

(** [round(x, ndigits)] and [str] of a float, as for [spatialKey]. *)
Variable round : N → Z → N.
Variable str : N → string.

(** [s.add(x)] on a set of numbers kept as a list without repetition:
    elements are told apart by [==]. *)
Definition set_add (x : N) (s : list N) : list N :=
  if py_in x s then s else s ++ [x].

Definition fuzzyCoordinate (coord : N) : list N :=
  let fuzzy := set_add coord [] in
  let x_round := round (coord / of_Z 100) 0 * of_Z 100 in
  if (x_round mod of_Z 1000) =? of_Z 0 then
    let x_diff := x_round - coord in
    let x_fuzz := x_round + x_diff in
    set_add x_fuzz fuzzy
  else fuzzy.

(** The body of [for (x, y) in xy_coords]: vertex [i] of row [oid] is
    appended to [idx[key][oid]]. *)
Definition fc_record (oid i : nat) (idx : gmap string (gmap nat (list nat)))
    (xy : N * N) : gmap string (gmap nat (list nat)) :=
  let '(x, y) := xy in
  let key := String.substring 0 5 (str x) +:+ ":" +:+ String.substring 0 4 (str y) in
  match idx !! key with
  | None => <[key := {[ oid := [i] ]}]> idx
  | Some by_oid =>
      match by_oid !! oid with
      | None => <[key := <[oid := [i]]> by_oid]> idx
      | Some l => <[key := <[oid := l ++ [i]]> by_oid]> idx
      end
  end.

(** The loop [for i in range(0, len(arr))] of one row, from index [i] on. *)
Fixpoint fc_row_loop (oid : nat) (arr : list (Point N)) (i : nat)
    (idx : gmap string (gmap nat (list nat))) : gmap string (gmap nat (list nat)) :=
  match arr with
  | [] => idx
  | pt :: arr' =>
      let x_coords := fuzzyCoordinate (X pt) in
      let y_coords := fuzzyCoordinate (Y pt) in
      let xy_coords := list_prod x_coords y_coords in
      fc_row_loop oid arr' (S i) (fold_left (fc_record oid i) xy_coords idx)
  end.

(** [fc] is given by the rows of its search cursor: the object id and
    the vertex array of part 0.  The progress messages are left out.  The
    order in which a set is iterated decides only the order in which one
    vertex number is appended under several keys. *)
Definition buildSpatialIndexFC (fc : list (nat * list (Point N)))
    : gmap string (gmap nat (list nat)) :=
  fold_left (λ idx '(oid, arr), fc_row_loop oid arr 0 idx) fc ∅.

End Fuzzy.

(** ** remove_holes *)

Section Holes.

Context {N : Type}.

(** A geometry as [remove_holes] reads it: whether it is an
    [arcpy.Polygon], and its parts; in the array of a part a null point
    ([None]) separates the rings. *)
Inductive Geometry : Type :=
| Polygon (parts : list (list (option (Point N))))
| NotPolygon (parts : list (list (option (Point N)))).

(** The loop [for point in part]: the array, and whether a null point
    ended the loop. *)
Fixpoint outer_ring_part (part : list (option (Point N))) (arr : list (Point N))
    : list (Point N) * bool :=
  match part with
  | [] => (arr, false)
  | Some point :: part' => outer_ring_part part' (arr ++ [point])
  | None :: _ => (arr, true)
  end.

(** The loop [for part in geom]: the array when a null point is met. *)
Fixpoint outer_ring (geom : list (list (option (Point N)))) (arr : list (Point N))
    : option (list (Point N)) :=
  match geom with
  | [] => None
  | part :: geom' =>
      match outer_ring_part part arr with
      | (arr, true) => Some arr
      | (arr, false) => outer_ring geom' arr
      end
  end.

(** [arcpy.Polygon(arr)] is the polygon of the one part [arr]. *)
Definition remove_holes (geom : Geometry) : Geometry * bool :=
  match geom with
  | NotPolygon _ => (geom, false)
  | Polygon parts =>
      match outer_ring parts [] with
      | Some arr => (Polygon [map Some arr], true)
      | None => (geom, false)
      end
  end.

End Holes.

Arguments Geometry N : clear implicits.

(** ** Field lists and rows ([ArcTools]) *)

(** [str.upper()] of a byte string: the letters [a] to [z]. *)
Definition ascii_upper (c : Ascii.ascii) : Ascii.ascii :=
  let n := Ascii.nat_of_ascii c in
  if (97 <=? n)%nat && (n <=? 122)%nat then Ascii.ascii_of_nat (n - 32) else c.

Fixpoint upper (s : string) : string :=
  match s with
  | EmptyString => EmptyString
  | String c s' => String (ascii_upper c) (upper s')
  end.

(** The loop [for i in range(0, len(fieldList))] updates the list in
    place; the list is returned. *)
Definition getShapeGeomToken (fieldList : list string) : list string :=
  fold_left (λ fieldList i,
               match fieldList !! i with
               | Some field =>
                   if String.eqb (upper field) "SHAPE"
                   then <[i := "SHAPE@"]> fieldList
                   else fieldList
               | None => fieldList
               end) (seq 0 (length fieldList)) fieldList.

Definition addShapeGeomToken (fieldList : list string) : list string :=
  if negb (bool_decide ("SHAPE@" ∈ fieldList)) then "SHAPE@" :: fieldList
  else fieldList.

Definition addOIDcolumnToken (fieldList : list string) : list string :=
  "OID@" :: fieldList.

Section SmartRow.

(** The values of a row. *)
Context {V : Type}.

(** [fields[i]] and [row[i]] raise [IndexError] out of range. *)
Definition getSmartRow (fields : list string) (row : list V)
    : res (gmap string V) :=
  fold_left (λ rowDict i,
               bind rowDict (λ rowDict,
                 match row !! i, fields !! i with
                 | Some value, Some field => Ret (<[field := value]> rowDict)
                 | _, _ => Raise IndexError
                 end)) (seq 0 (length row)) (Ret ∅).

(** [fields.index(fieldName)]: the first position, or [ValueError]. *)
Definition index (fields : list string) (fieldName : string) : res nat :=
  match list_find (λ field, field = fieldName) fields with
  | Some (findex, _) => Ret findex
  | None => Raise ValueError
  end.

(** The names of [smartRow] are visited in the order of the map; the
    order decides neither the positions nor the kind of the error. *)
Definition setSmartRow (fields : list string) (smartRow : gmap string V)
    : res (list V) :=
  let rowList := [] in
  let positionList : gmap nat V := ∅ in
  bind (fold_left (λ positionList '(fieldName, value),
                     bind positionList (λ positionList,
                     bind (index fields fieldName) (λ findex,
                       Ret (<[findex := value]> positionList))))
          (map_to_list smartRow) (Ret positionList)) (λ positionList,
    let rowList :=
      fold_left (λ rowList key,
                   match positionList !! key with
                   | Some value => rowList ++ [value]
                   | None => rowList
                   end)
        (merge_sort le (map fst (map_to_list positionList))) rowList in
    Ret rowList).

End SmartRow.

(** ** logs.py: [ArcLogger] *)

Module Logs.

(** The levels of the standard [logging] module. *)
Definition CRITICAL : Z := 50.
Definition ERROR : Z := 40.
Definition WARNING : Z := 30.
Definition INFO : Z := 20.
Definition DEBUG : Z := 10.

(** The state of a logger that the methods below read and write: its
    level, and the records it has passed to its handlers. *)
Record ArcLogger : Type := mkArcLogger {
  level : Z;
  handled : list (Z * string)
}.

(** [logging.Logger.setLevel]. *)
Definition setLevel (lvl : Z) (self : ArcLogger) : ArcLogger :=
  mkArcLogger lvl (handled self).

(** [logging.Logger.isEnabledFor] for a logger without parent, with
    nothing disabled through [logging.disable]. *)
Definition isEnabledFor (lvl : Z) (self : ArcLogger) : bool :=
  if (0 >=? lvl)%Z then false else (level self <=? lvl)%Z.

(** [logging.Logger.debug], [info], [warning], [error], [critical]: the
    record is made and handled when the level is enabled.  The handler of
    [__init__] has level [NOTSET] and takes every record. *)
Definition log (lvl : Z) (msg : string) (self : ArcLogger) : ArcLogger :=
  if isEnabledFor lvl self
  then mkArcLogger (level self) (handled self ++ [(lvl, msg)])
  else self.

Definition set_level_num (level : Z) (self : ArcLogger) : ArcLogger :=
  let self := if (level =? 5)%Z then setLevel DEBUG self else self in
  let self := if (level =? 4)%Z then setLevel INFO self else self in
  let self := if (level =? 3)%Z then setLevel WARNING self else self in
  let self := if (level =? 2)%Z then setLevel ERROR self else self in
  let self := if (level =? 1)%Z then setLevel CRITICAL self else self in
  self.

Definition p5 (msg : string) (self : ArcLogger) : ArcLogger := log DEBUG msg self.
Definition p4 (msg : string) (self : ArcLogger) : ArcLogger := log INFO msg self.
Definition p3 (msg : string) (self : ArcLogger) : ArcLogger := log WARNING msg self.
Definition p2 (msg : string) (self : ArcLogger) : ArcLogger := log ERROR msg self.
Definition p1 (msg : string) (self : ArcLogger) : ArcLogger := log CRITICAL msg self.

End Logs.

(** ** Measures used in the statements *)

(** The number of entries of an index: the bucket sizes, summed. *)
Definition index_count (idx : gmap string (gset nat)) : nat :=
  map_fold (λ _ s n, size s + n) 0 idx.

(** Twice the signed area of a ring (the shoelace sum). *)
Fixpoint shoelace {N : Type} `{PyNum N} (ring : list (Point N)) : N :=
  match ring with
  | p :: (q :: _) as ring' =>
      nadd (nsub (nmul (X p) (Y q)) (nmul (X q) (Y p))) (shoelace ring')
  | _ => of_Z 0
  end.

(** ** Vocabulary of the statements about the loops *)

(** The state of the loop at index [i]: every recorded index is below
    [i]. *)
Definition below (i : nat) (idx : gmap string (gset nat)) : Prop :=
  ∀ key s j, idx !! key = Some s → j ∈ s → (j < i)%nat.

(** One iteration of the loop on the index. *)
Definition record (key : string) (i : nat) (idx : gmap string (gset nat))
    : gmap string (gset nat) :=
  match idx !! key with
  | None => <[key := {[ i ]}]> idx
  | Some s => <[key := s ∪ {[ i ]}]> idx
  end.

(** What the third cursor does to one row: with [reach] the sum of
    [maxDistance] and the length of the row's line, and distances taken
    from the first point of that line. *)
Definition nearest_row_outcome (distanceTo : Point R → Point R → R)
    (geom_length : Polyline R → R) (table : gmap nat (list (Point R)))
    (maxDistance : R) (direction : string)
    (row : nat * Polyline R) (out : nat * @Shape R) : Prop :=
  let geom := snd row in
  let reach := (maxDistance + geom_length geom)%R in
  let d := distanceTo (firstPoint geom) in
  fst out = fst row
  ∧ ((snd out = Line geom
      ∧ ∀ inters p, table !! fst row = Some inters → In p inters →
                    (reach <= d p)%R)
     ∨ (∃ inters l1 q l2,
          table !! fst row = Some inters
          ∧ inters = l1 ++ q :: l2
          ∧ (d q < reach)%R
          ∧ (∀ p, In p l1 → (d q < d p)%R)
          ∧ (∀ p, In p l2 → (d q <= d p)%R)
          ∧ snd out
            = Polyline_of_array
                (if String.eqb direction "AZIMUTH" then [firstPoint geom; q]
                 else if String.eqb direction "OPPOSITE" then [q; firstPoint geom]
                 else []))).

(** The planar lengths of a list of lines, added up. *)
Definition total_length (lines : list (Polyline R)) : R :=
  foldr Rplus 0%R (map planar_length lines).

(** Vertex [i] of row [oid] is on record under [key]. *)
Definition recorded (key : string) (oid i : nat)
    (idx : gmap string (gmap nat (list nat))) : Prop :=
  ∃ by_oid l, idx !! key = Some by_oid ∧ by_oid !! oid = Some l ∧ In i l.

(** * Properties *)

(** ** Exact arithmetic: the comparisons and the modulo *)

Lemma Real_ltb_true (a b : R) : Real.ltb a b = true ↔ (a < b)%R.
Proof. unfold Real.ltb. destruct (Rlt_dec a b); split; intros; try done. Qed.

Lemma Real_ltb_false (a b : R) : Real.ltb a b = false ↔ (b <= a)%R.
Proof.
  unfold Real.ltb. destruct (Rlt_dec a b); split; intros; try done; lra.
Qed.

Lemma Real_eqb_true (a b : R) : Real.eqb a b = true ↔ a = b.
Proof. unfold Real.eqb. destruct (Req_dec_T a b); split; intros; done. Qed.

Lemma Real_eqb_false (a b : R) : Real.eqb a b = false ↔ a ≠ b.
Proof. unfold Real.eqb. destruct (Req_dec_T a b); split; intros; done. Qed.

Lemma Real_py_mod_range (x y : R) :
  (0 < y)%R → (0 <= Real.py_mod x y < y)%R.
Proof.
  intros Hy. unfold Real.py_mod.
  destruct (base_Int_part (x / y)) as [Hlo Hhi].
  set (k := IZR (Int_part (x / y))) in *.
  assert (Hx : x = (y * (x / y))%R) by (field; lra).
  set (q := (x / y)%R) in *. clearbody q k.
  subst x. split; nra.
Qed.

Lemma Real_py_mod_shift (x y : R) :
  ∃ k : Z, Real.py_mod x y = (x + y * IZR k)%R.
Proof.
  exists (- Int_part (x / y))%Z. unfold Real.py_mod.
  rewrite opp_IZR. ring.
Qed.

(** ** C1: intersectLines *)

(** C1 (failing input).  The vertical segment (0,-1)-(0,1) and the
    horizontal segment (-1,0)-(1,0) cross at the origin, strictly inside
    both; on binary64 floats [intersectLines] reports no intersection. *)
Lemma intersectLines_misses_axis_aligned_crossing :
  intersectLines (N := float)
    (0, -1, 0, 1)%float (-1, 0, 1, 0)%float = None.
Proof. vm_compute. reflexivity. Qed.

Lemma py_min_exact (a b : R) : py_min a b = Rmin a b.
Proof.
  unfold py_min. change (nlt b a) with (Real.ltb b a).
  unfold Real.ltb, Rmin. destruct (Rlt_dec b a), (Rle_dec a b); lra.
Qed.

Lemma py_max_exact (a b : R) : py_max a b = Rmax a b.
Proof.
  unfold py_max. change (nlt a b) with (Real.ltb a b).
  unfold Real.ltb, Rmax. destruct (Rlt_dec a b), (Rle_dec a b); lra.
Qed.

(** The test [min(a, b) < v < max(a, b)]. *)
Lemma strictly_between (a b v : R) :
  Real.ltb (py_min a b) v && Real.ltb v (py_max a b) = true
  ↔ (Rmin a b < v < Rmax a b)%R.
Proof.
  rewrite py_min_exact, py_max_exact, andb_true_iff, !Real_ltb_true. tauto.
Qed.

(** A segment parallel to an axis has an empty strict bounding box: no
    intersection with it is ever reported. *)
Lemma intersectLines_axis_aligned_none (x1 y1 x2 y2 x3 y3 x4 y4 : R) :
  x1 = x2 ∨ y1 = y2 ∨ x3 = x4 ∨ y3 = y4 →
  intersectLines (x1, y1, x2, y2) (x3, y3, x4, y4) = None.
Proof.
  intros Haxis. unfold intersectLines.
  destruct (neq _ _); [reflexivity |].
  match goal with
  | |- (if ?c then _ else _) = None => destruct c eqn:Htest; [| reflexivity]
  end.
  exfalso.
  change (nlt ?a ?b) with (Real.ltb a b) in Htest.
  repeat (apply andb_true_iff in Htest; destruct Htest as [Htest ?]).
  repeat match goal with
  | H : Real.ltb _ _ = true |- _ => apply Real_ltb_true in H
  end.
  rewrite ?py_min_exact, ?py_max_exact in *.
  destruct Haxis as [-> | [-> | [-> | ->]]];
    rewrite ?Rmin_left, ?Rmax_left in * by lra; lra.
Qed.

(** Two segments, neither parallel to an axis, that cross at a point
    strictly inside both: the point is returned. *)
Lemma intersectLines_oblique_crossing (x1 y1 x2 y2 x3 y3 x4 y4 t u : R) :
  x1 ≠ x2 → y1 ≠ y2 → x3 ≠ x4 → y3 ≠ y4 →
  (0 < t < 1)%R → (0 < u < 1)%R →
  (x1 + t * (x2 - x1) = x3 + u * (x4 - x3))%R →
  (y1 + t * (y2 - y1) = y3 + u * (y4 - y3))%R →
  ((y2 - y1) * (x3 - x4) - (y4 - y3) * (x1 - x2))%R ≠ 0%R →
  intersectLines (x1, y1, x2, y2) (x3, y3, x4, y4)
  = Some ((x1 + t * (x2 - x1))%R, (y1 + t * (y2 - y1))%R).
Proof.
  intros Hx12 Hy12 Hx34 Hy34 Ht Hu HPx HPy Hdet.
  unfold intersectLines. cbv zeta.
  cbn [nadd nsub nmul ndiv neq nlt of_Z R_PyNum].
  set (det := ((y2 - y1) * (x3 - x4) - (y4 - y3) * (x1 - x2))%R) in *.
  replace (Real.eqb det 0) with false by (symmetry; apply Real_eqb_false; exact Hdet).
  set (Px := (x1 + t * (x2 - x1))%R) in *.
  set (Py := (y1 + t * (y2 - y1))%R) in *.
  assert (Hx : (((x3 - x4) * ((y2 - y1) * x1 + (x1 - x2) * y1)
                 - (x1 - x2) * ((y4 - y3) * x3 + (x3 - x4) * y3)) / det = Px)%R).
  { apply (Rmult_eq_reg_r det); [| exact Hdet].
    unfold Rdiv. rewrite Rmult_assoc, Rinv_l, Rmult_1_r by exact Hdet.
    unfold det.
    replace ((y4 - y3) * x3 + (x3 - x4) * y3)%R
      with ((y4 - y3) * Px + (x3 - x4) * Py)%R by (rewrite HPx, HPy; ring).
    unfold Px, Py. ring. }
  assert (Hy : (((y2 - y1) * ((y4 - y3) * x3 + (x3 - x4) * y3)
                 - (y4 - y3) * ((y2 - y1) * x1 + (x1 - x2) * y1)) / det = Py)%R).
  { apply (Rmult_eq_reg_r det); [| exact Hdet].
    unfold Rdiv. rewrite Rmult_assoc, Rinv_l, Rmult_1_r by exact Hdet.
    unfold det.
    replace ((y4 - y3) * x3 + (x3 - x4) * y3)%R
      with ((y4 - y3) * Px + (x3 - x4) * Py)%R by (rewrite HPx, HPy; ring).
    unfold Px, Py. ring. }
  rewrite Hx, Hy.
  assert (Hin : ∀ a b s, a ≠ b → (0 < s < 1)%R →
            Real.ltb (py_min a b) (a + s * (b - a)) = true
            ∧ Real.ltb (a + s * (b - a)) (py_max a b) = true).
  { intros a b s Hab Hs. rewrite py_min_exact, py_max_exact, !Real_ltb_true.
    unfold Rmin, Rmax. destruct (Rle_dec a b); nra. }
  destruct (Hin x1 x2 t Hx12 Ht) as [H1 H2]. fold Px in H1, H2.
  destruct (Hin y1 y2 t Hy12 Ht) as [H3 H4]. fold Py in H3, H4.
  destruct (Hin x3 x4 u Hx34 Hu) as [H5 H6]. rewrite <- HPx in H5, H6.
  destruct (Hin y3 y4 u Hy34 Hu) as [H7 H8]. rewrite <- HPy in H7, H8.
  rewrite H1, H2, H3, H4, H5, H6, H7, H8. reflexivity.
Qed.

(** Whatever the numbers: no point is returned when the determinant is
    zero, and a point that is returned has passed the eight strict
    comparisons with the bounding boxes of both segments. *)
Lemma intersectLines_Some_inv {N : Type} `{PyNum N}
    (x1 y1 x2 y2 x3 y3 x4 y4 x y : N) :
  intersectLines (x1, y1, x2, y2) (x3, y3, x4, y4) = Some (x, y) →
  let det := nsub (nmul (nsub y2 y1) (nsub x3 x4)) (nmul (nsub y4 y3) (nsub x1 x2)) in
  neq det (of_Z 0) = false
  ∧ (nlt (py_min x1 x2) x && nlt x (py_max x1 x2)
     && nlt (py_min x3 x4) x && nlt x (py_max x3 x4)
     && nlt (py_min y1 y2) y && nlt y (py_max y1 y2)
     && nlt (py_min y3 y4) y && nlt y (py_max y3 y4)) = true.
Proof.
  unfold intersectLines. cbv zeta.
  destruct (neq _ _); [discriminate |].
  match goal with
  | |- (if ?c then _ else _) = _ → _ => destruct c eqn:Htest; [| discriminate]
  end.
  intros Hsome. inversion Hsome; subst x y. split; [reflexivity | exact Htest].
Qed.

(** ** C2, C10: buildSpatialIndex *)


Lemma index_count_insert_fresh (idx : gmap string (gset nat)) key s :
  idx !! key = None →
  index_count (<[key := s]> idx) = size s + index_count idx.
Proof.
  intros Hnone. unfold index_count.
  rewrite map_fold_insert_L; [reflexivity | intros; lia | exact Hnone].
Qed.

Lemma index_count_insert_present (idx : gmap string (gset nat)) key s s' :
  idx !! key = Some s →
  index_count (<[key := s']> idx) + size s = size s' + index_count idx.
Proof.
  intros Hsome.
  rewrite <- (insert_delete_eq idx key s') at 1.
  rewrite <- (insert_delete_id idx key s Hsome) at 2.
  rewrite !index_count_insert_fresh by apply lookup_delete_eq.
  lia.
Qed.

Section Index.

Context {N : Type} `{PyNum N}.
Variable log10 : N → N.
Variable trunc : N → Z.
Variable round : N → Z → N.
Variable str : N → string.
Variable str_int : Z → string.

Local Abbreviation rfactor := (round_factor log10 trunc).
Local Abbreviation skey := (spatialKey log10 trunc round str str_int).
Local Abbreviation pkey := (spatialKeyFromPoint log10 trunc round str str_int).
Local Abbreviation index_loop :=
  (buildSpatialIndex_loop log10 trunc round str str_int).

(** Once the rounding precision of the grid is defined the key is, and
    it is the rendering of the two rounded coordinates. *)
Lemma spatialKey_defined x y grid_size rf :
  rfactor grid_size = Ret rf →
  skey x y grid_size false
  = Ret (str (round x rf) +:+ ":" +:+ str (round y rf)).
Proof. intros Hrf. unfold spatialKey. rewrite Hrf. reflexivity. Qed.

Lemma spatialKey_undefined x y grid_size invert e :
  rfactor grid_size = Raise e →
  skey x y grid_size invert = Raise e.
Proof. intros Hrf. unfold spatialKey. rewrite Hrf. reflexivity. Qed.

Lemma record_lookup key i idx :
  ∃ s, record key i idx !! key = Some s ∧ i ∈ s.
Proof.
  unfold record. destruct (idx !! key) as [s |] eqn:Hk.
  - exists (s ∪ {[ i ]}). rewrite lookup_insert_eq. split; [done | set_solver].
  - exists {[ i ]}. rewrite lookup_insert_eq. split; [done | set_solver].
Qed.

Lemma record_keeps key i idx key' s j :
  idx !! key' = Some s → j ∈ s →
  ∃ s', record key i idx !! key' = Some s' ∧ j ∈ s'.
Proof.
  intros Hk' Hj. unfold record.
  destruct (decide (key = key')) as [-> | Hne].
  - rewrite Hk'. exists (s ∪ {[ i ]}). rewrite lookup_insert_eq.
    split; [done | set_solver].
  - exists s. destruct (idx !! key); rewrite lookup_insert_ne by done; done.
Qed.

Lemma record_from key i idx key' s j :
  record key i idx !! key' = Some s → j ∈ s →
  (key' = key ∧ j = i) ∨ (∃ s0, idx !! key' = Some s0 ∧ j ∈ s0).
Proof.
  unfold record. intros Hk' Hj.
  destruct (decide (key = key')) as [-> | Hne].
  - destruct (idx !! key') as [s0 |] eqn:H0;
      rewrite lookup_insert_eq in Hk'; inversion Hk'; subst s.
    + apply elem_of_union in Hj as [Hj | Hj].
      * right. exists s0. done.
      * left. split; [done | set_solver].
    + left. split; [done | set_solver].
  - right. exists s.
    destruct (idx !! key); rewrite lookup_insert_ne in Hk' by done; done.
Qed.

Lemma record_below key i idx :
  below i idx → below (S i) (record key i idx).
Proof.
  intros Hb key' s j Hk' Hj.
  destruct (record_from _ _ _ _ _ _ Hk' Hj) as [[_ ->] | (s0 & H0 & Hj0)].
  - lia.
  - specialize (Hb _ _ _ H0 Hj0). lia.
Qed.

Lemma record_count key i idx :
  below i idx → index_count (record key i idx) = S (index_count idx).
Proof.
  intros Hb. unfold record. destruct (idx !! key) as [s |] eqn:Hk.
  - pose proof (index_count_insert_present idx key s (s ∪ {[ i ]}) Hk) as Hc.
    assert (Hfresh : i ∉ s).
    { intros Hi. specialize (Hb _ _ _ Hk Hi). lia. }
    rewrite size_union in Hc by set_solver.
    rewrite size_singleton in Hc. lia.
  - rewrite index_count_insert_fresh by done. rewrite size_singleton. lia.
Qed.

(** The loop, from any state: it ends, every point read is recorded
    under its key, nothing recorded is lost, and the count grows by the
    number of points read. *)
Lemma buildSpatialIndex_loop_spec grid_scale rf arr :
  rfactor grid_scale = Ret rf →
  ∀ i idx, below i idx →
  ∃ idx',
    index_loop arr i grid_scale idx = Ret idx'
    ∧ below (i + length arr) idx'
    ∧ index_count idx' = index_count idx + length arr
    ∧ (∀ key s j, idx !! key = Some s → j ∈ s →
         ∃ s', idx' !! key = Some s' ∧ j ∈ s')
    ∧ (∀ j point, arr !! j = Some point →
         ∃ key s, pkey point grid_scale = Ret key
                  ∧ idx' !! key = Some s ∧ (i + j)%nat ∈ s)
    ∧ (∀ key s k, idx' !! key = Some s → k ∈ s →
         (∃ s0, idx !! key = Some s0 ∧ k ∈ s0)
         ∨ (∃ j point, k = (i + j)%nat ∧ arr !! j = Some point
              ∧ pkey point grid_scale = Ret key)).
Proof.
  intros Hrf. induction arr as [| point arr IH]; intros i idx Hb.
  - exists idx. simpl. rewrite !Nat.add_0_r.
    split; [reflexivity |]. split; [exact Hb |]. split; [reflexivity |].
    split; [| split].
    + intros key s j Hk Hj. exists s. done.
    + intros j point Hl. rewrite lookup_nil in Hl. discriminate.
    + intros key s k Hk Hj. left. exists s. done.
  - simpl. unfold spatialKeyFromPoint at 1.
    rewrite (spatialKey_defined _ _ _ _ Hrf). simpl.
    set (key := str (round (X point) rf) +:+ ":" +:+ str (round (Y point) rf)).
    fold (record key i idx).
    destruct (IH (S i) (record key i idx) (record_below key i idx Hb))
      as (idx' & Hrun & Hb' & Hcount & Hkeep & Hnew & Hfrom).
    exists idx'. split; [exact Hrun |].
    split; [replace (i + S (length arr))%nat with (S i + length arr)%nat by lia;
            exact Hb' |].
    split; [rewrite Hcount, record_count by done; lia |].
    split; [| split].
    + intros key' s j Hk' Hj.
      destruct (record_keeps key i idx key' s j Hk' Hj) as (s1 & H1 & Hj1).
      eapply Hkeep; eauto.
    + intros [| j] point' Hlook.
      * simpl in Hlook. inversion Hlook; subst point'.
        destruct (record_lookup key i idx) as (s1 & H1 & Hi1).
        destruct (Hkeep _ _ _ H1 Hi1) as (s' & Hs' & Hi').
        exists key, s'. unfold spatialKeyFromPoint.
        rewrite (spatialKey_defined _ _ _ _ Hrf). rewrite Nat.add_0_r.
        done.
      * simpl in Hlook. destruct (Hnew j point' Hlook) as (k' & s' & Hk & Hs' & Hin).
        exists k', s'. replace (i + S j)%nat with (S i + j)%nat by lia. done.
    + intros key' s k Hk' Hin.
      destruct (Hfrom _ _ _ Hk' Hin) as [(s0 & H0 & Hk0) | (j & point' & -> & Hl & Hkey)].
      * destruct (record_from _ _ _ _ _ _ H0 Hk0) as [[-> ->] | Hold].
        -- right. exists 0%nat, point. rewrite Nat.add_0_r. split; [done |].
           split; [done |]. unfold spatialKeyFromPoint.
           rewrite (spatialKey_defined _ _ _ _ Hrf). done.
        -- left. exact Hold.
      * right. exists (S j), point'. split; [lia |]. done.
Qed.


(** Nothing else is in the index: every recorded position is that of a
    point whose key is the bucket's. *)
Lemma buildSpatialIndex_exact
    (geom : list (Point N)) (grid_scale : N) (density : string) idx key s i :
  buildSpatialIndex log10 trunc round str str_int geom grid_scale density
  = Ret (Val idx) →
  idx !! key = Some s → i ∈ s →
  ∃ point, geom !! i = Some point ∧ pkey point grid_scale = Ret key.
Proof.
  unfold buildSpatialIndex. intros Hrun Hk Hi.
  destruct (bool_decide (density ∈ ["ALL"; "ENDS"])); simpl in Hrun; [| discriminate].
  destruct (rfactor grid_scale) as [rf | e] eqn:Hrf.
  - assert (Hb : below 0 ∅) by (intros k' s' j Hk'; rewrite lookup_empty in Hk'; done).
    destruct (buildSpatialIndex_loop_spec grid_scale rf geom Hrf 0%nat ∅ Hb)
      as (idx' & Hrun' & _ & _ & _ & _ & Hfrom).
    rewrite Hrun' in Hrun. simpl in Hrun. inversion Hrun; subst idx'.
    destruct (Hfrom key s i Hk Hi) as [(s0 & H0 & _) | (j & point & -> & Hl & Hkey)].
    + rewrite lookup_empty in H0. discriminate.
    + exists point. done.
  - destruct geom as [| point geom'].
    + simpl in Hrun. inversion Hrun; subst idx.
      rewrite lookup_empty in Hk. discriminate.
    + simpl in Hrun. unfold spatialKeyFromPoint in Hrun.
      rewrite (spatialKey_undefined _ _ _ _ _ Hrf) in Hrun. simpl in Hrun.
      discriminate.
Qed.


End Index.

(** Three points on a 100 m grid, on binary64 floats: the first two fall
    in one cell. *)
Example buildSpatialIndex_three_points :
  buildSpatialIndex F64.small_log10 F64.trunc F64.round_tens
    F64.str_integral F64.str_int
    [fpoint 120 260; fpoint 140 310; fpoint 420 90] 100%float "ALL"
  = Ret (Val (<["100.0:300.0" := {[ 0%nat; 1%nat ]}]>
               (<["400.0:100.0" := {[ 2%nat ]}]> ∅))).
Proof.
  unfold buildSpatialIndex.
  rewrite bool_decide_eq_true_2 by apply list_elem_of_here.
  cbn [negb buildSpatialIndex_loop].
  assert (Hk : ∀ p, spatialKeyFromPoint F64.small_log10 F64.trunc F64.round_tens
                      F64.str_integral F64.str_int p 100%float
                    = Ret (F64.str_integral (F64.round_tens (X p) (-2))
                           +:+ ":" +:+ F64.str_integral (F64.round_tens (Y p) (-2)))).
  { intros p. unfold spatialKeyFromPoint. apply spatialKey_defined.
    vm_compute. reflexivity. }
  rewrite !Hk. cbn [bind X Y fpoint].
  replace (F64.str_integral (F64.round_tens 120 (-2)) +:+ ":"
           +:+ F64.str_integral (F64.round_tens 260 (-2)))
    with "100.0:300.0" by (vm_compute; reflexivity).
  replace (F64.str_integral (F64.round_tens 140 (-2)) +:+ ":"
           +:+ F64.str_integral (F64.round_tens 310 (-2)))
    with "100.0:300.0" by (vm_compute; reflexivity).
  replace (F64.str_integral (F64.round_tens 420 (-2)) +:+ ":"
           +:+ F64.str_integral (F64.round_tens 90 (-2)))
    with "400.0:100.0" by (vm_compute; reflexivity).
  rewrite lookup_empty. rewrite lookup_insert_eq. rewrite insert_insert_eq.
  rewrite lookup_insert_ne by done. rewrite lookup_empty.
  rewrite insert_insert_ne by done. reflexivity.
Qed.




(** ** C3: makeNearbyKeys *)

Section Nearby.

Context {N : Type} `{PyNum N}.

(** More fuel does not change the outcome of a loop that ended. *)
Lemma increments_loop_more_fuel fuel :
  ∀ fuel' origin step max_delta current delta acc r,
    (fuel ≤ fuel')%nat →
    increments_loop fuel origin step max_delta current delta acc = Some r →
    increments_loop fuel' origin step max_delta current delta acc = Some r.
Proof.
  induction fuel as [| fuel IH];
    intros fuel' origin step max_delta current delta acc r Hle Hrun.
  - simpl in Hrun. destruct fuel'; simpl;
      destruct (nlt delta max_delta); try discriminate; exact Hrun.
  - destruct fuel' as [| fuel']; [lia |].
    simpl in *. destruct (nlt delta max_delta); [| exact Hrun].
    apply IH; [lia | exact Hrun].
Qed.

(** A loop only adds to the set it is given. *)
Lemma increments_loop_keeps fuel :
  ∀ origin step max_delta current delta acc r x,
    increments_loop fuel origin step max_delta current delta acc = Some r →
    In x acc → In x r.
Proof.
  induction fuel as [| fuel IH];
    intros origin step max_delta current delta acc r x Hrun Hin; simpl in Hrun;
    destruct (nlt delta max_delta); try discriminate.
  - inversion Hrun; subst r. exact Hin.
  - eapply IH; [exact Hrun | right; exact Hin].
  - inversion Hrun; subst r. exact Hin.
Qed.

Lemma increments_pass_more_fuel fuel fuel' lat lon max_lat_delta max_lon_delta
    grid_size i sets r :
  (fuel ≤ fuel')%nat →
  increments_pass fuel lat lon max_lat_delta max_lon_delta grid_size i sets = Some r →
  increments_pass fuel' lat lon max_lat_delta max_lon_delta grid_size i sets = Some r.
Proof.
  intros Hle. unfold increments_pass. destruct sets as [lats lons].
  destruct (increments_loop fuel lat _ max_lat_delta lat _ _) as [lats' |] eqn:Hlat;
    [| discriminate].
  rewrite (increments_loop_more_fuel fuel fuel' _ _ _ _ _ _ _ Hle Hlat).
  destruct (increments_loop fuel lon _ max_lon_delta lon _ _) as [lons' |] eqn:Hlon;
    [| discriminate].
  rewrite (increments_loop_more_fuel fuel fuel' _ _ _ _ _ _ _ Hle Hlon).
  done.
Qed.

(** A pass puts the query coordinates in the sets and keeps what they
    held. *)
Lemma increments_pass_keeps fuel lat lon max_lat_delta max_lon_delta
    grid_size i lats lons lats' lons' :
  increments_pass fuel lat lon max_lat_delta max_lon_delta grid_size i (lats, lons)
  = Some (lats', lons') →
  In lat lats' ∧ In lon lons'
  ∧ (∀ x, In x lats → In x lats') ∧ (∀ x, In x lons → In x lons').
Proof.
  unfold increments_pass.
  destruct (increments_loop fuel lat _ max_lat_delta lat _ _) as [lats1 |] eqn:Hlat;
    [| discriminate].
  destruct (increments_loop fuel lon _ max_lon_delta lon _ _) as [lons1 |] eqn:Hlon;
    [| discriminate].
  intros Hrun. inversion Hrun; subst lats1 lons1.
  repeat split.
  - eapply increments_loop_keeps; [exact Hlat | left; reflexivity].
  - eapply increments_loop_keeps; [exact Hlon | left; reflexivity].
  - intros x Hx. eapply increments_loop_keeps; [exact Hlat | right; exact Hx].
  - intros x Hx. eapply increments_loop_keeps; [exact Hlon | right; exact Hx].
Qed.

Lemma mapM_Ret {A B : Type} (f : A → res B) (g : A → B) (l : list A) :
  (∀ a, In a l → f a = Ret (g a)) → mapM f l = Ret (map g l).
Proof.
  induction l as [| a l IH]; intros Hf; [reflexivity |].
  simpl. rewrite (Hf a) by (left; reflexivity). simpl.
  rewrite IH by (intros b Hb; apply Hf; right; exact Hb). reflexivity.
Qed.

End Nearby.

(** In exact arithmetic a loop with a nonzero step ends: after [k] steps
    the offset is [k] times the step. *)
Lemma increments_loop_ends (origin step max_delta : R) :
  step ≠ 0%R →
  ∀ fuel k current delta acc,
    (current - origin = INR k * step)%R →
    delta = (INR k * Rabs step)%R →
    (max_delta < INR (k + fuel) * Rabs step)%R →
    ∃ r, increments_loop fuel origin step max_delta current delta acc = Some r.
Proof.
  intros Hstep.
  assert (Habs : (0 < Rabs step)%R) by (apply Rabs_pos_lt; exact Hstep).
  induction fuel as [| fuel IH]; intros k current delta acc Hcur Hdelta Hmax.
  - simpl. change (nlt delta max_delta) with (Real.ltb delta max_delta).
    destruct (Real.ltb delta max_delta) eqn:Hlt; [| eauto].
    apply Real_ltb_true in Hlt. rewrite Nat.add_0_r in Hmax. lra.
  - simpl. change (nlt delta max_delta) with (Real.ltb delta max_delta).
    destruct (Real.ltb delta max_delta) eqn:Hlt; [| eauto].
    apply (IH (S k)).
    + change (current + step - origin = INR (S k) * step)%R.
      rewrite S_INR. lra.
    + change (Rabs (current + step - origin) = INR (S k) * Rabs step)%R.
      replace (current + step - origin)%R with (INR (S k) * step)%R
        by (rewrite S_INR; lra).
      rewrite Rabs_mult. rewrite (Rabs_pos_eq (INR (S k))) by apply pos_INR.
      reflexivity.
    + replace (S k + fuel)%nat with (k + S fuel)%nat by lia. exact Hmax.
Qed.

(** Enough steps of a nonzero size pass any bound. *)
Lemma steps_pass_bound (step max_delta : R) :
  step ≠ 0%R → ∃ n : nat, (max_delta < INR n * Rabs step)%R.
Proof.
  intros Hstep.
  assert (Habs : (0 < Rabs step)%R) by (apply Rabs_pos_lt; exact Hstep).
  destruct (archimed (max_delta / Rabs step)) as [Hup _].
  exists (Z.to_nat (Z.max 0 (up (max_delta / Rabs step)))).
  rewrite INR_IZR_INZ, Z2Nat.id by lia.
  assert (Hge : (IZR (up (max_delta / Rabs step))
                 <= IZR (Z.max 0 (up (max_delta / Rabs step))))%R)
    by (apply IZR_le; lia).
  assert (Hq : (max_delta = max_delta / Rabs step * Rabs step)%R)
    by (field; lra).
  rewrite Hq at 1. apply Rmult_lt_compat_r; lra.
Qed.

Lemma increments_pass_ends (lat lon max_lat_delta max_lon_delta grid_size : R)
    (i : Z) (fuel : nat) (sets : list R * list R) :
  grid_size ≠ 0%R → i ≠ 0%Z →
  (max_lat_delta < INR fuel * Rabs (IZR i * grid_size))%R →
  (max_lon_delta < INR fuel * Rabs (IZR i * grid_size))%R →
  ∃ r, increments_pass fuel lat lon max_lat_delta max_lon_delta grid_size i sets
       = Some r.
Proof.
  intros Hgrid Hi Hlat Hlon.
  assert (Hstep : (IZR i * grid_size)%R ≠ 0%R).
  { apply Rmult_integral_contrapositive_currified; [| exact Hgrid].
    intros Hz. apply eq_IZR_R0 in Hz. done. }
  unfold increments_pass. destruct sets as [lats lons].
  change (nmul (of_Z i) grid_size) with (IZR i * grid_size)%R.
  change (of_Z 0) with 0%R.
  destruct (increments_loop_ends lat (IZR i * grid_size) max_lat_delta Hstep
              fuel 0%nat lat 0%R (lat :: lats)) as [lats' ->];
    [simpl; lra | simpl; lra | exact Hlat |].
  destruct (increments_loop_ends lon (IZR i * grid_size) max_lon_delta Hstep
              fuel 0%nat lon 0%R (lon :: lons)) as [lons' ->];
    [simpl; lra | simpl; lra | exact Hlon |].
  eauto.
Qed.

(** In exact arithmetic both passes end when the grid size is not zero,
    and the sets hold the query coordinates. *)
Lemma increments_ends (lat lon max_lat_delta max_lon_delta grid_size : R) :
  grid_size ≠ 0%R →
  ∃ fuel lats lons,
    (∀ fuel', (fuel ≤ fuel')%nat →
       increments fuel' lat lon max_lat_delta max_lon_delta grid_size
       = Some (lats, lons))
    ∧ In lat lats ∧ In lon lons.
Proof.
  intros Hgrid.
  destruct (steps_pass_bound grid_size max_lat_delta Hgrid) as [n1 Hn1].
  destruct (steps_pass_bound grid_size max_lon_delta Hgrid) as [n2 Hn2].
  assert (Habs : (0 < Rabs grid_size)%R) by (apply Rabs_pos_lt; exact Hgrid).
  set (fuel := Nat.max n1 n2).
  assert (Hf1 : (INR n1 <= INR fuel)%R) by (apply le_INR; lia).
  assert (Hf2 : (INR n2 <= INR fuel)%R) by (apply le_INR; lia).
  assert (Hm : ∀ i : Z, (i = -1 ∨ i = 1)%Z →
                 Rabs (IZR i * grid_size) = Rabs grid_size).
  { intros i [-> | ->]; rewrite Rabs_mult.
    - rewrite Rabs_left by lra. lra.
    - rewrite Rabs_pos_eq by lra. lra. }
  destruct (increments_pass_ends lat lon max_lat_delta max_lon_delta grid_size
              (-1) fuel ([], []) Hgrid) as [[lats1 lons1] Hpass1];
    [lia | rewrite Hm by lia; nra | rewrite Hm by lia; nra |].
  destruct (increments_pass_ends lat lon max_lat_delta max_lon_delta grid_size
              1 fuel (lats1, lons1) Hgrid) as [[lats lons] Hpass2];
    [lia | rewrite Hm by lia; nra | rewrite Hm by lia; nra |].
  exists fuel, lats, lons. split.
  - intros fuel' Hle. unfold increments.
    rewrite (increments_pass_more_fuel fuel fuel' _ _ _ _ _ _ _ _ Hle Hpass1).
    exact (increments_pass_more_fuel fuel fuel' _ _ _ _ _ _ _ _ Hle Hpass2).
  - destruct (increments_pass_keeps _ _ _ _ _ _ _ _ _ _ _ Hpass2) as (Hlat & Hlon & _).
    done.
Qed.

(** The radius test, read in exact arithmetic. *)
Lemma near_exact (lat lon min_delta latnew lonnew : R) :
  near lat lon min_delta (latnew, lonnew) = true
  ↔ (sqrt ((latnew - lat) * (latnew - lat) + (lonnew - lon) * (lonnew - lon))
     < min_delta)%R.
Proof.
  unfold near.
  change (nlt ?a ?b) with (Real.ltb a b).
  change (nsqrt ?a) with (sqrt a).
  change (nadd ?a ?b) with (a + b)%R.
  change (nmul ?a ?b) with (a * b)%R.
  change (nfabs ?a) with (Rabs a).
  change (nsub ?a ?b) with (a - b)%R.
  rewrite Real_ltb_true.
  assert (Hsq : ∀ x, (Rabs x * Rabs x = x * x)%R).
  { intros x. rewrite <- Rabs_mult. apply Rabs_pos_eq. nra. }
  rewrite !Hsq. reflexivity.
Qed.

(** In exact arithmetic the rounding precision of a nonzero grid size is
    defined. *)
Lemma round_factor_exact (log10 : R → R) (trunc : R → Z) (grid_size : R) :
  grid_size ≠ 0%R →
  round_factor log10 trunc grid_size
  = Ret (-1 * trunc (log10 (Rabs grid_size)))%Z.
Proof.
  intros Hgrid.
  assert (Habs : (0 < Rabs grid_size)%R) by (apply Rabs_pos_lt; exact Hgrid).
  unfold round_factor, math_log10, py_int.
  change (nfabs grid_size) with (Rabs grid_size).
  change (neq ?a ?b) with (Real.eqb a b).
  change (nlt ?a ?b) with (Real.ltb a b).
  change (of_Z 0) with 0%R.
  replace (Real.eqb (Rabs grid_size) 0) with false
    by (symmetry; apply Real_eqb_false; lra).
  replace (Real.ltb (Rabs grid_size) 0) with false
    by (symmetry; apply Real_ltb_false; lra).
  simpl.
  replace (Real.eqb (log10 (Rabs grid_size)) (log10 (Rabs grid_size))) with true
    by (symmetry; apply Real_eqb_true; reflexivity).
  reflexivity.
Qed.

(** C3 (amended).  In exact arithmetic, for every query coordinate, every
    nonzero grid size and every positive [min_delta], [makeNearbyKeys] returns
    (its loops end), the returned set holds the key of the query
    coordinate itself, and every key of the set is the key of a candidate
    whose Euclidean offset from the query coordinate is strictly below
    [min_delta]. *)
Theorem makeNearbyKeys_own_cell_within_radius
    (log10 : R → R) (trunc : R → Z) (round : R → Z → R)
    (str : R → string) (str_int : Z → string)
    (lat lon max_lat_delta max_lon_delta grid_size min_delta : R) :
  grid_size ≠ 0%R →
  (0 < min_delta)%R →
  ∃ fuel keys own,
    (∀ fuel', (fuel ≤ fuel')%nat →
       makeNearbyKeys log10 trunc round str str_int fuel'
         lat lon max_lat_delta max_lon_delta grid_size min_delta
       = Some (Ret keys))
    ∧ spatialKey log10 trunc round str str_int lon lat grid_size false = Ret own
    ∧ own ∈ keys
    ∧ ∀ key, key ∈ keys →
        ∃ latnew lonnew,
          spatialKey log10 trunc round str str_int lonnew latnew grid_size false
          = Ret key
          ∧ (sqrt ((latnew - lat) * (latnew - lat)
                   + (lonnew - lon) * (lonnew - lon)) < min_delta)%R.
Proof.
  intros Hgrid Hmin.
  destruct (increments_ends lat lon max_lat_delta max_lon_delta grid_size Hgrid)
    as (fuel & lats & lons & Hrun & Hlat & Hlon).
  set (rf := (-1 * trunc (log10 (Rabs grid_size)))%Z).
  pose proof (round_factor_exact log10 trunc grid_size Hgrid) as Hrf. fold rf in Hrf.
  set (key_of := λ pair : R * R,
         str (round (snd pair) rf) +:+ ":" +:+ str (round (fst pair) rf)).
  assert (Hkey : ∀ latnew lonnew,
            spatialKey log10 trunc round str str_int lonnew latnew grid_size false
            = Ret (key_of (latnew, lonnew))).
  { intros latnew lonnew. apply spatialKey_defined. exact Hrf. }
  set (kept := List.filter (near lat lon min_delta) (list_prod lats lons)).
  exists fuel, (list_to_set (map key_of kept)), (key_of (lat, lon)).
  split; [| split; [| split]].
  - intros fuel' Hle. unfold makeNearbyKeys, nearbyCoordinates.
    rewrite (Hrun fuel' Hle). fold kept.
    rewrite (mapM_Ret _ key_of); [reflexivity |].
    intros [latnew lonnew] _. apply Hkey.
  - apply Hkey.
  - apply elem_of_list_to_set. apply list_elem_of_In. apply in_map.
    apply filter_In. split.
    + apply in_prod; assumption.
    + apply near_exact.
      replace ((lat - lat) * (lat - lat) + (lon - lon) * (lon - lon))%R
        with 0%R by ring.
      rewrite sqrt_0. exact Hmin.
  - intros key Hin. apply elem_of_list_to_set in Hin.
    apply list_elem_of_In in Hin. apply in_map_iff in Hin.
    destruct Hin as ([latnew lonnew] & Hk & Hkept).
    apply filter_In in Hkept. destruct Hkept as [_ Hnear].
    exists latnew, lonnew. split.
    + rewrite Hkey. rewrite Hk. reflexivity.
    + apply near_exact. exact Hnear.
Qed.

(** The scenario of the specification: the query (49.0, -123.0) with
    deltas 0.02 and 0.03, grid size 0.01 and radius 0.013. *)
Lemma makeNearbyKeys_own_cell_within_radius_witness :
  let lat := 49%R in
  let lon := (-123)%R in
  let grid_size := (1 / 100)%R in
  let min_delta := (13 / 1000)%R in
  grid_size ≠ 0%R ∧ (0 < min_delta)%R
  ∧ ∃ fuel keys own,
      (∀ fuel', (fuel ≤ fuel')%nat →
         makeNearbyKeys Real.log10 Real.trunc Real.round Real.str_whole
           F64.str_int fuel' lat lon (2 / 100)%R (3 / 100)%R grid_size min_delta
         = Some (Ret keys))
      ∧ spatialKey Real.log10 Real.trunc Real.round Real.str_whole F64.str_int
          lon lat grid_size false = Ret own
      ∧ own ∈ keys
      ∧ ∀ key, key ∈ keys →
          ∃ latnew lonnew,
            spatialKey Real.log10 Real.trunc Real.round Real.str_whole
              F64.str_int lonnew latnew grid_size false = Ret key
            ∧ (sqrt ((latnew - lat) * (latnew - lat)
                     + (lonnew - lon) * (lonnew - lon)) < min_delta)%R.
Proof.
  intros lat lon grid_size min_delta.
  split; [unfold grid_size; lra |]. split; [unfold min_delta; lra |].
  apply (makeNearbyKeys_own_cell_within_radius Real.log10 Real.trunc Real.round
           Real.str_whole F64.str_int lat lon (2 / 100)%R (3 / 100)%R
           grid_size min_delta).
  - unfold grid_size; lra.
  - unfold min_delta; lra.
Defined.

(** The same scenario run on binary64 floats: the walk ends within four
    steps a side, the query coordinate is among the candidates kept, and
    every candidate kept passes the radius test. *)
Example nearbyCoordinates_scenario_binary64 :
  match (nearbyCoordinates 4%nat 49 (-123) 0.02 0.03 0.01 0.013)%float with
  | Some kept =>
      existsb (λ pair, PrimFloat.eqb (fst pair) 49 && PrimFloat.eqb (snd pair) (-123))
        kept
      && forallb (near 49 (-123) 0.013)%float kept
      && forallb (λ pair,
           PrimFloat.ltb (PrimFloat.abs (fst pair - 49)) 0.011
           && PrimFloat.ltb (PrimFloat.abs (snd pair - -123)) 0.011)%float kept
  | None => false
  end = true.
Proof. vm_compute. reflexivity. Qed.

(** C3 (counterexample).  On binary64 floats.  With the latitude NaN
    every comparison with a candidate's offset is false and the returned
    set is empty: the key of the query coordinate is not in it.  With the
    query (0, 0), grid size and maximal offsets [1e-200] and [min_delta =
    1e-250], the squares of the offsets underflow to zero, every
    candidate passes the test [delta_total < min_delta], and the candidate
    [(1e-200, 1e-200)], whose offsets are above [min_delta], is kept. *)
Lemma makeNearbyKeys_binary64_radius_test_fails :
  makeNearbyKeys F64.small_log10 F64.trunc F64.round_tens F64.str_integral
    F64.str_int 8%nat nan (-123)%float 0.02%float 0.03%float 0.01%float
    0.013%float = Some (Ret ∅)
  ∧ PrimFloat.ltb 0 0.013 = true
  ∧ match (nearbyCoordinates 2%nat 0 0 1e-200 1e-200 1e-200 1e-250)%float with
    | Some kept =>
        existsb (λ pair, PrimFloat.eqb (fst pair) 1e-200
                         && PrimFloat.eqb (snd pair) 1e-200) kept
        && PrimFloat.ltb 0 1e-250
        && PrimFloat.ltb 1e-250 (PrimFloat.abs (1e-200 - 0))
    | None => false
    end = true.
Proof.
  split; [| split; vm_compute; reflexivity].
  unfold makeNearbyKeys.
  assert (Hkept : (nearbyCoordinates 8%nat nan (-123) 0.02 0.03 0.01 0.013)%float
                  = Some []) by (vm_compute; reflexivity).
  rewrite Hkept. reflexivity.
Qed.

(** ** C4: extendLinesToIntersect *)

Lemma point_eta {N : Type} (p : Point N) : mkPoint (X p) (Y p) = p.
Proof. destruct p. reflexivity. Qed.

Lemma Forall2_map_self {A B : Type} (P : A → B → Prop) (f : A → B) (l : list A) :
  (∀ x, P x (f x)) → Forall2 P l (map f l).
Proof. intros HP. induction l; constructor; auto. Qed.

(** The first cursor keeps the object id and, with a direction other
    than ['OPPOSITE'], the first point of the line; with ['OPPOSITE'] the
    extended line starts at the last point of a two-point line, and a
    longer line is left as it is. *)
Lemma extend_rows_first_point {N : Type} `{PyNum N}
    (atan2 : N → N → N) (sin cos : N → N)
    (lineFC : list (nat * Polyline N)) (maxDistance : N) (direction : string) :
  Forall2 (λ line row,
      fst row = fst line
      ∧ (String.eqb direction "OPPOSITE" = false →
         firstPoint (snd row) = firstPoint (snd line))
      ∧ (String.eqb direction "OPPOSITE" = true →
         (pointCount (snd line) = 2%nat
          ∧ firstPoint (snd row) = lastPoint (snd line))
         ∨ ((2 < pointCount (snd line))%nat ∧ snd row = snd line)))
    lineFC (extend_rows atan2 sin cos lineFC maxDistance direction).
Proof.
  unfold extend_rows. apply Forall2_map_self. intros [oid geom].
  unfold extendLineAlongAzimuth, flipLineSegment.
  destruct (String.eqb direction "OPPOSITE") eqn:Hdir.
  - destruct (Nat.ltb_spec 2 (pointCount geom)) as [Hlong | Hshort]; cbn.
    + split; [reflexivity |]. split; [discriminate |]. intros _. right. done.
    + split; [reflexivity |]. split; [discriminate |]. intros _. left.
      split; [unfold pointCount in *; lia | apply point_eta].
  - cbn. split; [reflexivity |]. split; [| discriminate].
    intros _. apply point_eta.
Qed.

Section Nearest.

Variable distanceTo : Point R → Point R → R.
Variable geom_length : Polyline R → R.

(** The loop from any state [(c0, d0)]: either no point of the list is
    strictly below [d0] and the state is unchanged, or the state ends on
    the first point of least distance, which is strictly below [d0]. *)
Lemma closest_loop_from (first : Point R) (l : list (Point R)) :
  ∀ c0 d0,
    let result :=
      fold_left (λ '(closestIntersection, minDistance) inter,
        let distance := distanceTo first inter in
        if nlt distance minDistance then (Some inter, distance)
        else (closestIntersection, minDistance)) l (c0, d0) in
    (result = (c0, d0) ∧ ∀ p, In p l → (d0 <= distanceTo first p)%R)
    ∨ (∃ l1 q l2,
         l = l1 ++ q :: l2
         ∧ result = (Some q, distanceTo first q)
         ∧ (distanceTo first q < d0)%R
         ∧ (∀ p, In p l1 → (distanceTo first q < distanceTo first p)%R)
         ∧ (∀ p, In p l2 → (distanceTo first q <= distanceTo first p)%R)).
Proof.
  induction l as [| a l IH]; intros c0 d0; cbn [fold_left].
  - left. split; [reflexivity | intros p []].
  - change (nlt ?x ?y) with (Real.ltb x y).
    destruct (Real.ltb (distanceTo first a) d0) eqn:Hlt.
    + apply Real_ltb_true in Hlt.
      destruct (IH (Some a) (distanceTo first a))
        as [[Hres Hall] | (l1 & q & l2 & -> & Hres & Hq & Hl1 & Hl2)].
      * right. exists [], a, l. repeat split; try done.
      * right. exists (a :: l1), q, l2. repeat split; try done.
        -- lra.
        -- intros p [<- | Hp]; [exact Hq | apply Hl1; exact Hp].
    + apply Real_ltb_false in Hlt.
      destruct (IH c0 d0)
        as [[Hres Hall] | (l1 & q & l2 & -> & Hres & Hq & Hl1 & Hl2)].
      * left. split; [exact Hres |].
        intros p [<- | Hp]; [exact Hlt | apply Hall; exact Hp].
      * right. exists (a :: l1), q, l2. repeat split; try done.
        intros p [<- | Hp]; [lra | apply Hl1; exact Hp].
Qed.

Lemma closest_loop_spec (first : Point R) (l : list (Point R)) (d0 : R) :
  (closest_loop distanceTo first l d0 = (None, d0)
   ∧ ∀ p, In p l → (d0 <= distanceTo first p)%R)
  ∨ (∃ l1 q l2,
       l = l1 ++ q :: l2
       ∧ closest_loop distanceTo first l d0 = (Some q, distanceTo first q)
       ∧ (distanceTo first q < d0)%R
       ∧ (∀ p, In p l1 → (distanceTo first q < distanceTo first p)%R)
       ∧ (∀ p, In p l2 → (distanceTo first q <= distanceTo first p)%R)).
Proof. exact (closest_loop_from first l None d0). Qed.

Lemma nearest_row_cases (table : gmap nat (list (Point R)))
    (maxDistance : R) (direction : string) (row : nat * Polyline R) :
  nearest_row_outcome distanceTo geom_length table maxDistance direction row
    (nearest_row distanceTo geom_length table maxDistance direction row).
Proof.
  destruct row as [oid geom]. unfold nearest_row_outcome, nearest_row.
  cbn [fst snd].
  destruct (table !! oid) as [[| a l] |] eqn:Htable.
  - split; [reflexivity |]. left. split; [reflexivity |].
    intros inters p Hi Hp. inversion Hi; subst inters. destruct Hp.
  - change (nadd maxDistance (geom_length geom))
      with (maxDistance + geom_length geom)%R.
    destruct (closest_loop_spec (firstPoint geom) (a :: l)
                (maxDistance + geom_length geom)%R)
      as [[Hres Hall] | (l1 & q & l2 & Hl & Hres & Hq & Hl1 & Hl2)];
      rewrite Hres; cbn [fst snd].
    + split; [reflexivity |]. left. split; [reflexivity |].
      intros inters p Hi Hp. inversion Hi; subst inters. apply Hall. exact Hp.
    + split; [reflexivity |]. right.
      exists (a :: l), l1, q, l2. rewrite !point_eta. done.
  - split; [reflexivity |]. left. split; [reflexivity |].
    intros inters p Hi. discriminate.
Qed.

End Nearest.

(** C4 (counterexample).  The line (0,0)-(0,10) is extended by
    [maxDistance = 5] to (0,15); the vendor tool reports that the extended
    line meets the target at (0,12).  The line is replaced by the segment
    (0,0)-(0,12) although that point lies 12 away from the original start
    point, more than [maxDistance]: the bound the code applies is
    [maxDistance] plus the length of the extended line, here 20. *)
Lemma extendLinesToIntersect_beyond_maxDistance :
  let lineFC := [(1%nat, fsegment 0 0 0 10)] in
  let reported := λ (_ : list (nat * Polyline float)) (_ : unit),
                    [([fpoint 0 12], 1%nat)] in
  extendLinesToIntersect F64.small_atan2 F64.small_sin F64.small_cos
    unit reported planar_distance planar_length lineFC tt 5%float "AZIMUTH"
  = [(1%nat, Line (fsegment 0 0 0 12))]
  ∧ planar_distance (fpoint 0 0) (fpoint 0 12) = 12%float
  ∧ nlt 5%float (planar_distance (fpoint 0 0) (fpoint 0 12)) = true
  ∧ nadd 5%float (planar_length (fsegment 0 0 0 15)) = 20%float.
Proof. repeat split; vm_compute; reflexivity. Qed.

(** A line whose extension meets nothing: the row written by the first
    cursor stays, so the line comes out extended by [maxDistance]. *)
Example extendLinesToIntersect_no_intersection :
  let lineFC := [(1%nat, fsegment 0 0 0 10)] in
  let reported := λ (_ : list (nat * Polyline float)) (_ : unit), [] in
  extendLinesToIntersect F64.small_atan2 F64.small_sin F64.small_cos
    unit reported planar_distance planar_length lineFC tt 5%float "AZIMUTH"
  = [(1%nat, Line (fsegment 0 0 0 15))].
Proof. vm_compute. reflexivity. Qed.

(** Two intersections at the same distance: the first one reported is
    kept. *)
Example extendLinesToIntersect_tie :
  let lineFC := [(1%nat, fsegment 0 0 0 10)] in
  let reported := λ (_ : list (nat * Polyline float)) (_ : unit),
                    [([fpoint 3 4; fpoint 4 3], 1%nat); ([fpoint 0 5], 1%nat)] in
  extendLinesToIntersect F64.small_atan2 F64.small_sin F64.small_cos
    unit reported planar_distance planar_length lineFC tt 5%float "AZIMUTH"
  = [(1%nat, Line (fsegment 0 0 3 4))].
Proof. vm_compute. reflexivity. Qed.

(** C4 (amended).  In exact arithmetic, for every row of the extended
    feature class: the row is replaced by a two-point segment that joins
    the first point of its line and an intersection point (from the first
    point to the intersection with direction ['AZIMUTH'], from the
    intersection to the first point with ['OPPOSITE']) exactly when some
    intersection recorded for the row lies strictly closer to that first
    point than [maxDistance] plus the length of the row's line; the
    intersection chosen is then the closest one, and among equally close
    ones the first recorded; otherwise the third cursor leaves the row as
    it found it.  The first point of the row's line is that of the input
    line, except with ['OPPOSITE'] on a two-point input line, where it is
    the last point of that line; with ['OPPOSITE'] a line of more than two
    points is not extended, and its row is the input line. *)
Theorem extendLinesToIntersect_nearest_in_reach
    (atan2 : R → R → R) (sin cos : R → R) (IntersectFC : Type)
    (Intersect_analysis :
       list (nat * Polyline R) → IntersectFC → list (list (Point R) * nat))
    (distanceTo : Point R → Point R → R) (geom_length : Polyline R → R)
    (lineFC : list (nat * Polyline R)) (intersectFC : IntersectFC)
    (maxDistance : R) (direction : string) :
  let extended := extend_rows atan2 sin cos lineFC maxDistance direction in
  let table := index_intersections (Intersect_analysis extended intersectFC) in
  Forall2 (nearest_row_outcome distanceTo geom_length table maxDistance direction)
    extended
    (extendLinesToIntersect atan2 sin cos IntersectFC Intersect_analysis
       distanceTo geom_length lineFC intersectFC maxDistance direction)
  ∧ Forall2 (λ line row,
        fst row = fst line
        ∧ (String.eqb direction "OPPOSITE" = false →
           firstPoint (snd row) = firstPoint (snd line))
        ∧ (String.eqb direction "OPPOSITE" = true →
           (pointCount (snd line) = 2%nat
            ∧ firstPoint (snd row) = lastPoint (snd line))
           ∨ ((2 < pointCount (snd line))%nat ∧ snd row = snd line)))
      lineFC extended.
Proof.
  intros extended table. split.
  - unfold extendLinesToIntersect. fold extended. fold table.
    apply Forall2_map_self. intros row. apply nearest_row_cases.
  - apply extend_rows_first_point.
Qed.

(** ** C5: splitRectangle *)

Ltac sort_step :=
  repeat (progress (cbn [fold_left insert_sorted nlt neq R_PyNum length drop
                         Nat.sub existsb orb];
                    repeat match goal with
                    | H : Real.ltb _ _ = _ |- _ => rewrite H
                    | H : Real.eqb _ _ = _ |- _ => rewrite H
                    end)).

(** Edge lengths [a, b, a, b]: the first edge is among the two longest
    exactly when [b <= a]. *)
Lemma first_edge_long (a b : R) :
  (b <= a)%R →
  py_in a (drop (length (sorted [a; b; a; b]) - 2) (sorted [a; b; a; b])) = true.
Proof.
  intros Hle. unfold sorted, py_in.
  assert (Haa : Real.ltb a a = false) by (apply Real_ltb_false; lra).
  assert (Hbb : Real.ltb b b = false) by (apply Real_ltb_false; lra).
  assert (Hab : Real.ltb a b = false) by (apply Real_ltb_false; lra).
  assert (Eaa : Real.eqb a a = true) by (apply Real_eqb_true; reflexivity).
  destruct (Rlt_dec b a) as [Hlt | Hge].
  - assert (Hba : Real.ltb b a = true) by (apply Real_ltb_true; lra).
    sort_step. reflexivity.
  - assert (Hba : Real.ltb b a = false) by (apply Real_ltb_false; lra).
    sort_step. reflexivity.
Qed.

Lemma first_edge_short (a b : R) :
  (a < b)%R →
  py_in a (drop (length (sorted [a; b; a; b]) - 2) (sorted [a; b; a; b])) = false.
Proof.
  intros Hlt. unfold sorted, py_in.
  assert (Haa : Real.ltb a a = false) by (apply Real_ltb_false; lra).
  assert (Hbb : Real.ltb b b = false) by (apply Real_ltb_false; lra).
  assert (Hab : Real.ltb a b = true) by (apply Real_ltb_true; lra).
  assert (Hba : Real.ltb b a = false) by (apply Real_ltb_false; lra).
  assert (Eab : Real.eqb a b = false) by (apply Real_eqb_false; lra).
  sort_step. reflexivity.
Qed.

(** In exact arithmetic [math.pow] does not overflow: [dist] returns the
    Euclidean distance. *)
Lemma dist_exact (p q : Point R) :
  dist p q
  = Ret (sqrt ((X q - X p) * (X q - X p) + (Y q - Y p) * (Y q - Y p))).
Proof. reflexivity. Qed.

Lemma dist_planar (p q : Point R) : dist p q = Ret (planar_distance p q).
Proof. reflexivity. Qed.

(** The cut of a ring whose opposite edges are equal. *)
Lemma splitRectangle_cut (p1 p2 p3 p4 : Point R) (a b : R) :
  dist p1 p2 = Ret a → dist p3 p4 = Ret a →
  dist p2 p3 = Ret b → dist p4 p1 = Ret b →
  ((b <= a)%R →
   splitRectangle [p1; p2; p3; p4; p1]
   = Ret [[p1; midpoint p1 p2; midpoint p3 p4; p4; p1];
          [midpoint p1 p2; p2; p3; midpoint p3 p4; midpoint p1 p2]])
  ∧ ((a < b)%R →
     splitRectangle [p1; p2; p3; p4; p1]
     = Ret [[p2; midpoint p2 p3; midpoint p4 p1; p1; p2];
            [midpoint p2 p3; p3; p4; midpoint p4 p1; midpoint p2 p3]]).
Proof.
  intros H12 H34 H23 H41. unfold splitRectangle. cbv zeta.
  cbn [build_edges mapM edge_length lookup list_lookup fst snd].
  rewrite H12, H23, H34, H41.
  cbn [bind fst snd e_longEdge e_from e_midpoint].
  split; intros Hcmp.
  - rewrite (first_edge_long _ _ Hcmp). reflexivity.
  - rewrite (first_edge_short _ _ Hcmp). reflexivity.
Qed.

(** The two halves of any ring of five points have the shoelace sum of
    the ring: the cut neither adds nor loses area. *)
Lemma splitRectangle_area (p1 p2 p3 p4 : Point R) r1 r2 :
  splitRectangle [p1; p2; p3; p4; p1] = Ret [r1; r2] →
  (shoelace r1 + shoelace r2 = shoelace [p1; p2; p3; p4; p1])%R.
Proof.
  unfold splitRectangle. cbv zeta.
  cbn [build_edges mapM edge_length lookup list_lookup fst snd].
  rewrite !dist_exact.
  cbn [bind fst snd e_longEdge e_from e_midpoint].
  destruct (py_in _ _); cbn [negb]; intros Hrun; inversion Hrun; subst r1 r2;
    destruct p1, p2, p3, p4; cbn; lra.
Qed.

(** C5 (amended).  In exact arithmetic, for every ring of four vertices,
    closed by the first, whose opposite edges have equal lengths [a] and
    [b] (a rectangle), [splitRectangle] returns two quadrilaterals cut
    along the segment that joins the midpoints of the two longest edges:
    the first and third edge when the first is at least as long as the
    second, the second and fourth otherwise.  The shoelace sums of the two
    halves add up to that of the ring. *)
Theorem splitRectangle_bisects_rectangle (p1 p2 p3 p4 : Point R) (a b : R) :
  dist p1 p2 = Ret a → dist p3 p4 = Ret a →
  dist p2 p3 = Ret b → dist p4 p1 = Ret b →
  ((b <= a)%R →
   splitRectangle [p1; p2; p3; p4; p1]
   = Ret [[p1; midpoint p1 p2; midpoint p3 p4; p4; p1];
          [midpoint p1 p2; p2; p3; midpoint p3 p4; midpoint p1 p2]])
  ∧ ((a < b)%R →
     splitRectangle [p1; p2; p3; p4; p1]
     = Ret [[p2; midpoint p2 p3; midpoint p4 p1; p1; p2];
            [midpoint p2 p3; p3; p4; midpoint p4 p1; midpoint p2 p3]])
  ∧ (∀ r1 r2, splitRectangle [p1; p2; p3; p4; p1] = Ret [r1; r2] →
       (shoelace r1 + shoelace r2 = shoelace [p1; p2; p3; p4; p1])%R).
Proof.
  intros H12 H34 H23 H41.
  destruct (splitRectangle_cut p1 p2 p3 p4 a b H12 H34 H23 H41) as [Hlong Hshort].
  split; [exact Hlong |]. split; [exact Hshort |].
  intros r1 r2. apply splitRectangle_area.
Qed.

(** The 10 by 4 rectangle, in exact arithmetic. *)
Lemma splitRectangle_bisects_rectangle_witness :
  let p1 := mkPoint 0%R 0%R in
  let p2 := mkPoint 10%R 0%R in
  let p3 := mkPoint 10%R 4%R in
  let p4 := mkPoint 0%R 4%R in
  dist p1 p2 = Ret 10%R
  ∧ dist p3 p4 = Ret 10%R
  ∧ dist p2 p3 = Ret 4%R
  ∧ dist p4 p1 = Ret 4%R
  ∧ splitRectangle [p1; p2; p3; p4; p1]
    = Ret [[p1; midpoint p1 p2; midpoint p3 p4; p4; p1];
           [midpoint p1 p2; p2; p3; midpoint p3 p4; midpoint p1 p2]]
  ∧ midpoint p1 p2 = mkPoint 5%R 0%R
  ∧ midpoint p3 p4 = mkPoint 5%R 4%R.
Proof.
  intros p1 p2 p3 p4.
  assert (Hside : ∀ (p q : Point R) (d : R),
            (0 <= d)%R →
            (d * d = (X q - X p) * (X q - X p) + (Y q - Y p) * (Y q - Y p))%R →
            dist p q = Ret d).
  { intros p q d Hd Hsq. rewrite dist_exact. f_equal.
    apply sqrt_lem_1; [rewrite <- Hsq; nra | exact Hd | exact Hsq]. }
  assert (H12 : dist p1 p2 = Ret 10%R) by (apply Hside; simpl; lra).
  assert (H34 : dist p3 p4 = Ret 10%R) by (apply Hside; simpl; lra).
  assert (H23 : dist p2 p3 = Ret 4%R) by (apply Hside; simpl; lra).
  assert (H41 : dist p4 p1 = Ret 4%R) by (apply Hside; simpl; lra).
  split; [exact H12 |]. split; [exact H34 |].
  split; [exact H23 |]. split; [exact H41 |].
  split.
  - apply (splitRectangle_bisects_rectangle p1 p2 p3 p4 10%R 4%R H12 H34 H23 H41).
    lra.
  - split; unfold midpoint, midpointFractional; cbn; f_equal; lra.
Defined.

(** C5 (counterexample).  On binary64 floats the rectangle of sides
    [1e200] and 1 is a closed ring of four finite vertices, and is not
    bisected: the square of its long side is beyond the binary64 range,
    [math.pow] raises [OverflowError] in [dist], and [splitRectangle]
    ends with that error. *)
Lemma splitRectangle_overflows_on_binary64 :
  let ring := [fpoint 0 0; fpoint 1e200 0; fpoint 1e200 1; fpoint 0 1;
               fpoint 0 0] in
  forallb (λ p, PrimFloat.is_finite (X p) && PrimFloat.is_finite (Y p)) ring
  = true
  ∧ dist (fpoint 0 0) (fpoint 1e200 0) = Raise OverflowError
  ∧ splitRectangle ring = Raise OverflowError.
Proof. repeat split; vm_compute; reflexivity. Qed.

(** The 10 by 4 rectangle on binary64 floats: two 5 by 4 rectangles, of
    area 20 each, the rectangle having area 40. *)
Example splitRectangle_10_by_4 :
  let ring := [fpoint 0 0; fpoint 10 0; fpoint 10 4; fpoint 0 4; fpoint 0 0] in
  let halfA := [fpoint 0 0; fpoint 5 0; fpoint 5 4; fpoint 0 4; fpoint 0 0] in
  let halfB := [fpoint 5 0; fpoint 10 0; fpoint 10 4; fpoint 5 4; fpoint 5 0] in
  splitRectangle ring = Ret [halfA; halfB]
  ∧ (shoelace halfA / 2 = 20
     ∧ shoelace halfB / 2 = 20
     ∧ shoelace ring / 2 = 40)%float.
Proof. repeat split; vm_compute; reflexivity. Qed.

(** The same rectangle listed from a short edge: the edges are renumbered
    and the cut is the same. *)
Example splitRectangle_4_by_10 :
  splitRectangle [fpoint 0 0; fpoint 0 4; fpoint 10 4; fpoint 10 0; fpoint 0 0]
  = Ret [[fpoint 0 4; fpoint 5 4; fpoint 5 0; fpoint 0 0; fpoint 0 4];
         [fpoint 5 4; fpoint 10 4; fpoint 10 0; fpoint 5 0; fpoint 5 4]].
Proof. vm_compute. reflexivity. Qed.

(** A ring without its closing vertex has no fourth edge. *)
Example splitRectangle_open_ring :
  splitRectangle [fpoint 0 0; fpoint 10 0; fpoint 10 4; fpoint 0 4]
  = Raise KeyError.
Proof. vm_compute. reflexivity. Qed.

(** ** C6, C7: polygonReduction *)

Section Reduce.

Context {N : Type} `{PyNum N} {FC BasePts : Type}.
Variable MinimumBoundingGeometry : FC → list (N * N * list (Point N)).
Variable clip_and_select : FC → list (list (Point N)) → BasePts → FC.

Local Abbreviation body :=
  (polygonReduction_body FC BasePts MinimumBoundingGeometry clip_and_select).
Local Abbreviation reduce :=
  (polygonReduction FC BasePts MinimumBoundingGeometry clip_and_select).

Lemma polygonReduction_accept fuel fc reductionRatio basePts :
  body fc reductionRatio basePts = Accept fc →
  reduce (S fuel) fc reductionRatio basePts = Some (Ret fc).
Proof. intros Hbody. simpl. rewrite Hbody. reflexivity. Qed.

Lemma polygonReduction_split fuel fc fcCut reductionRatio basePts :
  body fc reductionRatio basePts = Split fcCut →
  reduce (S fuel) fc reductionRatio basePts
  = reduce fuel fcCut reductionRatio basePts.
Proof. intros Hbody. simpl. rewrite Hbody. reflexivity. Qed.

(** The activation of a polygon whose ratio is below the threshold. *)
Lemma polygonReduction_body_below fc reductionRatio basePts width length :
  read_width_length (MinimumBoundingGeometry fc) = (width, length) →
  neq width (of_Z 0) = false →
  nlt (ndiv length width) reductionRatio = true →
  body fc reductionRatio basePts = Accept fc.
Proof.
  intros Hread Hwidth Hratio. unfold polygonReduction_body.
  rewrite Hread, Hwidth, Hratio. reflexivity.
Qed.

(** The activation of a polygon whose ratio is not below the threshold. *)
Lemma polygonReduction_body_not_below fc reductionRatio basePts width length
    rect0 rects :
  read_width_length (MinimumBoundingGeometry fc) = (width, length) →
  neq width (of_Z 0) = false →
  nlt (ndiv length width) reductionRatio = false →
  head (map snd (MinimumBoundingGeometry fc)) = Some rect0 →
  splitRectangle rect0 = Ret rects →
  body fc reductionRatio basePts = Split (clip_and_select fc rects basePts).
Proof.
  intros Hread Hwidth Hratio Hrect Hsplit. unfold polygonReduction_body.
  rewrite Hread, Hwidth, Hratio.
  destruct (map snd (MinimumBoundingGeometry fc)) as [| r rest]; [discriminate |].
  simpl in Hrect. inversion Hrect; subst r. rewrite Hsplit. reflexivity.
Qed.

(** C6.  A polygon whose bounding rectangle has a length-to-width ratio
    strictly below [reductionRatio] is accepted by the first activation:
    the function returns the feature class it was given, at any depth
    allowance, and the branch that splits is not entered. *)
Theorem polygonReduction_below_ratio_unchanged
    fc reductionRatio basePts width length :
  read_width_length (MinimumBoundingGeometry fc) = (width, length) →
  neq width (of_Z 0) = false →
  nlt (ndiv length width) reductionRatio = true →
  body fc reductionRatio basePts = Accept fc
  ∧ ∀ fuel, reduce (S fuel) fc reductionRatio basePts = Some (Ret fc).
Proof.
  intros Hread Hwidth Hratio.
  pose proof (polygonReduction_body_below fc reductionRatio basePts width length
                Hread Hwidth Hratio) as Hbody.
  split; [exact Hbody |].
  intros fuel. apply polygonReduction_accept. exact Hbody.
Qed.

(** A chain of feature classes, each the kept half of the one before:
    as long as it splits the recursion goes on. *)
Lemma polygonReduction_follows_chain (chain : nat → FC) reductionRatio basePts k :
  (∀ n, (n < k)%nat →
        body (chain n) reductionRatio basePts = Split (chain (S n))) →
  ∀ fuel start, (start + fuel ≤ k)%nat →
    reduce fuel (chain start) reductionRatio basePts = None.
Proof.
  intros Hsplit fuel. induction fuel as [| fuel IH]; intros start Hle.
  - reflexivity.
  - rewrite (polygonReduction_split fuel (chain start) (chain (S start)))
      by (apply Hsplit; lia).
    apply IH. lia.
Qed.

Lemma polygonReduction_reaches (chain : nat → FC) reductionRatio basePts k :
  (∀ n, (n < k)%nat →
        body (chain n) reductionRatio basePts = Split (chain (S n))) →
  body (chain k) reductionRatio basePts = Accept (chain k) →
  ∀ fuel start, (start ≤ k)%nat → (k < start + fuel)%nat →
    reduce fuel (chain start) reductionRatio basePts = Some (Ret (chain k)).
Proof.
  intros Hsplit Haccept fuel.
  induction fuel as [| fuel IH]; intros start Hle Hlt; [lia |].
  destruct (decide (start = k)) as [-> | Hne].
  - apply polygonReduction_accept. exact Haccept.
  - rewrite (polygonReduction_split fuel (chain start) (chain (S start)))
      by (apply Hsplit; lia).
    apply IH; lia.
Qed.

(** C7.  The recursion has no cap of its own.  (1) Whenever the ratio is
    not below [reductionRatio] (and the rectangle can be read and split)
    an activation recurses on the kept half, whatever the depth reached.
    (2) Along a chain of kept halves that splits [k] times and is then
    accepted, the function returns after exactly [k] recursive calls: an
    allowance of [k] calls or fewer does not reach the result.  (3) Along
    a chain whose ratio never falls below the threshold no allowance
    suffices: the function does not return. *)
Theorem polygonReduction_no_recursion_cap reductionRatio basePts :
  (∀ fc width length rect0 rects fuel,
     read_width_length (MinimumBoundingGeometry fc) = (width, length) →
     neq width (of_Z 0) = false →
     nlt (ndiv length width) reductionRatio = false →
     head (map snd (MinimumBoundingGeometry fc)) = Some rect0 →
     splitRectangle rect0 = Ret rects →
     reduce (S fuel) fc reductionRatio basePts
     = reduce fuel (clip_and_select fc rects basePts) reductionRatio basePts)
  ∧ (∀ (chain : nat → FC) k,
       (∀ n, (n < k)%nat →
             body (chain n) reductionRatio basePts = Split (chain (S n))) →
       body (chain k) reductionRatio basePts = Accept (chain k) →
       ∀ fuel,
         ((k < fuel)%nat →
          reduce fuel (chain 0%nat) reductionRatio basePts = Some (Ret (chain k)))
         ∧ ((fuel ≤ k)%nat →
            reduce fuel (chain 0%nat) reductionRatio basePts = None))
  ∧ (∀ (chain : nat → FC),
       (∀ n, body (chain n) reductionRatio basePts = Split (chain (S n))) →
       ∀ fuel, reduce fuel (chain 0%nat) reductionRatio basePts = None).
Proof.
  split; [| split].
  - intros fc width length rect0 rects fuel Hread Hwidth Hratio Hrect Hsplit.
    apply polygonReduction_split.
    eapply polygonReduction_body_not_below; eauto.
  - intros chain k Hsplit Haccept fuel. split; intros Hfuel.
    + apply (polygonReduction_reaches chain reductionRatio basePts k Hsplit Haccept);
        lia.
    + apply (polygonReduction_follows_chain chain reductionRatio basePts k Hsplit);
        lia.
  - intros chain Hsplit fuel.
    apply (polygonReduction_follows_chain chain reductionRatio basePts fuel); [| lia].
    intros n _. apply Hsplit.
Qed.

End Reduce.

(** The 1 by 1 square with [reductionRatio = 2], on binary64 floats. *)
Lemma polygonReduction_below_ratio_unchanged_witness :
  read_width_length (Demo.rectangle_mbg Demo.unit_square) = (1, 1)%float
  ∧ neq 1%float (of_Z 0) = false
  ∧ nlt (ndiv 1 1)%float 2%float = true
  ∧ polygonReduction_body _ _ Demo.rectangle_mbg Demo.keep_first_half
      Demo.unit_square 2%float tt = Accept Demo.unit_square
  ∧ ∀ fuel,
      polygonReduction _ _ Demo.rectangle_mbg Demo.keep_first_half
        (S fuel) Demo.unit_square 2%float tt = Some (Ret Demo.unit_square).
Proof.
  split; [vm_compute; reflexivity |].
  split; [vm_compute; reflexivity |].
  split; [vm_compute; reflexivity |].
  apply (polygonReduction_below_ratio_unchanged Demo.rectangle_mbg
           Demo.keep_first_half Demo.unit_square 2%float tt 1%float 1%float);
    vm_compute; reflexivity.
Defined.

(** With [reductionRatio = 1] no rectangle is ever accepted (its length is
    at least its width): a square whose selection step gives the polygon
    back is split again and again. *)
Lemma polygonReduction_no_recursion_cap_witness :
  (∀ n : nat,
     polygonReduction_body _ _ Demo.rectangle_mbg Demo.keep_all
       Demo.unit_square 1%float tt = Split Demo.unit_square)
  ∧ ∀ fuel,
      polygonReduction _ _ Demo.rectangle_mbg Demo.keep_all
        fuel Demo.unit_square 1%float tt = None.
Proof.
  split; [intros n; vm_compute; reflexivity |].
  apply (proj2 (proj2 (polygonReduction_no_recursion_cap Demo.rectangle_mbg
                         Demo.keep_all 1%float tt)) (λ _, Demo.unit_square)).
  intros n. vm_compute. reflexivity.
Defined.

(** The 8 by 1 rectangle with [reductionRatio = 1], each call keeping the
    first half.  The halves shrink around one point; 112 nested calls are
    still splitting, and the next one finds a rectangle whose width has
    rounded to zero and fails in the division. *)
Example polygonReduction_8_by_1_runs_on :
  polygonReduction _ _ Demo.rectangle_mbg Demo.keep_first_half
    112 Demo.rectangle_8_by_1 1%float tt = None
  ∧ polygonReduction _ _ Demo.rectangle_mbg Demo.keep_first_half
      113 Demo.rectangle_8_by_1 1%float tt = Some (Raise ZeroDivisionError).
Proof. split; vm_compute; reflexivity. Qed.

(** The same rectangle with [reductionRatio = 3]: two splits, and the 2 by
    1 quarter that holds the base points is returned. *)
Example polygonReduction_8_by_1_ratio_3 :
  polygonReduction _ _ Demo.rectangle_mbg Demo.keep_first_half
    3 Demo.rectangle_8_by_1 3%float tt
  = Some (Ret [fpoint 0 0; fpoint 2 0; fpoint 2 1; fpoint 0 1; fpoint 0 0]).
Proof. vm_compute. reflexivity. Qed.

(** ** C8: getAzimuth *)

(** C8 (counterexample).  The line from (0,0) to (-1e-20, 1) has distinct
    end points and points a hair west of north.  On binary64 floats
    [atan2] gives -1e-20, its product with [180 / pi] is about -5.7e-19,
    and [%] adds 360 to it: the sum rounds to 360.0, which is returned and
    is not below 360. *)
Lemma getAzimuth_returns_360 :
  let geom := fsegment 0 0 (-1e-20) 1 in
  firstPoint geom ≠ lastPoint geom
  ∧ getAzimuth F64.small_atan2 geom = 360%float
  ∧ nlt (getAzimuth F64.small_atan2 geom) 360%float = false.
Proof.
  intros geom. split; [| split].
  - intros Heq.
    assert (Hb : PrimFloat.eqb (X (firstPoint geom)) (X (lastPoint geom)) = true)
      by (rewrite Heq; vm_compute; reflexivity).
    vm_compute in Hb. discriminate.
  - vm_compute. reflexivity.
  - vm_compute. reflexivity.
Qed.

(** In exact arithmetic the azimuth is the angle in degrees reduced into
    [0, 360), for any function in the place of [atan2]. *)
Lemma getAzimuth_exact_range (atan2 : R → R → R) (geom : Polyline R) :
  let deltaX := (X (lastPoint geom) - X (firstPoint geom))%R in
  let deltaY := (Y (lastPoint geom) - Y (firstPoint geom))%R in
  getAzimuth atan2 geom = Real.py_mod (atan2 deltaX deltaY * (180 / PI)) 360
  ∧ (0 <= getAzimuth atan2 geom < 360)%R
  ∧ ∃ k : Z,
      getAzimuth atan2 geom = (atan2 deltaX deltaY * (180 / PI) + 360 * IZR k)%R.
Proof.
  intros deltaX deltaY.
  assert (Heq : getAzimuth atan2 geom
                = Real.py_mod (atan2 deltaX deltaY * (180 / PI)) 360)
    by reflexivity.
  split; [exact Heq |]. rewrite Heq. split.
  - apply Real_py_mod_range. lra.
  - apply Real_py_mod_shift.
Qed.

(** With the real [atan2] the four compass directions come out as 0, 90,
    180 and 270 degrees: the swapped arguments measure the angle from
    north, clockwise. *)
Lemma getAzimuth_compass :
  getAzimuth Real.atan2 (segment (mkPoint 0 0) (mkPoint 0 1))%R = 0%R
  ∧ getAzimuth Real.atan2 (segment (mkPoint 0 0) (mkPoint 1 0))%R = 90%R
  ∧ getAzimuth Real.atan2 (segment (mkPoint 0 0) (mkPoint 0 (-1)))%R = 180%R
  ∧ getAzimuth Real.atan2 (segment (mkPoint 0 0) (mkPoint (-1) 0))%R = 270%R.
Proof.
  assert (Hpi := PI_RGT_0).
  assert (Hmod : ∀ x k, (IZR k * 360 <= x < IZR k * 360 + 360)%R →
                        Real.py_mod x 360 = (x - 360 * IZR k)%R).
  { intros x k Hx. unfold Real.py_mod. f_equal. f_equal. f_equal.
    symmetry. apply Int_part_spec. lra. }
  unfold getAzimuth, degrees, Real.atan2; simpl.
  repeat split.
  - destruct (Rlt_dec 0 (1 - 0)); [| lra].
    replace ((0 - 0) / (1 - 0))%R with 0%R by lra. rewrite atan_0.
    rewrite (Hmod _ 0%Z); lra.
  - destruct (Rlt_dec 0 (0 - 0)); [lra |].
    destruct (Rlt_dec (0 - 0) 0); [lra |].
    destruct (Rlt_dec 0 (1 - 0)); [| lra].
    replace (PI / 2 * (180 / PI))%R with 90%R by (field; lra).
    rewrite (Hmod _ 0%Z); lra.
  - destruct (Rlt_dec 0 (-1 - 0)); [lra |].
    destruct (Rlt_dec (-1 - 0) 0); [| lra].
    destruct (Rle_dec 0 (0 - 0)); [| lra].
    replace ((0 - 0) / (-1 - 0))%R with 0%R by lra. rewrite atan_0.
    replace ((0 + PI) * (180 / PI))%R with 180%R by (field; lra).
    rewrite (Hmod _ 0%Z); lra.
  - destruct (Rlt_dec 0 (0 - 0)); [lra |].
    destruct (Rlt_dec (0 - 0) 0); [lra |].
    destruct (Rlt_dec 0 (-1 - 0)); [lra |].
    destruct (Rlt_dec (-1 - 0) 0); [| lra].
    replace (- PI / 2 * (180 / PI))%R with (-90)%R by (field; lra).
    rewrite (Hmod _ (-1)%Z); lra.
Qed.

(** C8 (amended).  For every polyline [getAzimuth] returns the angle
    [atan2(dx, dy)] (arguments swapped: clockwise from north) in degrees,
    reduced by [% 360]: in exact arithmetic a value of [0, 360) that
    differs from the angle by a multiple of 360; on binary64 floats the
    reduction of a negative angle close to zero rounds to 360.0 itself, as
    for the line from (0,0) to (-1e-20, 1). *)
Theorem getAzimuth_degrees_mod_360 :
  (∀ (atan2 : R → R → R) (geom : Polyline R),
     let deltaX := (X (lastPoint geom) - X (firstPoint geom))%R in
     let deltaY := (Y (lastPoint geom) - Y (firstPoint geom))%R in
     getAzimuth atan2 geom = Real.py_mod (atan2 deltaX deltaY * (180 / PI)) 360
     ∧ (0 <= getAzimuth atan2 geom < 360)%R
     ∧ ∃ k : Z,
         getAzimuth atan2 geom
         = (atan2 deltaX deltaY * (180 / PI) + 360 * IZR k)%R)
  ∧ getAzimuth F64.small_atan2 (fsegment 0 0 (-1e-20) 1) = 360%float.
Proof.
  split.
  - intros atan2 geom. apply getAzimuth_exact_range.
  - vm_compute. reflexivity.
Qed.

(** ** C9: extending a multi-point line in the OPPOSITE direction *)

(** C9.  For every polyline with more than two points,
    [extendLineAlongAzimuth] with direction ['OPPOSITE'] returns the
    sentinel [False]: the azimuth is computed (libm raises nothing), the
    reversal by [flipLineSegment] refuses the line, and the refusal is
    passed on.  No exception is raised. *)
Theorem extendLineAlongAzimuth_opposite_multipoint
    {N : Type} `{PyNum N} (atan2 : N → N → N) (sin cos : N → N)
    (geom : Polyline N) (distance : N) :
  (2 < pointCount geom)%nat →
  flipLineSegment geom = PyFalse
  ∧ extendLineAlongAzimuth atan2 sin cos geom distance "OPPOSITE" = PyFalse.
Proof.
  intros Hcount.
  assert (Hflip : flipLineSegment geom = PyFalse).
  { unfold flipLineSegment.
    destruct (Nat.ltb_spec 2 (pointCount geom)) as [_ | Hle]; [reflexivity | lia]. }
  split; [exact Hflip |].
  unfold extendLineAlongAzimuth. simpl. rewrite Hflip. reflexivity.
Qed.

(** A three-point line on binary64 floats. *)
Lemma extendLineAlongAzimuth_opposite_multipoint_witness :
  let geom := mkPolyline (fpoint 0 0) [fpoint 0 5] (fpoint 3 10) in
  (2 < pointCount geom)%nat
  ∧ flipLineSegment geom = PyFalse
  ∧ extendLineAlongAzimuth F64.small_atan2 F64.small_sin F64.small_cos
      geom 5%float "OPPOSITE" = PyFalse.
Proof.
  intros geom.
  split; [vm_compute; lia |].
  apply (extendLineAlongAzimuth_opposite_multipoint
           F64.small_atan2 F64.small_sin F64.small_cos geom 5%float).
  vm_compute; lia.
Defined.

(** * Further properties of the code *)

(** ** flipLine, flipLineSegment *)

Lemma flipLine_getPart {N : Type} (geom : Polyline N) :
  getPart (flipLine geom) = rev (getPart geom).
Proof.
  destruct geom as [p l q]. unfold flipLine, getPart. simpl.
  rewrite rev_app_distr. reflexivity.
Qed.

Lemma planar_distance_sym (p q : Point R) :
  planar_distance p q = planar_distance q p.
Proof.
  unfold planar_distance. cbn [nadd nsub nmul nsqrt R_PyNum]. f_equal. ring.
Qed.

Lemma path_length_snoc (l : list (Point R)) (p q : Point R) :
  path_length (l ++ [p; q]) = (path_length (l ++ [p]) + planar_distance p q)%R.
Proof.
  induction l as [| a l IH].
  - simpl. cbn [nadd of_Z R_PyNum]. lra.
  - destruct l as [| b l].
    + simpl. cbn [nadd of_Z R_PyNum]. lra.
    + change (path_length ((a :: b :: l) ++ [p; q]))
        with (planar_distance a b + path_length ((b :: l) ++ [p; q]))%R.
      change (path_length ((a :: b :: l) ++ [p]))
        with (planar_distance a b + path_length ((b :: l) ++ [p]))%R.
      rewrite IH. lra.
Qed.

Lemma path_length_rev (l : list (Point R)) :
  path_length (rev l) = path_length l.
Proof.
  induction l as [| a l IH]; [reflexivity |].
  destruct l as [| b l]; [reflexivity |].
  change (rev (a :: b :: l)) with ((rev l ++ [b]) ++ [a]).
  rewrite <- app_assoc. change ([b] ++ [a]) with [b; a].
  rewrite path_length_snoc.
  change (rev l ++ [b]) with (rev (b :: l)). rewrite IH.
  change (path_length (a :: b :: l))
    with (planar_distance a b + path_length (b :: l))%R.
  rewrite (planar_distance_sym b a). lra.
Qed.

(** X1.  [flipLine] reverses the order of the vertices, whatever their
    number, and keeps their count; flipping twice gives the line back.  In
    exact arithmetic the flipped line has the same planar length and is
    closed exactly when the line is. *)
Theorem flipLine_reverses :
  (∀ (N : Type) (geom : Polyline N),
     getPart (flipLine geom) = rev (getPart geom)
     ∧ pointCount (flipLine geom) = pointCount geom
     ∧ flipLine (flipLine geom) = geom)
  ∧ (∀ geom : Polyline R,
       planar_length (flipLine geom) = planar_length geom
       ∧ isPolylineClosed (flipLine geom) = isPolylineClosed geom).
Proof.
  split.
  - intros N geom. split; [apply flipLine_getPart |]. split.
    + unfold pointCount, flipLine. simpl. rewrite length_rev. reflexivity.
    + destruct geom as [p l q]. unfold flipLine. simpl.
      rewrite rev_involutive. reflexivity.
  - intros geom. split.
    + unfold planar_length. rewrite flipLine_getPart. apply path_length_rev.
    + unfold isPolylineClosed, flipLine. simpl.
      cbn [neq R_PyNum]. unfold Real.eqb.
      repeat destruct (Req_dec_T _ _); congruence.
Qed.

(** X2.  On a line of two points [flipLineSegment] is [flipLine], and
    flipping the result again gives the line back. *)
Theorem flipLineSegment_two_points {N : Type} `{PyNum N} (geom : Polyline N) :
  (pointCount geom ≤ 2)%nat →
  flipLineSegment geom = Val (flipLine geom)
  ∧ flipLineSegment (flipLine geom) = Val geom.
Proof.
  intros Hcount. destruct geom as [[x1 y1] l [x2 y2]].
  unfold pointCount in Hcount. simpl in Hcount.
  destruct l as [| a l]; [| simpl in Hcount; lia].
  split; reflexivity.
Qed.

Lemma flipLineSegment_two_points_witness :
  let geom := fsegment 1 2 3 4 in
  (pointCount geom ≤ 2)%nat
  ∧ flipLineSegment geom = Val (flipLine geom)
  ∧ flipLineSegment (flipLine geom) = Val geom.
Proof.
  intros geom.
  split; [vm_compute; lia |].
  apply (flipLineSegment_two_points geom). vm_compute; lia.
Defined.

(** ** extendLineAlongAzimuth, makeLineOnAzimuthFromPoint *)

Lemma offset_length (d t : R) :
  sqrt ((d * sin t) * (d * sin t) + (d * cos t) * (d * cos t)) = Rabs d.
Proof.
  replace ((d * sin t) * (d * sin t) + (d * cos t) * (d * cos t))%R
    with (d² * ((sin t)² + (cos t)²))%R by (unfold Rsqr; ring).
  rewrite sin2_cos2, Rmult_1_r. apply sqrt_Rsqr_abs.
Qed.

Lemma dist_offset (p : Point R) (d t : R) :
  dist p (mkPoint (X p + d * sin t) (Y p + d * cos t))%R = Ret (Rabs d).
Proof.
  rewrite dist_exact. cbn [X Y].
  rewrite <- (offset_length d t). do 2 f_equal. ring.
Qed.

(** X3.  In exact arithmetic, whatever [atan2] returns: the result of
    [extendLineAlongAzimuth] is [False] only for direction ['OPPOSITE'] on a
    line of more than two points; otherwise it is a line of exactly two
    points (the inner vertices of a longer line are dropped), from the first
    point of the line (its last point, with ['OPPOSITE']) to a new end that
    lies exactly [|distance|] from the other end of the line. *)
Theorem extendLineAlongAzimuth_new_end_at_distance
    (atan2 : R → R → R) (geom : Polyline R) (distance : R) (direction : string) :
  match extendLineAlongAzimuth atan2 sin cos geom distance direction with
  | PyFalse => direction = "OPPOSITE" ∧ (2 < pointCount geom)%nat
  | Val extended =>
      let '(start, anchor) :=
        if String.eqb direction "OPPOSITE"
        then (lastPoint geom, firstPoint geom)
        else (firstPoint geom, lastPoint geom) in
      extended = segment start (lastPoint extended)
      ∧ dist anchor (lastPoint extended) = Ret (Rabs distance)
  end.
Proof.
  unfold extendLineAlongAzimuth.
  destruct (String.eqb_spec direction "OPPOSITE") as [-> | Hdir].
  - unfold flipLineSegment.
    destruct (Nat.ltb_spec 2 (pointCount geom)) as [Hlt | Hle]; [done |].
    cbv zeta. unfold segment. cbn [firstPoint lastPoint X Y].
    rewrite !point_eta. split; [reflexivity | apply dist_offset].
  - cbv zeta. unfold segment. cbn [firstPoint lastPoint].
    rewrite point_eta. split; [reflexivity | apply dist_offset].
Qed.

(** *** The angle functions in exact arithmetic *)

Lemma sin_cos_period_Z (x : R) (k : Z) :
  sin (x + 2 * IZR k * PI) = sin x ∧ cos (x + 2 * IZR k * PI) = cos x.
Proof.
  destruct (Z_le_gt_dec 0 k) as [Hk | Hk].
  - rewrite <- (Z2Nat.id k) by exact Hk. rewrite <- INR_IZR_INZ.
    split; [apply sin_period | apply cos_period].
  - set (n := Z.to_nat (- k)).
    assert (Hn : IZR k = (- INR n)%R).
    { unfold n. rewrite INR_IZR_INZ, Z2Nat.id by lia. rewrite opp_IZR. ring. }
    rewrite Hn. split.
    + rewrite <- (sin_period (x + 2 * - INR n * PI) n). f_equal. ring.
    + rewrite <- (cos_period (x + 2 * - INR n * PI) n). f_equal. ring.
Qed.

Lemma hypot_pos (x y : R) : x ≠ 0%R ∨ y ≠ 0%R → (0 < sqrt (x * x + y * y))%R.
Proof. intros Hxy. apply sqrt_lt_R0. destruct Hxy; nra. Qed.

Lemma hypot_scaled (x y : R) :
  (0 < Rabs x)%R →
  sqrt (1 + (y / x)²) = (sqrt (x * x + y * y) / Rabs x)%R.
Proof.
  intros Hx.
  assert (Hx0 : x ≠ 0%R) by (intros ->; rewrite Rabs_R0 in Hx; lra).
  replace (1 + (y / x)²)%R with ((x * x + y * y) / x²)%R
    by (unfold Rsqr; field; exact Hx0).
  rewrite sqrt_div_alt by (unfold Rsqr; nra).
  rewrite sqrt_Rsqr_abs. reflexivity.
Qed.

(** [Real.atan2 y x] is the angle of the vector [(x, y)]. *)
Lemma Real_atan2_sin_cos (y x : R) :
  x ≠ 0%R ∨ y ≠ 0%R →
  sin (Real.atan2 y x) = (y / sqrt (x * x + y * y))%R
  ∧ cos (Real.atan2 y x) = (x / sqrt (x * x + y * y))%R.
Proof.
  intros Hxy. pose proof (hypot_pos x y Hxy) as Hr.
  set (r := sqrt (x * x + y * y)) in *.
  unfold Real.atan2.
  destruct (Rlt_dec 0 x) as [Hpos | Hnpos].
  - rewrite sin_atan, cos_atan, hypot_scaled by (rewrite Rabs_pos_eq; lra).
    fold r. rewrite Rabs_pos_eq by lra. split; field; lra.
  - destruct (Rlt_dec x 0) as [Hneg | Hnneg].
    + assert (Habs : Rabs x = (- x)%R) by (apply Rabs_left; exact Hneg).
      assert (Hs : sin (atan (y / x)) = (- y / r)%R).
      { rewrite sin_atan, hypot_scaled by (rewrite Habs; lra).
        fold r. rewrite Habs. field; lra. }
      assert (Hc : cos (atan (y / x)) = (- x / r)%R).
      { rewrite cos_atan, hypot_scaled by (rewrite Habs; lra).
        fold r. rewrite Habs. field; lra. }
      destruct (Rle_dec 0 y).
      * rewrite neg_sin, neg_cos, Hs, Hc. split; field; lra.
      * replace (atan (y / x) - PI)%R with (atan (y / x) + PI + 2 * IZR (-1) * PI)%R
          by (simpl; ring).
        destruct (sin_cos_period_Z (atan (y / x) + PI) (-1)) as [-> ->].
        rewrite neg_sin, neg_cos, Hs, Hc. split; field; lra.
    + assert (Hx : x = 0%R) by lra. subst x.
      assert (Hr' : r = Rabs y).
      { unfold r. replace (0 * 0 + y * y)%R with (y²)%R by (unfold Rsqr; ring).
        apply sqrt_Rsqr_abs. }
      destruct (Rlt_dec 0 y) as [Hy | Hny].
      * rewrite sin_PI2, cos_PI2, Hr', Rabs_pos_eq by lra. split; field; lra.
      * destruct (Rlt_dec y 0) as [Hy | Hny'].
        -- replace (- PI / 2)%R with (- (PI / 2))%R by field.
           rewrite sin_neg, cos_neg, sin_PI2, cos_PI2, Hr', Rabs_left by lra.
           split; field; lra.
        -- destruct Hxy; lra.
Qed.

Lemma Real_atan2_range (y x : R) : (- PI < Real.atan2 y x <= PI)%R.
Proof.
  pose proof PI_RGT_0 as Hpi. pose proof (atan_bound (y / x)) as Hb.
  unfold Real.atan2.
  destruct (Rlt_dec 0 x); [lra |].
  destruct (Rlt_dec x 0) as [Hneg |].
  - destruct (Rle_dec 0 y) as [Hy | Hy].
    + assert (y / x <= 0)%R.
      { unfold Rdiv. assert (/ x < 0)%R by (apply Rinv_lt_0_compat; exact Hneg). nra. }
      assert (atan (y / x) <= 0)%R.
      { rewrite <- atan_0. destruct (Req_dec (y / x) 0) as [-> | Hne]; [lra |].
        left. apply atan_increasing. lra. }
      lra.
    + assert (0 < y / x)%R.
      { unfold Rdiv. assert (/ x < 0)%R by (apply Rinv_lt_0_compat; exact Hneg). nra. }
      assert (0 < atan (y / x))%R by (rewrite <- atan_0; apply atan_increasing; lra).
      lra.
  - destruct (Rlt_dec 0 y); [lra |]. destruct (Rlt_dec y 0); lra.
Qed.

Lemma radians_degrees (a : R) : radians (degrees a) = a.
Proof.
  unfold radians, degrees. cbn [nmul ndiv of_Z npi R_PyNum].
  pose proof PI_RGT_0. field. lra.
Qed.

(** Reducing an angle in degrees by [% 360] changes neither its sine nor
    its cosine. *)
Lemma radians_mod_360 (d : R) :
  sin (radians (d mod of_Z 360)%py) = sin (radians d)
  ∧ cos (radians (d mod of_Z 360)%py) = cos (radians d).
Proof.
  change (d mod of_Z 360)%py with (Real.py_mod d 360).
  destruct (Real_py_mod_shift d 360) as [k ->].
  replace (radians (d + 360 * IZR k)%R) with (radians d + 2 * IZR k * PI)%R.
  - apply sin_cos_period_Z.
  - unfold radians. cbn [nmul ndiv of_Z npi R_PyNum]. field.
Qed.

Lemma radians_plus_180 (d : R) :
  sin (radians (d + of_Z 180)%py) = (- sin (radians d))%R
  ∧ cos (radians (d + of_Z 180)%py) = (- cos (radians d))%R.
Proof.
  replace (radians (d + of_Z 180)%py) with (radians d + PI)%R.
  - split; [apply neg_sin | apply neg_cos].
  - unfold radians. cbn [nadd nmul ndiv of_Z npi R_PyNum].
    pose proof PI_RGT_0. field.
Qed.

(** The sine and cosine of the azimuth, in exact arithmetic: the
    components of the unit vector from the first point to the last. *)
Lemma getAzimuth_sin_cos (geom : Polyline R) :
  firstPoint geom ≠ lastPoint geom →
  let L := planar_distance (firstPoint geom) (lastPoint geom) in
  (0 < L)%R
  ∧ sin (radians (getAzimuth Real.atan2 geom))
    = ((X (lastPoint geom) - X (firstPoint geom)) / L)%R
  ∧ cos (radians (getAzimuth Real.atan2 geom))
    = ((Y (lastPoint geom) - Y (firstPoint geom)) / L)%R.
Proof.
  intros Hne L.
  destruct geom as [[x1 y1] l [x2 y2]]. cbn [firstPoint lastPoint X Y] in *.
  assert (Hd : (y2 - y1)%R ≠ 0%R ∨ (x2 - x1)%R ≠ 0%R).
  { destruct (Req_dec x1 x2) as [-> | Hx]; [| right; lra].
    destruct (Req_dec y1 y2) as [-> | Hy]; [| left; lra].
    exfalso. apply Hne. reflexivity. }
  assert (HL : L = sqrt ((y2 - y1) * (y2 - y1) + (x2 - x1) * (x2 - x1))).
  { unfold L, planar_distance. cbn [nadd nsub nmul nsqrt R_PyNum X Y].
    f_equal. ring. }
  destruct (Real_atan2_sin_cos (x2 - x1) (y2 - y1) Hd) as [Hs Hc].
  rewrite <- HL in Hs, Hc.
  split; [rewrite HL; apply hypot_pos; exact Hd |].
  unfold getAzimuth. cbv zeta. cbn [firstPoint lastPoint X Y nsub R_PyNum].
  destruct (radians_mod_360 (degrees (Real.atan2 (x2 - x1) (y2 - y1)))) as [-> ->].
  rewrite radians_degrees. split; assumption.
Qed.

(** X4.  In exact arithmetic, for a line whose first and last points
    differ: the extension continues the direction from the first point to
    the last.  The new end is the last point moved by [distance] along the
    unit vector of that direction; with ['OPPOSITE'] (on a two-point line)
    it is the first point moved by [distance] the other way. *)
Theorem extendLineAlongAzimuth_continues_direction
    (geom : Polyline R) (distance : R) (direction : string) :
  firstPoint geom ≠ lastPoint geom →
  let first := firstPoint geom in
  let last := lastPoint geom in
  ∃ L : R,
    dist first last = Ret L
    ∧ (direction ≠ "OPPOSITE" →
       extendLineAlongAzimuth Real.atan2 sin cos geom distance direction
       = Val (segment first
                (mkPoint (X last + distance * ((X last - X first) / L))
                         (Y last + distance * ((Y last - Y first) / L)))%R))
    ∧ ((pointCount geom ≤ 2)%nat →
       extendLineAlongAzimuth Real.atan2 sin cos geom distance "OPPOSITE"
       = Val (segment last
                (mkPoint (X first + distance * ((X first - X last) / L))
                         (Y first + distance * ((Y first - Y last) / L)))%R)).
Proof.
  intros Hne first last.
  destruct (getAzimuth_sin_cos geom Hne) as (HL & Hs & Hc).
  set (L := planar_distance (firstPoint geom) (lastPoint geom)) in *.
  fold first last in HL, Hs, Hc.
  exists L. split; [apply dist_planar |].
  split.
  - intros Hdir. unfold extendLineAlongAzimuth.
    destruct (String.eqb_spec direction "OPPOSITE") as [Heq | _]; [done |].
    cbv zeta. cbn [nadd nmul R_PyNum]. rewrite Hs, Hc, point_eta. reflexivity.
  - intros Hcount. unfold extendLineAlongAzimuth. cbn [String.eqb Ascii.eqb Bool.eqb].
    unfold flipLineSegment.
    destruct (Nat.ltb_spec 2 (pointCount geom)) as [Hlt | _]; [lia |].
    cbv zeta. unfold segment. cbn [firstPoint lastPoint X Y].
    destruct (radians_mod_360 (getAzimuth Real.atan2 geom + of_Z 180)%py) as [-> ->].
    destruct (radians_plus_180 (getAzimuth Real.atan2 geom)) as [-> ->].
    rewrite Hs, Hc, !point_eta. cbn [nadd nmul R_PyNum]. fold first last.
    do 2 f_equal; f_equal; field; lra.
Qed.

Lemma extendLineAlongAzimuth_continues_direction_witness :
  let first := mkPoint 0%R 0%R in
  let last := mkPoint 3%R 4%R in
  let geom := segment first last in
  ∃ L : R,
    dist first last = Ret L
    ∧ ("AZIMUTH" ≠ "OPPOSITE" →
       extendLineAlongAzimuth Real.atan2 sin cos geom 10%R "AZIMUTH"
       = Val (segment first
                (mkPoint (3 + 10 * ((3 - 0) / L))
                         (4 + 10 * ((4 - 0) / L)))%R))
    ∧ ((pointCount geom ≤ 2)%nat →
       extendLineAlongAzimuth Real.atan2 sin cos geom 10%R "OPPOSITE"
       = Val (segment last
                (mkPoint (0 + 10 * ((0 - 3) / L))
                         (0 + 10 * ((0 - 4) / L)))%R)).
Proof.
  intros first last geom.
  assert (Hne : firstPoint geom ≠ lastPoint geom).
  { simpl. intros Heq. inversion Heq. lra. }
  apply (extendLineAlongAzimuth_continues_direction geom 10%R "AZIMUTH" Hne).
Defined.

Lemma angle_unique (a b : R) :
  sin a = sin b → cos a = cos b → ∃ k : Z, a = (b + 2 * IZR k * PI)%R.
Proof.
  intros Hs Hc.
  assert (Hcos : cos (a - b) = 1%R).
  { rewrite cos_minus, Hs, Hc. pose proof (sin2_cos2 b) as H1.
    unfold Rsqr in H1. lra. }
  assert (Hhalf : sin ((a - b) / 2) = 0%R).
  { pose proof (cos_2a_sin ((a - b) / 2)) as H2.
    replace (2 * ((a - b) / 2))%R with (a - b)%R in H2 by field.
    rewrite Hcos in H2. nra. }
  destruct (sin_eq_0_0 _ Hhalf) as [k Hk]. exists k. lra.
Qed.

Lemma Real_py_mod_unique (r y : R) (k : Z) :
  (0 <= r < y)%R → Real.py_mod (r + y * IZR k) y = r.
Proof.
  intros Hr. unfold Real.py_mod.
  assert (Hq : ((r + y * IZR k) / y = r / y + IZR k)%R) by (field; lra).
  assert (Hfrac : (0 <= r / y < 1)%R).
  { split.
    - apply Rmult_le_pos; [lra |]. left. apply Rinv_0_lt_compat. lra.
    - apply (Rmult_lt_reg_r y); [lra |].
      replace (r / y * y)%R with r by (field; lra). lra. }
  rewrite <- (Int_part_spec ((r + y * IZR k) / y) k) by (rewrite Hq; lra).
  ring.
Qed.

(** X5.  In exact arithmetic, for a positive distance and an azimuth in
    [[0, 360)]: [makeLineOnAzimuthFromPoint] returns the two-point line from
    the point to the returned end point, the end point lies at [distance]
    from the point, and [getAzimuth] of the line is the azimuth given. *)
Theorem makeLineOnAzimuthFromPoint_azimuth_round_trip
    (ptGeom : Point R) (distance azimuth : R) :
  (0 < distance)%R → (0 <= azimuth < 360)%R →
  let '(pline, endPt) :=
    makeLineOnAzimuthFromPoint sin cos ptGeom distance azimuth in
  pline = segment ptGeom endPt
  ∧ dist ptGeom endPt = Ret distance
  ∧ getAzimuth Real.atan2 pline = azimuth.
Proof.
  intros Hd Haz. unfold makeLineOnAzimuthFromPoint. cbv zeta.
  set (t := radians azimuth).
  split; [reflexivity |]. split.
  - cbn [nadd nmul R_PyNum]. rewrite dist_offset. f_equal. apply Rabs_pos_eq. lra.
  - unfold getAzimuth, segment. cbv zeta.
    cbn [firstPoint lastPoint X Y nadd nsub nmul R_PyNum].
    replace (X ptGeom + distance * sin t - X ptGeom)%R with (distance * sin t)%R by ring.
    replace (Y ptGeom + distance * cos t - Y ptGeom)%R with (distance * cos t)%R by ring.
    set (theta := Real.atan2 (distance * sin t) (distance * cos t)).
    assert (Hr : sqrt (distance * cos t * (distance * cos t)
                       + distance * sin t * (distance * sin t)) = distance).
    { rewrite Rplus_comm, offset_length. apply Rabs_pos_eq. lra. }
    assert (Hv : (distance * cos t)%R ≠ 0%R ∨ (distance * sin t)%R ≠ 0%R).
    { destruct (Req_dec (cos t) 0) as [Hc0 | Hc0]; [right | left; nra].
      pose proof (sin2_cos2 t) as H1. unfold Rsqr in H1. rewrite Hc0 in H1. nra. }
    destruct (Real_atan2_sin_cos _ _ Hv) as [Hs Hc]. fold theta in Hs, Hc.
    rewrite Hr in Hs, Hc.
    assert (Hs' : sin theta = sin t) by (rewrite Hs; field; lra).
    assert (Hc' : cos theta = cos t) by (rewrite Hc; field; lra).
    destruct (angle_unique theta t Hs' Hc') as [k Hk].
    change (Real.py_mod (degrees theta) 360 = azimuth).
    replace (degrees theta) with (azimuth + 360 * IZR k)%R.
    + apply Real_py_mod_unique. exact Haz.
    + rewrite Hk. unfold t, degrees, radians. cbn [nmul ndiv of_Z npi R_PyNum].
      pose proof PI_RGT_0. field. lra.
Qed.

Lemma makeLineOnAzimuthFromPoint_azimuth_round_trip_witness :
  let ptGeom := mkPoint 100%R 200%R in
  let '(pline, endPt) := makeLineOnAzimuthFromPoint sin cos ptGeom 50%R 45%R in
  pline = segment ptGeom endPt
  ∧ dist ptGeom endPt = Ret 50%R
  ∧ getAzimuth Real.atan2 pline = 45%R.
Proof.
  intros ptGeom.
  apply (makeLineOnAzimuthFromPoint_azimuth_round_trip ptGeom 50%R 45%R); lra.
Defined.

(** ** appendToArrayStart, polylineExplodeSegments *)

Lemma fold_left_snoc {A : Type} (l acc : list A) :
  fold_left (λ newArr point, newArr ++ [point]) l acc = acc ++ l.
Proof.
  revert acc. induction l as [| a l IH]; intros acc; simpl.
  - rewrite app_nil_r. reflexivity.
  - rewrite IH, <- app_assoc. reflexivity.
Qed.

Lemma fold_left_getObject {A : Type} (arr : list A) (n : nat) (acc : list A) :
  fold_left (λ newArr i,
               match arr !! i with
               | Some o => newArr ++ [o]
               | None => newArr
               end) (seq n (length arr - n)) acc
  = acc ++ drop n arr.
Proof.
  remember (length arr - n)%nat as m eqn:Hm.
  revert n acc Hm. induction m as [| m IH]; intros n acc Hm.
  - simpl. rewrite drop_ge by lia. rewrite app_nil_r. reflexivity.
  - simpl. destruct (arr !! n) as [o |] eqn:Ho.
    + rewrite IH by lia. rewrite <- app_assoc. simpl.
      rewrite <- (drop_S arr o n Ho). reflexivity.
    + apply lookup_ge_None in Ho. lia.
Qed.

(** X6.  [appendToArrayStart] returns the points followed by the objects
    of the array, each in its order: nothing is lost, nothing reordered. *)
Theorem appendToArrayStart_prepends {A : Type} (arr points : list A) :
  appendToArrayStart arr points = points ++ arr.
Proof.
  unfold appendToArrayStart. rewrite fold_left_snoc. simpl.
  pose proof (fold_left_getObject arr 0 points) as Hloop.
  rewrite Nat.sub_0_r in Hloop. exact Hloop.
Qed.

Lemma explode_part_spec {N : Type} (arr : list (Point N))
    (explodedLines : list (Polyline N)) :
  explode_part arr explodedLines
  = explodedLines ++ map (λ ft, segment (fst ft) (snd ft)) (build_edges arr).
Proof.
  unfold explode_part.
  assert (Hfrom : ∀ (arr : list (Point N)) previous acc,
    snd (fold_left (λ '(previousPoint, explodedLines) p,
           match previousPoint with
           | Some previous => (Some p, explodedLines ++ [segment previous p])
           | None => (Some p, explodedLines)
           end) arr (Some previous, acc))
    = acc ++ map (λ ft, segment (fst ft) (snd ft)) (build_edges (previous :: arr))).
  { clear. induction arr as [| p arr IH]; intros previous acc.
    - simpl. rewrite app_nil_r. reflexivity.
    - simpl fold_left. rewrite IH.
      change (build_edges (previous :: p :: arr))
        with ((previous, p) :: build_edges (p :: arr)).
      simpl. rewrite <- app_assoc. reflexivity. }
  destruct arr as [| p arr].
  - simpl. rewrite app_nil_r. reflexivity.
  - simpl fold_left. apply Hfrom.
Qed.

Lemma path_length_edges (arr : list (Point R)) :
  total_length (map (λ ft, segment (fst ft) (snd ft)) (build_edges arr))
  = path_length arr.
Proof.
  induction arr as [| p arr IH]; [reflexivity |].
  destruct arr as [| q arr]; [reflexivity |].
  change (build_edges (p :: q :: arr)) with ((p, q) :: build_edges (q :: arr)).
  change (path_length (p :: q :: arr))
    with (planar_distance p q + path_length (q :: arr))%R.
  rewrite <- IH. unfold total_length. simpl.
  unfold planar_length at 1. simpl. cbn [nadd of_Z R_PyNum]. lra.
Qed.

Lemma total_length_app (l1 l2 : list (Polyline R)) :
  total_length (l1 ++ l2) = (total_length l1 + total_length l2)%R.
Proof.
  unfold total_length. induction l1 as [| g l1 IH]; simpl; [lra |].
  rewrite IH. lra.
Qed.

(** X7.  [polylineExplodeSegments] writes, for every part of every
    polyline and in order, one two-point line for each pair of consecutive
    vertices: a part of [n] vertices gives [n - 1] lines (none for a part of
    one vertex), no line joins two parts, and in exact arithmetic the lines
    of a part add up to the planar length of the part. *)
Theorem polylineExplodeSegments_consecutive_pairs :
  (∀ (N : Type) (plineList : list (list (list (Point N)))),
     polylineExplodeSegments plineList
     = map (λ ft, segment (fst ft) (snd ft))
         (concat (map build_edges (concat plineList))))
  ∧ (∀ (N : Type) (arr : list (Point N)),
       length (polylineExplodeSegments [[arr]]) = (length arr - 1)%nat)
  ∧ (∀ plineList : list (list (list (Point R))),
       total_length (polylineExplodeSegments plineList)
       = foldr Rplus 0%R (map path_length (concat plineList))).
Proof.
  assert (Hparts : ∀ (N : Type) (pline : list (list (Point N))) acc,
    fold_left (λ explodedLines arr, explode_part arr explodedLines) pline acc
    = acc ++ map (λ ft, segment (fst ft) (snd ft)) (concat (map build_edges pline))).
  { intros N. induction pline as [| arr pline IH]; intros acc; simpl.
    - rewrite app_nil_r. reflexivity.
    - rewrite IH, explode_part_spec, map_app, app_assoc. reflexivity. }
  assert (Hall : ∀ (N : Type) (plineList : list (list (list (Point N)))) acc,
    fold_left (λ explodedLines pline,
      fold_left (λ explodedLines arr, explode_part arr explodedLines)
        pline explodedLines) plineList acc
    = acc ++ map (λ ft, segment (fst ft) (snd ft))
               (concat (map build_edges (concat plineList)))).
  { intros N. induction plineList as [| pline plineList IH]; intros acc; simpl.
    - rewrite app_nil_r. reflexivity.
    - rewrite IH, Hparts, map_app, concat_app, map_app, app_assoc. reflexivity. }
  assert (Hmain : ∀ (N : Type) (plineList : list (list (list (Point N)))),
     polylineExplodeSegments plineList
     = map (λ ft, segment (fst ft) (snd ft))
         (concat (map build_edges (concat plineList)))).
  { intros N plineList. unfold polylineExplodeSegments. apply Hall. }
  split; [exact Hmain |]. split.
  - intros N arr. rewrite Hmain. simpl. rewrite !app_nil_r, length_map.
    induction arr as [| p arr IH]; [reflexivity |].
    destruct arr as [| q arr]; [reflexivity |].
    change (build_edges (p :: q :: arr)) with ((p, q) :: build_edges (q :: arr)).
    simpl in *. rewrite IH. lia.
  - intros plineList. rewrite Hmain.
    induction (concat plineList) as [| arr parts IH]; [reflexivity |].
    simpl. rewrite map_app, total_length_app, path_length_edges, IH. reflexivity.
Qed.

(** ** dist, midpointFractional *)

Lemma planar_distance_expand (p q : Point R) :
  planar_distance p q
  = sqrt ((X q - X p) * (X q - X p) + (Y q - Y p) * (Y q - Y p)).
Proof. reflexivity. Qed.

Lemma hypot_triangle (a b c d : R) :
  (sqrt ((a + c) * (a + c) + (b + d) * (b + d))
   <= sqrt (a * a + b * b) + sqrt (c * c + d * d))%R.
Proof.
  set (u := sqrt (a * a + b * b)). set (v := sqrt (c * c + d * d)).
  assert (Hu : (0 <= u)%R) by apply sqrt_pos.
  assert (Hv : (0 <= v)%R) by apply sqrt_pos.
  assert (Hu2 : (u * u = a * a + b * b)%R) by (apply sqrt_sqrt; nra).
  assert (Hv2 : (v * v = c * c + d * d)%R) by (apply sqrt_sqrt; nra).
  assert (Hcs : (a * c + b * d <= u * v)%R).
  { destruct (Rle_dec (a * c + b * d) (u * v)) as [Hle | Hgt]; [exact Hle |].
    exfalso.
    assert (Hsq : ((a * c + b * d) * (a * c + b * d) <= (u * v) * (u * v))%R).
    { replace (u * v * (u * v))%R with ((u * u) * (v * v))%R by ring.
      rewrite Hu2, Hv2.
      pose proof (Rle_0_sqr (a * d - b * c)) as Hcross. unfold Rsqr in Hcross.
      lra. }
    assert (0 <= u * v)%R by nra. nra. }
  rewrite <- (sqrt_square (u + v)) by lra.
  apply sqrt_le_1_alt. nra.
Qed.

(** X8.  In exact arithmetic [dist] returns for all points, and is a
    metric on them: it is never negative, zero exactly between equal
    points, the same in both directions, and satisfies the triangle
    inequality. *)
Theorem dist_is_a_metric (p q r : Point R) :
  ∃ d_pq d_qr d_pr : R,
    dist p q = Ret d_pq ∧ dist q r = Ret d_qr ∧ dist p r = Ret d_pr
    ∧ (0 <= d_pq)%R
    ∧ (d_pq = 0%R ↔ p = q)
    ∧ dist q p = Ret d_pq
    ∧ (d_pr <= d_pq + d_qr)%R.
Proof.
  exists (planar_distance p q), (planar_distance q r), (planar_distance p r).
  split; [apply dist_planar |]. split; [apply dist_planar |].
  split; [apply dist_planar |].
  split; [apply sqrt_pos |]. split; [| split].
  - split.
    + intros Hz. rewrite planar_distance_expand in Hz.
      destruct p as [x1 y1], q as [x2 y2]. cbn [X Y] in Hz.
      pose proof (Rle_0_sqr (x2 - x1)) as Hx. pose proof (Rle_0_sqr (y2 - y1)) as Hy.
      unfold Rsqr in Hx, Hy.
      apply sqrt_eq_0 in Hz; [| lra].
      f_equal; nra.
    + intros ->. rewrite planar_distance_expand.
      replace ((X q - X q) * (X q - X q) + (Y q - Y q) * (Y q - Y q))%R
        with 0%R by ring.
      apply sqrt_0.
  - rewrite dist_planar, (planar_distance_sym q p). reflexivity.
  - rewrite !planar_distance_expand.
    replace (X r - X p)%R with ((X q - X p) + (X r - X q))%R by ring.
    replace (Y r - Y p)%R with ((Y q - Y p) + (Y r - Y q))%R by ring.
    apply hypot_triangle.
Qed.

Lemma hypot_scale (f a b : R) :
  sqrt ((a * f) * (a * f) + (b * f) * (b * f)) = (Rabs f * sqrt (a * a + b * b))%R.
Proof.
  replace ((a * f) * (a * f) + (b * f) * (b * f))%R
    with (f² * (a * a + b * b))%R by (unfold Rsqr; ring).
  rewrite sqrt_mult by (try apply Rle_0_sqr; nra).
  rewrite sqrt_Rsqr_abs. reflexivity.
Qed.

(** X9.  In exact arithmetic the point of [midpointFractional] lies on the
    line through the two points, at [|fraction|] times their distance from
    the first and [|1 - fraction|] times from the second; for a fraction
    in [[0, 1]] the two distances add up to the distance of the points, and
    [midpoint] is at half that distance from both. *)
Theorem midpointFractional_divides_distance (p1 p2 : Point R) (fraction : R) :
  let m := midpointFractional p1 p2 fraction in
  ∃ d : R,
    dist p1 p2 = Ret d
    ∧ dist p1 m = Ret (Rabs fraction * d)%R
    ∧ dist m p2 = Ret (Rabs (1 - fraction) * d)%R
    ∧ ((0 <= fraction <= 1)%R →
       (Rabs fraction * d + Rabs (1 - fraction) * d)%R = d)
    ∧ dist p1 (midpoint p1 p2) = Ret (d / 2)%R
    ∧ dist (midpoint p1 p2) p2 = Ret (d / 2)%R.
Proof.
  assert (Hfirst : ∀ f, dist p1 (midpointFractional p1 p2 f)
                        = Ret (Rabs f * planar_distance p1 p2)%R).
  { intros f. rewrite dist_planar, !planar_distance_expand. f_equal.
    unfold midpointFractional. cbn [X Y nadd nsub nmul R_PyNum].
    rewrite <- hypot_scale. f_equal. ring. }
  assert (Hsecond : ∀ f, dist (midpointFractional p1 p2 f) p2
                         = Ret (Rabs (1 - f) * planar_distance p1 p2)%R).
  { intros f. rewrite dist_planar, !planar_distance_expand. f_equal.
    unfold midpointFractional. cbn [X Y nadd nsub nmul R_PyNum].
    rewrite <- hypot_scale. f_equal. ring. }
  assert (Hhalf : (of_Z 1 / of_Z 2)%py = (1 / 2)%R) by reflexivity.
  intros m. unfold m. exists (planar_distance p1 p2).
  split; [apply dist_planar |].
  split; [apply Hfirst |]. split; [apply Hsecond |].
  split; [| split].
  - intros Hf. rewrite !Rabs_pos_eq by lra. ring.
  - unfold midpoint. cbv zeta. rewrite Hfirst, Hhalf, Rabs_pos_eq by lra.
    f_equal. field.
  - unfold midpoint. cbv zeta. rewrite Hsecond, Hhalf, Rabs_pos_eq by lra.
    f_equal. field.
Qed.

(** ** splitRectangle *)

(** X10.  In exact arithmetic: [splitRectangle] raises [KeyError] on a
    ring of fewer than five points, and on any other ring returns two
    closed rings of five points that share the cut.  With [p1 ... p5] the
    first five points, the cut joins the midpoints of [p1 p2] and [p3 p4],
    or those of [p2 p3] and [p4 p5]; the other corners are input points,
    and points after the fifth are not read. *)
Theorem splitRectangle_two_closed_rings (rectangle : list (Point R)) :
  match rectangle with
  | p1 :: p2 :: p3 :: p4 :: p5 :: _ =>
      ∃ a b c d m1 m2,
        splitRectangle rectangle
        = Ret [[a; m1; m2; d; a]; [m1; b; c; m2; m1]]
        ∧ ((a, b, c, d, m1, m2)
           = (p1, p2, p3, p4, midpoint p1 p2, midpoint p3 p4)
           ∨ (a, b, c, d, m1, m2)
             = (p2, p3, p4, p1, midpoint p2 p3, midpoint p4 p5))
  | _ => splitRectangle rectangle = Raise KeyError
  end.
Proof.
  destruct rectangle as [| p1 [| p2 [| p3 [| p4 [| p5 rest]]]]];
    try reflexivity.
  unfold splitRectangle. cbv zeta.
  change (build_edges (p1 :: p2 :: p3 :: p4 :: p5 :: rest))
    with ((p1, p2) :: (p2, p3) :: (p3, p4) :: (p4, p5) :: build_edges (p5 :: rest)).
  cbn [mapM edge_length lookup list_lookup fst snd].
  rewrite !dist_exact.
  cbn [bind fst snd e_longEdge e_from e_midpoint].
  destruct (negb _).
  - exists p2, p3, p4, p1, (midpoint p2 p3), (midpoint p4 p5).
    split; [reflexivity | right; reflexivity].
  - exists p1, p2, p3, p4, (midpoint p1 p2), (midpoint p3 p4).
    split; [reflexivity | left; reflexivity].
Qed.

(** ** intersectLines *)

(** [intersectLines] in exact arithmetic, with the tests as propositions. *)
Lemma intersectLines_exact (x1 y1 x2 y2 x3 y3 x4 y4 x y : R) :
  intersectLines (x1, y1, x2, y2) (x3, y3, x4, y4) = Some (x, y)
  ↔ let det := ((y2 - y1) * (x3 - x4) - (y4 - y3) * (x1 - x2))%R in
    det ≠ 0%R
    ∧ x = (((x3 - x4) * ((y2 - y1) * x1 + (x1 - x2) * y1)
            - (x1 - x2) * ((y4 - y3) * x3 + (x3 - x4) * y3)) / det)%R
    ∧ y = (((y2 - y1) * ((y4 - y3) * x3 + (x3 - x4) * y3)
            - (y4 - y3) * ((y2 - y1) * x1 + (x1 - x2) * y1)) / det)%R
    ∧ (Rmin x1 x2 < x < Rmax x1 x2)%R ∧ (Rmin x3 x4 < x < Rmax x3 x4)%R
    ∧ (Rmin y1 y2 < y < Rmax y1 y2)%R ∧ (Rmin y3 y4 < y < Rmax y3 y4)%R.
Proof.
  unfold intersectLines. cbv zeta.
  cbn [nadd nsub nmul ndiv neq nlt of_Z R_PyNum].
  set (det := ((y2 - y1) * (x3 - x4) - (y4 - y3) * (x1 - x2))%R).
  set (px := (((x3 - x4) * ((y2 - y1) * x1 + (x1 - x2) * y1)
               - (x1 - x2) * ((y4 - y3) * x3 + (x3 - x4) * y3)) / det)%R).
  set (py := (((y2 - y1) * ((y4 - y3) * x3 + (x3 - x4) * y3)
               - (y4 - y3) * ((y2 - y1) * x1 + (x1 - x2) * y1)) / det)%R).
  rewrite !py_min_exact, !py_max_exact.
  destruct (Real.eqb det 0) eqn:Hdet.
  - apply Real_eqb_true in Hdet. split; [discriminate | tauto].
  - apply Real_eqb_false in Hdet.
    match goal with
    | |- (if ?c then _ else _) = _ ↔ _ => destruct c eqn:Htest
    end.
    + rewrite !andb_true_iff, !Real_ltb_true in Htest.
      split.
      * intros Hsome. inversion Hsome; subst x y. tauto.
      * intros (_ & -> & -> & _). reflexivity.
    + split; [discriminate |].
      intros (_ & -> & -> & Hin). exfalso.
      assert (Htrue : (Real.ltb (Rmin x1 x2) px && Real.ltb px (Rmax x1 x2)
                       && Real.ltb (Rmin x3 x4) px && Real.ltb px (Rmax x3 x4)
                       && Real.ltb (Rmin y1 y2) py && Real.ltb py (Rmax y1 y2)
                       && Real.ltb (Rmin y3 y4) py && Real.ltb py (Rmax y3 y4)) = true).
      { rewrite !andb_true_iff, !Real_ltb_true. tauto. }
      congruence.
Qed.

Lemma on_segment (a1 b1 a2 b2 x y : R) :
  ((b2 - b1) * (x - a1) = (a2 - a1) * (y - b1))%R →
  (Rmin a1 a2 < x < Rmax a1 a2)%R →
  ∃ t, (0 < t < 1)%R ∧ x = (a1 + t * (a2 - a1))%R ∧ y = (b1 + t * (b2 - b1))%R.
Proof.
  intros Hline Hx.
  assert (Hne : (a2 - a1)%R ≠ 0%R).
  { unfold Rmin, Rmax in Hx. destruct (Rle_dec a1 a2); lra. }
  exists ((x - a1) / (a2 - a1))%R.
  assert (Hx' : x = (a1 + (x - a1) / (a2 - a1) * (a2 - a1))%R) by (field; exact Hne).
  split; [| split; [exact Hx' |]].
  - unfold Rmin, Rmax in Hx. destruct (Rle_dec a1 a2).
    + assert (0 < a2 - a1)%R by lra. split.
      * apply Rdiv_lt_0_compat; lra.
      * apply (Rmult_lt_reg_r (a2 - a1)); [lra |].
        replace ((x - a1) / (a2 - a1) * (a2 - a1))%R with (x - a1)%R
          by (field; exact Hne). lra.
    + assert (0 < a1 - a2)%R by lra.
      replace ((x - a1) / (a2 - a1))%R with ((a1 - x) / (a1 - a2))%R
        by (field; split; lra).
      split.
      * apply Rdiv_lt_0_compat; lra.
      * apply (Rmult_lt_reg_r (a1 - a2)); [lra |].
        replace ((a1 - x) / (a1 - a2) * (a1 - a2))%R with (a1 - x)%R
          by (field; lra). lra.
  - apply (Rmult_eq_reg_r (a2 - a1)); [| exact Hne].
    replace ((b1 + (x - a1) / (a2 - a1) * (b2 - b1)) * (a2 - a1))%R
      with (b1 * (a2 - a1) + (b2 - b1) * (x - a1))%R by (field; exact Hne).
    rewrite Hline. ring.
Qed.

(** X11.  In exact arithmetic a point returned by [intersectLines] is a
    crossing of the two segments: it lies on the first segment and on the
    second, strictly between the end points of each. *)
Theorem intersectLines_point_on_both_segments
    (x1 y1 x2 y2 x3 y3 x4 y4 x y : R) :
  intersectLines (x1, y1, x2, y2) (x3, y3, x4, y4) = Some (x, y) →
  ∃ t u,
    (0 < t < 1)%R ∧ (0 < u < 1)%R
    ∧ x = (x1 + t * (x2 - x1))%R ∧ y = (y1 + t * (y2 - y1))%R
    ∧ x = (x3 + u * (x4 - x3))%R ∧ y = (y3 + u * (y4 - y3))%R.
Proof.
  intros Hsome. apply intersectLines_exact in Hsome. cbv zeta in Hsome.
  destruct Hsome as (Hdet & Hx & Hy & Hx12 & Hx34 & Hy12 & Hy34).
  set (det := ((y2 - y1) * (x3 - x4) - (y4 - y3) * (x1 - x2))%R) in *.
  assert (Hxd : (x * det = (x3 - x4) * ((y2 - y1) * x1 + (x1 - x2) * y1)
                           - (x1 - x2) * ((y4 - y3) * x3 + (x3 - x4) * y3))%R).
  { rewrite Hx. field. exact Hdet. }
  assert (Hyd : (y * det = (y2 - y1) * ((y4 - y3) * x3 + (x3 - x4) * y3)
                           - (y4 - y3) * ((y2 - y1) * x1 + (x1 - x2) * y1))%R).
  { rewrite Hy. field. exact Hdet. }
  assert (Hline1 : ((y2 - y1) * (x - x1) = (x2 - x1) * (y - y1))%R).
  { apply (Rmult_eq_reg_r det); [| exact Hdet].
    replace ((y2 - y1) * (x - x1) * det)%R
      with ((y2 - y1) * (x * det) - (y2 - y1) * x1 * det)%R by ring.
    replace ((x2 - x1) * (y - y1) * det)%R
      with ((x2 - x1) * (y * det) - (x2 - x1) * y1 * det)%R by ring.
    rewrite Hxd, Hyd. unfold det. ring. }
  assert (Hline2 : ((y4 - y3) * (x - x3) = (x4 - x3) * (y - y3))%R).
  { apply (Rmult_eq_reg_r det); [| exact Hdet].
    replace ((y4 - y3) * (x - x3) * det)%R
      with ((y4 - y3) * (x * det) - (y4 - y3) * x3 * det)%R by ring.
    replace ((x4 - x3) * (y - y3) * det)%R
      with ((x4 - x3) * (y * det) - (x4 - x3) * y3 * det)%R by ring.
    rewrite Hxd, Hyd. unfold det. ring. }
  destruct (on_segment x1 y1 x2 y2 x y Hline1 Hx12) as (t & Ht & Hxt & Hyt).
  destruct (on_segment x3 y3 x4 y4 x y Hline2 Hx34) as (u & Hu & Hxu & Hyu).
  exists t, u. tauto.
Qed.

Lemma intersectLines_point_on_both_segments_witness :
  ∃ t u,
    (0 < t < 1)%R ∧ (0 < u < 1)%R
    ∧ (0 + 1 / 2 * (2 - 0) = 0 + t * (2 - 0))%R
    ∧ (0 + 1 / 2 * (2 - 0) = 0 + t * (2 - 0))%R
    ∧ (0 + 1 / 2 * (2 - 0) = 0 + u * (2 - 0))%R
    ∧ (0 + 1 / 2 * (2 - 0) = 2 + u * (0 - 2))%R.
Proof.
  apply (intersectLines_point_on_both_segments 0 0 2 2 0 2 2 0).
  apply (intersectLines_oblique_crossing 0 0 2 2 0 2 2 0 (1 / 2) (1 / 2)); lra.
Defined.

(** X12.  In exact arithmetic the result of [intersectLines] depends
    neither on the order of the two segments nor on the direction in which
    either is given. *)
Theorem intersectLines_symmetric (x1 y1 x2 y2 x3 y3 x4 y4 : R) :
  intersectLines (x3, y3, x4, y4) (x1, y1, x2, y2)
  = intersectLines (x1, y1, x2, y2) (x3, y3, x4, y4)
  ∧ intersectLines (x2, y2, x1, y1) (x3, y3, x4, y4)
    = intersectLines (x1, y1, x2, y2) (x3, y3, x4, y4)
  ∧ intersectLines (x1, y1, x2, y2) (x4, y4, x3, y3)
    = intersectLines (x1, y1, x2, y2) (x3, y3, x4, y4).
Proof.
  assert (Heq : ∀ a b : option (R * R),
            (∀ x y, a = Some (x, y) ↔ b = Some (x, y)) → a = b).
  { intros [[ax ay] |] [[bx by'] |] Hiff; try reflexivity.
    - symmetry. apply Hiff. reflexivity.
    - exfalso. assert (Hn : @None (R * R) = Some (ax, ay)) by (apply Hiff; reflexivity).
      discriminate.
    - exfalso. assert (Hn : @None (R * R) = Some (bx, by')) by (apply Hiff; reflexivity).
      discriminate. }
  assert (Hdiv : ∀ n d : R, d ≠ 0%R → (- n / - d = n / d)%R)
    by (intros n d Hd; field; exact Hd).
  split; [| split]; apply Heq; intros x y; rewrite !intersectLines_exact; cbv zeta.
  - set (det := ((y2 - y1) * (x3 - x4) - (y4 - y3) * (x1 - x2))%R).
    replace ((y4 - y3) * (x1 - x2) - (y2 - y1) * (x3 - x4))%R with (- det)%R
      by (unfold det; ring).
    split; intros (Hdet & -> & -> & H1 & H2 & H3 & H4);
      (split; [lra |]); (split; [| split; [| tauto]]);
      rewrite <- Hdiv by lra; f_equal; ring.
  - set (det := ((y2 - y1) * (x3 - x4) - (y4 - y3) * (x1 - x2))%R).
    replace ((y1 - y2) * (x3 - x4) - (y4 - y3) * (x2 - x1))%R with (- det)%R
      by (unfold det; ring).
    rewrite (Rmin_comm x2 x1), (Rmax_comm x2 x1), (Rmin_comm y2 y1), (Rmax_comm y2 y1).
    split; intros (Hdet & -> & -> & H1 & H2 & H3 & H4);
      (split; [lra |]); (split; [| split; [| tauto]]);
      rewrite <- Hdiv by lra; f_equal; ring.
  - set (det := ((y2 - y1) * (x3 - x4) - (y4 - y3) * (x1 - x2))%R).
    replace ((y2 - y1) * (x4 - x3) - (y3 - y4) * (x1 - x2))%R with (- det)%R
      by (unfold det; ring).
    rewrite (Rmin_comm x4 x3), (Rmax_comm x4 x3), (Rmin_comm y4 y3), (Rmax_comm y4 y3).
    split; intros (Hdet & -> & -> & H1 & H2 & H3 & H4);
      (split; [lra |]); (split; [| split; [| tauto]]);
      rewrite <- Hdiv by lra; f_equal; ring.
Qed.

(** ** makeNearbyKeys, buildSpatialIndex: degenerate parameters *)

(** In exact arithmetic a loop with step zero that has started never
    ends. *)
Lemma increments_loop_zero_step (origin step max_delta : R) :
  step = 0%R → (0 < max_delta)%R →
  ∀ fuel current delta acc,
    current = origin → delta = 0%R →
    increments_loop fuel origin step max_delta current delta acc = None.
Proof.
  intros Hstep Hmax.
  induction fuel as [| fuel IH]; intros current delta acc Hcur Hdelta; simpl;
    change (nlt delta max_delta) with (Real.ltb delta max_delta);
    replace (Real.ltb delta max_delta) with true
      by (symmetry; apply Real_ltb_true; lra);
    [reflexivity |].
  apply IH.
  - change (current + step = origin)%R. lra.
  - change (Rabs (current + step - origin) = 0%R).
    replace (current + step - origin)%R with 0%R by lra. apply Rabs_R0.
Qed.

Lemma increments_loop_not_entered (fuel : nat)
    (origin step max_delta current : R) (acc : list R) :
  (max_delta <= 0)%R →
  increments_loop fuel origin step max_delta current 0%R acc = Some acc.
Proof.
  intros Hmax. destruct fuel; simpl;
    change (nlt 0%R max_delta) with (Real.ltb 0 max_delta);
    replace (Real.ltb 0 max_delta) with false
      by (symmetry; apply Real_ltb_false; lra);
    reflexivity.
Qed.

Lemma near_nonpositive_radius (lat lon min_delta : R) (pairs : list (R * R)) :
  (min_delta <= 0)%R → List.filter (near lat lon min_delta) pairs = [].
Proof.
  intros Hmin. induction pairs as [| [latnew lonnew] pairs IH]; [reflexivity |].
  cbn [List.filter]. destruct (near lat lon min_delta (latnew, lonnew)) eqn:Hnear;
    [| exact IH].
  apply near_exact in Hnear.
  pose proof (sqrt_pos ((latnew - lat) * (latnew - lat)
                        + (lonnew - lon) * (lonnew - lon))). lra.
Qed.

(** X13.  In exact arithmetic, with grid size 0: [makeNearbyKeys] never
    returns when one of the two maximal offsets is positive (its [while]
    loop adds a zero step for ever); when neither is, it raises the
    [ValueError] of [math.log10(0)] for a positive [min_delta]. *)
Theorem makeNearbyKeys_zero_grid_size
    (log10 : R → R) (trunc : R → Z) (round : R → Z → R)
    (str : R → string) (str_int : Z → string)
    (lat lon max_lat_delta max_lon_delta min_delta : R) (fuel : nat) :
  ((0 < max_lat_delta)%R ∨ (0 < max_lon_delta)%R →
   makeNearbyKeys log10 trunc round str str_int fuel lat lon
     max_lat_delta max_lon_delta 0%R min_delta = None)
  ∧ ((max_lat_delta <= 0)%R → (max_lon_delta <= 0)%R → (0 < min_delta)%R →
     makeNearbyKeys log10 trunc round str str_int fuel lat lon
       max_lat_delta max_lon_delta 0%R min_delta = Some (Raise ValueError)).
Proof.
  assert (Hstep : ∀ i : Z, (of_Z i * 0%R)%py = 0%R).
  { intros i. cbn [nmul of_Z R_PyNum]. ring. }
  split.
  - intros Hpos.
    assert (Hpass : ∀ sets,
      increments_pass fuel lat lon max_lat_delta max_lon_delta 0%R (-1) sets = None).
    { intros [lats lons]. unfold increments_pass.
      change (of_Z 0) with 0%R.
      destruct (Rlt_dec 0 max_lat_delta) as [Hlat | Hlat].
      - rewrite (increments_loop_zero_step lat _ max_lat_delta (Hstep _) Hlat)
          by reflexivity. reflexivity.
      - rewrite increments_loop_not_entered by lra.
        rewrite (increments_loop_zero_step lon _ max_lon_delta (Hstep _))
          by (reflexivity || lra). reflexivity. }
    unfold makeNearbyKeys, nearbyCoordinates, increments.
    rewrite Hpass. reflexivity.
  - intros Hlat Hlon Hmin.
    unfold makeNearbyKeys, nearbyCoordinates, increments, increments_pass.
    change (of_Z 0) with 0%R.
    rewrite !increments_loop_not_entered by lra.
    assert (Hnear : near lat lon min_delta (lat, lon) = true).
    { apply near_exact.
      replace ((lat - lat) * (lat - lat) + (lon - lon) * (lon - lon))%R
        with 0%R by ring.
      rewrite sqrt_0. exact Hmin. }
    cbn [list_prod map app List.filter]. rewrite Hnear.
    assert (Hkey : spatialKey log10 trunc round str str_int lon lat 0%R false
                   = Raise ValueError).
    { unfold spatialKey, round_factor, math_log10.
      change (nfabs 0%R) with (Rabs 0). rewrite Rabs_R0.
      change (neq 0%R (of_Z 0)) with (Real.eqb 0 0).
      replace (Real.eqb 0 0) with true by (symmetry; apply Real_eqb_true; reflexivity).
      reflexivity. }
    cbn [mapM]. rewrite Hkey. reflexivity.
Qed.

(** X14.  In exact arithmetic, for a nonzero grid size and a [min_delta]
    that is zero or negative: [makeNearbyKeys] returns the empty set; not
    even the key of the query coordinate itself is in it. *)
Theorem makeNearbyKeys_nonpositive_radius
    (log10 : R → R) (trunc : R → Z) (round : R → Z → R)
    (str : R → string) (str_int : Z → string)
    (lat lon max_lat_delta max_lon_delta grid_size min_delta : R) :
  grid_size ≠ 0%R → (min_delta <= 0)%R →
  ∃ fuel, ∀ fuel', (fuel ≤ fuel')%nat →
    makeNearbyKeys log10 trunc round str str_int fuel' lat lon
      max_lat_delta max_lon_delta grid_size min_delta = Some (Ret ∅).
Proof.
  intros Hgrid Hmin.
  destruct (increments_ends lat lon max_lat_delta max_lon_delta grid_size Hgrid)
    as (fuel & lats & lons & Hrun & _).
  exists fuel. intros fuel' Hfuel.
  unfold makeNearbyKeys, nearbyCoordinates. rewrite (Hrun fuel' Hfuel).
  rewrite near_nonpositive_radius by exact Hmin. reflexivity.
Qed.

Lemma makeNearbyKeys_nonpositive_radius_witness :
  ∃ fuel, ∀ fuel', (fuel ≤ fuel')%nat →
    makeNearbyKeys Real.log10 Real.trunc Real.round Real.str_whole F64.str_int
      fuel' 49%R (-123)%R (2 / 100)%R (3 / 100)%R (1 / 100)%R 0%R = Some (Ret ∅).
Proof.
  apply (makeNearbyKeys_nonpositive_radius
           Real.log10 Real.trunc Real.round Real.str_whole F64.str_int); lra.
Defined.

(** ** fuzzyCoordinate, buildSpatialIndexFC *)

(** [round(x)] in exact arithmetic: an integer at most one half away. *)
Lemma Real_round_0_nearest (x : R) :
  ∃ n : Z, Real.round x 0 = IZR n ∧ (- (1 / 2) <= IZR n - x <= 1 / 2)%R.
Proof.
  unfold Real.round. cbn [powerRZ].
  destruct (base_Int_part (Rabs x * 1 + 1 / 2)) as [Hlo Hhi].
  set (n := Int_part (Rabs x * 1 + 1 / 2)) in *.
  destruct (Rle_dec 0 x) as [Hx | Hx].
  - exists n. rewrite Rabs_pos_eq in Hlo, Hhi by exact Hx.
    split; [field | lra].
  - exists (- n)%Z. rewrite Rabs_left in Hlo, Hhi by lra.
    rewrite opp_IZR. split; [field | lra].
Qed.

Lemma Real_round_0_interval (x : R) (n : Z) :
  (0 <= x)%R → (IZR n - 1 / 2 <= x < IZR n + 1 / 2)%R →
  Real.round x 0 = IZR n.
Proof.
  intros Hx Hn. unfold Real.round. cbn [powerRZ].
  destruct (Rle_dec 0 x) as [_ | Hneg]; [| lra].
  rewrite Rabs_pos_eq by exact Hx.
  rewrite <- (Int_part_spec (x * 1 + 1 / 2) n) by lra.
  field.
Qed.

Lemma set_add_In (x : R) (s : list R) (v : R) :
  In v (set_add x s) ↔ In v s ∨ v = x.
Proof.
  unfold set_add, py_in.
  destruct (existsb (λ y, neq x y) s) eqn:Hin.
  - split; [tauto |]. intros [Hv | ->]; [exact Hv |].
    apply existsb_exists in Hin. destruct Hin as (y & Hy & Heq).
    apply Real_eqb_true in Heq. subst y. exact Hy.
  - rewrite in_app_iff. simpl. intuition.
Qed.

(** X15.  In exact arithmetic: [fuzzyCoordinate] returns the coordinate
    and at most one more value; that value is the mirror image of the
    coordinate in a multiple of 1000 at most 50 away from it; and for a
    coordinate that is not negative and lies in [[1000 k - 50, 1000 k + 50)]
    the mirror image in [1000 k] is returned. *)
Theorem fuzzyCoordinate_mirrors_near_boundary (coord : R) :
  let fuzzy := fuzzyCoordinate Real.round coord in
  In coord fuzzy
  ∧ (length fuzzy ≤ 2)%nat
  ∧ (∀ v, In v fuzzy →
       v = coord
       ∨ ∃ k : Z, (Rabs (coord - 1000 * IZR k) <= 50)%R
                  ∧ v = (2 * (1000 * IZR k) - coord)%R)
  ∧ (∀ k : Z, (0 <= coord)%R →
       (1000 * IZR k - 50 <= coord < 1000 * IZR k + 50)%R →
       In (2 * (1000 * IZR k) - coord)%R fuzzy).
Proof.
  intros fuzzy. unfold fuzzy, fuzzyCoordinate. cbv zeta.
  change (set_add coord []) with [coord].
  cbn [nadd nsub nmul ndiv nmod neq of_Z R_PyNum].
  set (x_round := (Real.round (coord / 100) 0 * 100)%R).
  split; [| split; [| split]].
  - destruct (Real.eqb _ _); [apply set_add_In |]; simpl; tauto.
  - destruct (Real.eqb _ _); [| simpl; lia].
    unfold set_add. destruct (py_in _ _); simpl; lia.
  - intros v Hv. destruct (Real.eqb (Real.py_mod x_round 1000) 0) eqn:Hmod.
    + apply set_add_In in Hv. destruct Hv as [[-> | []] | ->]; [left; reflexivity |].
      right. apply Real_eqb_true in Hmod. unfold Real.py_mod in Hmod.
      exists (Int_part (x_round / 1000)).
      set (k := IZR (Int_part (x_round / 1000))) in *.
      destruct (Real_round_0_nearest (coord / 100)) as (n & Hn & Hnear).
      assert (Hx : x_round = (IZR n * 100)%R) by (unfold x_round; rewrite Hn; ring).
      split; [| lra].
      apply Rabs_le. lra.
    + destruct Hv as [-> | []]. left. reflexivity.
  - intros k Hpos Hk.
    assert (Hx : x_round = (0 + 1000 * IZR k)%R).
    { unfold x_round.
      rewrite (Real_round_0_interval (coord / 100) (10 * k)).
      - rewrite mult_IZR. ring.
      - apply Rmult_le_pos; [exact Hpos | lra].
      - rewrite mult_IZR. lra. }
    rewrite Hx, Real_py_mod_unique by lra.
    replace (Real.eqb 0 0) with true by (symmetry; apply Real_eqb_true; reflexivity).
    apply set_add_In. right. ring.
Qed.

Section IndexFC.

Context {N : Type} `{PyNum N}.
Variable round : N → Z → N.
Variable str : N → string.

Local Abbreviation fc_key x y :=
  (String.substring 0 5 (str x) +:+ ":" +:+ String.substring 0 4 (str y)).

Lemma fuzzyCoordinate_first (coord : N) :
  ∃ rest, fuzzyCoordinate round coord = coord :: rest.
Proof.
  unfold fuzzyCoordinate. cbv zeta. change (set_add coord []) with [coord].
  destruct (neq _ _); [| eauto].
  unfold set_add. destruct (py_in _ _); simpl; eauto.
Qed.

Lemma fc_record_keeps oid' i' xy idx key oid i :
  recorded key oid i idx → recorded key oid i (fc_record str oid' i' idx xy).
Proof.
  intros (by_oid & l & Hkey & Hoid & Hi).
  unfold fc_record. destruct xy as [x y].
  set (key' := fc_key x y).
  destruct (decide (key' = key)) as [-> | Hne].
  - rewrite Hkey.
    destruct (decide (oid' = oid)) as [-> | Hne'].
    + rewrite Hoid. exists (<[oid := l ++ [i']]> by_oid), (l ++ [i']).
      rewrite !lookup_insert_eq. split; [done |]. split; [done |].
      apply in_or_app. left. exact Hi.
    + destruct (by_oid !! oid') as [l' |].
      * exists (<[oid' := l' ++ [i']]> by_oid), l.
        rewrite lookup_insert_eq, lookup_insert_ne by done. done.
      * exists (<[oid' := [i']]> by_oid), l.
        rewrite lookup_insert_eq, lookup_insert_ne by done. done.
  - exists by_oid, l.
    destruct (idx !! key') as [by_oid' |];
      [destruct (by_oid' !! oid') |]; rewrite lookup_insert_ne by done; done.
Qed.

Lemma fc_record_records oid i x y idx :
  recorded (fc_key x y) oid i (fc_record str oid i idx (x, y)).
Proof.
  unfold fc_record. set (key := fc_key x y).
  destruct (idx !! key) as [by_oid |].
  - destruct (by_oid !! oid) as [l |].
    + exists (<[oid := l ++ [i]]> by_oid), (l ++ [i]).
      rewrite !lookup_insert_eq. split; [done |]. split; [done |].
      apply in_or_app. right. left. reflexivity.
    + exists (<[oid := [i]]> by_oid), [i].
      rewrite !lookup_insert_eq. split; [done |]. split; [done |]. left. reflexivity.
  - exists {[ oid := [i] ]}, [i].
    rewrite lookup_insert_eq, lookup_singleton_eq.
    split; [done |]. split; [done |]. left. reflexivity.
Qed.

Lemma fc_records_keep oid' i' xys idx key oid i :
  recorded key oid i idx →
  recorded key oid i (fold_left (fc_record str oid' i') xys idx).
Proof.
  revert idx. induction xys as [| xy xys IH]; intros idx Hrec; [exact Hrec |].
  simpl. apply IH, fc_record_keeps, Hrec.
Qed.

Lemma fc_row_loop_keeps oid' arr i' idx key oid i :
  recorded key oid i idx →
  recorded key oid i (fc_row_loop round str oid' arr i' idx).
Proof.
  revert i' idx. induction arr as [| pt arr IH]; intros i' idx Hrec; [exact Hrec |].
  simpl. apply IH, fc_records_keep, Hrec.
Qed.

Lemma fc_row_loop_records oid arr i0 idx i pt :
  arr !! i = Some pt →
  recorded (fc_key (X pt) (Y pt)) oid (i0 + i)
    (fc_row_loop round str oid arr i0 idx).
Proof.
  revert i0 idx i. induction arr as [| p arr IH]; intros i0 idx i Hpt; [done |].
  destruct i as [| i].
  - injection Hpt as ->. rewrite Nat.add_0_r. simpl.
    apply fc_row_loop_keeps.
    destruct (fuzzyCoordinate_first (X pt)) as [xs ->].
    destruct (fuzzyCoordinate_first (Y pt)) as [ys ->].
    simpl. apply fc_records_keep, fc_record_records.
  - simpl. replace (i0 + S i)%nat with (S i0 + i)%nat by lia.
    apply IH. exact Hpt.
Qed.

(** X16.  Whatever the numbers and their texts: in the index of
    [buildSpatialIndexFC] every vertex of every row is found under the key
    made of the first five characters of the text of its own x and the
    first four of its own y, and there under the object id of its row. *)
Theorem buildSpatialIndexFC_indexes_every_vertex
    (fc : list (nat * list (Point N))) (oid : nat) (arr : list (Point N))
    (i : nat) (pt : Point N) :
  In (oid, arr) fc → arr !! i = Some pt →
  ∃ by_oid vertices,
    buildSpatialIndexFC round str fc
      !! (String.substring 0 5 (str (X pt)) +:+ ":"
          +:+ String.substring 0 4 (str (Y pt))) = Some by_oid
    ∧ by_oid !! oid = Some vertices
    ∧ In i vertices.
Proof.
  intros Hrow Hpt. unfold buildSpatialIndexFC.
  assert (Hkeep : ∀ rows idx key oid i,
    recorded key oid i idx →
    recorded key oid i
      (fold_left (λ idx '(oid, arr), fc_row_loop round str oid arr 0 idx) rows idx)).
  { clear. induction rows as [| [oid' arr'] rows IH]; intros idx key oid i Hrec;
      [exact Hrec |].
    simpl. apply IH, fc_row_loop_keeps, Hrec. }
  generalize (∅ : gmap string (gmap nat (list nat))).
  induction fc as [| [oid' arr'] fc IH]; intros idx; [destruct Hrow |].
  destruct Hrow as [Heq | Hrow].
  - injection Heq as -> ->. simpl. apply Hkeep.
    apply (fc_row_loop_records oid arr 0 idx i pt Hpt).
  - simpl. apply IH. exact Hrow.
Qed.

End IndexFC.

(** One row of one vertex on binary64 floats: the x coordinate 1234950
    is 50 below a multiple of 1000 and is mirrored to 1235050. *)
Lemma buildSpatialIndexFC_indexes_every_vertex_witness :
  let pt := fpoint 1234950 567000 in
  let fc := [(7%nat, [pt])] in
  fuzzyCoordinate F64.round_tens (X pt) = [1234950%float; 1235050%float]
  ∧ ∃ by_oid vertices,
      buildSpatialIndexFC F64.round_tens F64.str_integral fc
        !! (String.substring 0 5 (F64.str_integral (X pt)) +:+ ":"
            +:+ String.substring 0 4 (F64.str_integral (Y pt))) = Some by_oid
      ∧ by_oid !! 7%nat = Some vertices
      ∧ In 0%nat vertices.
Proof.
  intros pt fc. split; [vm_compute; reflexivity |].
  apply (buildSpatialIndexFC_indexes_every_vertex
           F64.round_tens F64.str_integral fc 7%nat [pt] 0%nat pt).
  - left. reflexivity.
  - reflexivity.
Defined.

(** ** calcDistanceLL *)

(** The haversine term: a weighted mean of two squares, hence in
    [[0, 1]] for all arguments. *)
Lemma haversine_term (phi1 phi2 half_dlng : R) :
  let B := ((phi2 - phi1) / 2)%R in
  let a := (sin B * sin B
            + cos phi1 * cos phi2 * sin half_dlng * sin half_dlng)%R in
  (0 <= a <= 1)%R.
Proof.
  intros B a.
  set (A := ((phi1 + phi2) / 2)%R).
  assert (H1 : phi1 = (A - B)%R) by (unfold A, B; field).
  assert (H2 : phi2 = (A + B)%R) by (unfold A, B; field).
  assert (Hprod : (cos phi1 * cos phi2 = cos B * cos B - sin A * sin A)%R).
  { rewrite H1, H2, cos_minus, cos_plus.
    pose proof (sin2_cos2 A) as HA. pose proof (sin2_cos2 B) as HB.
    unfold Rsqr in HA, HB. nra. }
  unfold a. replace (cos phi1 * cos phi2 * sin half_dlng * sin half_dlng)%R
    with ((cos phi1 * cos phi2) * (sin half_dlng * sin half_dlng))%R by ring.
  rewrite Hprod.
  pose proof (sin2_cos2 A) as HA. pose proof (sin2_cos2 B) as HB.
  pose proof (sin2_cos2 half_dlng) as HL.
  unfold Rsqr in HA, HB, HL.
  set (sA := sin A) in *. set (cA := cos A) in *.
  set (sB := sin B) in *. set (cB := cos B) in *.
  set (sL := sin half_dlng) in *. set (cL := cos half_dlng) in *.
  assert (HsL : (0 <= sL * sL <= 1)%R) by nra.
  assert (HsB : (0 <= sB * sB <= 1)%R) by nra.
  assert (HcA : (0 <= cA * cA <= 1)%R) by nra.
  replace (sB * sB + (cB * cB - sA * sA) * (sL * sL))%R
    with (sB * sB * (1 - sL * sL) + cA * cA * (sL * sL))%R by nra.
  split; nra.
Qed.

Lemma Real_atan2_first_quadrant (y x : R) :
  (0 <= y)%R → (0 <= x)%R → (0 <= Real.atan2 y x <= PI / 2)%R.
Proof.
  intros Hy Hx. pose proof PI2_RGT_0 as Hpi. unfold Real.atan2.
  destruct (Rlt_dec 0 x) as [Hpos |].
  - pose proof (atan_bound (y / x)) as Hb.
    assert (0 <= y / x)%R.
    { apply Rmult_le_pos; [exact Hy |]. left. apply Rinv_0_lt_compat. exact Hpos. }
    assert (0 <= atan (y / x))%R.
    { rewrite <- atan_0. destruct (Req_dec (y / x) 0) as [-> | Hne]; [lra |].
      left. apply atan_increasing. lra. }
    lra.
  - destruct (Rlt_dec x 0); [lra |].
    destruct (Rlt_dec 0 y); [lra |]. destruct (Rlt_dec y 0); lra.
Qed.

(** X17.  In exact arithmetic, for all latitudes and longitudes:
    [calcDistanceLL] returns a distance (the arguments of its two square
    roots are never negative), the distance is between 0 and half the
    circumference of the sphere of radius 6371000, it is the same in both
    directions, and it is 0 from a point to itself. *)
Theorem calcDistanceLL_defined_bounded_symmetric (lat1 long1 lat2 long2 : R) :
  ∃ d,
    calcDistanceLL Real.atan2 sin cos lat1 long1 lat2 long2 = Ret d
    ∧ (0 <= d <= PI * 6371000)%R
    ∧ calcDistanceLL Real.atan2 sin cos lat2 long2 lat1 long1 = Ret d
    ∧ (lat1 = lat2 → long1 = long2 → d = 0%R).
Proof.
  assert (Hrun : ∀ lat1 long1 lat2 long2 : R,
    let a := (sin (radians (lat2 - lat1) / 2) * sin (radians (lat2 - lat1) / 2)
              + cos (radians lat1) * cos (radians lat2)
                * sin (radians (long2 - long1) / 2)
                * sin (radians (long2 - long1) / 2))%R in
    (0 <= a <= 1)%R
    ∧ calcDistanceLL Real.atan2 sin cos lat1 long1 lat2 long2
      = Ret (6371000 * (2 * Real.atan2 (sqrt a) (sqrt (1 - a))))%R).
  { intros la1 lo1 la2 lo2 a.
    assert (Ha : (0 <= a <= 1)%R).
    { unfold a.
      replace (radians (la2 - la1) / 2)%R
        with ((radians la2 - radians la1) / 2)%R
        by (unfold radians; cbn [nmul ndiv nsub of_Z npi R_PyNum]; field).
      apply haversine_term. }
    split; [exact Ha |].
    unfold calcDistanceLL, math_sqrt. cbv zeta.
    cbn [nadd nsub nmul ndiv nlt nsqrt of_Z R_PyNum]. fold a.
    replace (Real.ltb a 0) with false by (symmetry; apply Real_ltb_false; lra).
    cbn [bind].
    replace (Real.ltb (1 - a) 0) with false by (symmetry; apply Real_ltb_false; lra).
    reflexivity. }
  destruct (Hrun lat1 long1 lat2 long2) as [Ha Hd].
  destruct (Hrun lat2 long2 lat1 long1) as [_ Hd'].
  cbv zeta in Ha, Hd, Hd'.
  set (a := (sin (radians (lat2 - lat1) / 2) * sin (radians (lat2 - lat1) / 2)
             + cos (radians lat1) * cos (radians lat2)
               * sin (radians (long2 - long1) / 2)
               * sin (radians (long2 - long1) / 2))%R) in *.
  assert (Hneg : ∀ u v : R, (radians (u - v) / 2 = - (radians (v - u) / 2))%R).
  { intros u v. unfold radians. cbn [nmul ndiv nsub of_Z npi R_PyNum]. field. }
  assert (Hsym : (sin (radians (lat1 - lat2) / 2) * sin (radians (lat1 - lat2) / 2)
                  + cos (radians lat2) * cos (radians lat1)
                    * sin (radians (long1 - long2) / 2)
                    * sin (radians (long1 - long2) / 2))%R = a).
  { unfold a. rewrite (Hneg lat1 lat2), (Hneg long1 long2), !sin_neg. ring. }
  rewrite Hsym in Hd'.
  exists (6371000 * (2 * Real.atan2 (sqrt a) (sqrt (1 - a))))%R.
  split; [exact Hd |]. split; [| split; [exact Hd' |]].
  - pose proof (Real_atan2_first_quadrant (sqrt a) (sqrt (1 - a))
                  (sqrt_pos _) (sqrt_pos _)) as Hq.
    pose proof PI_RGT_0. nra.
  - intros -> ->.
    assert (Hz : a = 0%R).
    { unfold a. unfold radians. cbn [nmul ndiv nsub of_Z npi R_PyNum].
      replace ((lat2 - lat2) * (PI / 180) / 2)%R with 0%R by field.
      replace ((long2 - long2) * (PI / 180) / 2)%R with 0%R by field.
      rewrite sin_0. ring. }
    rewrite Hz, Rminus_0_r, sqrt_0, sqrt_1.
    unfold Real.atan2. destruct (Rlt_dec 0 1) as [_ | Hn]; [| lra].
    replace (0 / 1)%R with 0%R by field. rewrite atan_0. ring.
Qed.

(** ** extendLinesToIntersect: the table of intersections *)

(** X18.  The table that [extendLinesToIntersect] builds from the rows of
    the intersect output holds, for a line FID, the points of all rows with
    that FID, in the order of the rows and of the parts; a FID with no
    point has no entry, so a later lookup gives [None]. *)
Theorem index_intersections_groups_by_FID {N : Type}
    (rows : list (list (Point N) * nat)) (fid : nat) :
  index_intersections rows !! fid
  = match concat (map fst (List.filter (λ row, Nat.eqb (snd row) fid) rows)) with
    | [] => None
    | points => Some points
    end.
Proof.
  unfold index_intersections.
  assert (Hparts : ∀ (parts : list (Point N)) (fid' : nat)
                     (acc : gmap nat (list (Point N))),
    fold_left (λ (intersections : gmap nat (list (Point N))) ptGeom,
      let intersections :=
        match intersections !! fid' with
        | None => <[fid' := []]> intersections
        | Some _ => intersections
        end in
      alter (λ l, l ++ [ptGeom]) fid' intersections) parts acc !! fid
    = if Nat.eqb fid' fid
      then match parts with
           | [] => acc !! fid
           | _ => Some (default [] (acc !! fid) ++ parts)
           end
      else acc !! fid).
  { induction parts as [| p parts IH]; intros fid' acc.
    - simpl. destruct (Nat.eqb fid' fid); reflexivity.
    - cbn [fold_left]. rewrite IH. cbv zeta.
      destruct (Nat.eqb_spec fid' fid) as [-> | Hne].
      + destruct (acc !! fid) as [l |] eqn:Hacc.
        * rewrite lookup_alter_eq, Hacc. simpl.
          destruct parts; simpl; rewrite <- ?app_assoc; reflexivity.
        * rewrite lookup_alter_eq, lookup_insert_eq. simpl.
          destruct parts; reflexivity.
      + destruct (acc !! fid') as [l |] eqn:Hacc.
        * rewrite lookup_alter_ne by done. reflexivity.
        * rewrite lookup_alter_ne, lookup_insert_ne by done. reflexivity. }
  assert (Hrows : ∀ (rows : list (list (Point N) * nat))
                    (acc : gmap nat (list (Point N))),
    fold_left (λ intersections '(multiPointGeom, transectFID),
      fold_left (λ (intersections : gmap nat (list (Point N))) ptGeom,
        let intersections :=
          match intersections !! transectFID with
          | None => <[transectFID := []]> intersections
          | Some _ => intersections
          end in
        alter (λ l, l ++ [ptGeom]) transectFID intersections)
        multiPointGeom intersections) rows acc !! fid
    = match concat (map fst (List.filter (λ row, Nat.eqb (snd row) fid) rows)) with
      | [] => acc !! fid
      | points => Some (default [] (acc !! fid) ++ points)
      end).
  { clear rows. induction rows as [| [parts fid'] rows IH]; intros acc.
    - reflexivity.
    - cbn [fold_left]. rewrite IH, Hparts. cbn [List.filter snd].
      destruct (Nat.eqb fid' fid).
      + cbn [map fst concat].
        destruct parts as [| p parts]; [reflexivity |].
        cbn [default]. unfold Datatypes.id.
        destruct (concat _) eqn:Hrest.
        * rewrite app_nil_r. reflexivity.
        * cbn [app]. rewrite <- app_assoc. reflexivity.
      + reflexivity. }
  rewrite Hrows, lookup_empty. simpl.
  destruct (concat _); reflexivity.
Qed.

(** ** polygonReduction: what is returned *)

(** X19.  Whatever the numbers and the vendor tools: a feature class that
    [polygonReduction] returns has passed the test of its last activation
    (the width read from its bounding rectangle is not zero and length over
    width is below [reductionRatio]); it is the input itself or a result of
    the clip and select steps; reducing it again returns it unchanged; and
    a deeper recursion limit in the model changes nothing. *)
Theorem polygonReduction_result_passes_ratio_test
    {N : Type} `{PyNum N} {FC BasePts : Type}
    (MinimumBoundingGeometry : FC → list (N * N * list (Point N)))
    (clip_and_select : FC → list (list (Point N)) → BasePts → FC)
    (fuel : nat) (fc : FC) (reductionRatio : N) (basePts : BasePts) (result : FC) :
  polygonReduction FC BasePts MinimumBoundingGeometry clip_and_select
    fuel fc reductionRatio basePts = Some (Ret result) →
  (∃ width length,
     read_width_length (MinimumBoundingGeometry result) = (width, length)
     ∧ neq width (of_Z 0) = false
     ∧ nlt (ndiv length width) reductionRatio = true)
  ∧ (result = fc ∨ ∃ fc' rects, result = clip_and_select fc' rects basePts)
  ∧ (∀ n, polygonReduction FC BasePts MinimumBoundingGeometry clip_and_select
            (S n) result reductionRatio basePts = Some (Ret result))
  ∧ (∀ fuel', (fuel ≤ fuel')%nat →
       polygonReduction FC BasePts MinimumBoundingGeometry clip_and_select
         fuel' fc reductionRatio basePts = Some (Ret result)).
Proof.
  assert (Haccept : ∀ fc result,
    polygonReduction_body FC BasePts MinimumBoundingGeometry clip_and_select
      fc reductionRatio basePts = Accept result →
    result = fc
    ∧ ∃ width length,
        read_width_length (MinimumBoundingGeometry fc) = (width, length)
        ∧ neq width (of_Z 0) = false
        ∧ nlt (ndiv length width) reductionRatio = true).
  { clear. intros fc result. unfold polygonReduction_body.
    destruct (read_width_length (MinimumBoundingGeometry fc)) as [width length].
    destruct (neq width (of_Z 0)) eqn:Hwidth; [discriminate |].
    destruct (nlt (ndiv length width) reductionRatio) eqn:Hratio.
    - intros Heq. injection Heq as <-. eauto 6.
    - destruct (map snd (MinimumBoundingGeometry fc)) as [| rect0 rest];
        [discriminate |].
      destruct (splitRectangle rect0); discriminate. }
  assert (Hsplit : ∀ fc fcCut,
    polygonReduction_body FC BasePts MinimumBoundingGeometry clip_and_select
      fc reductionRatio basePts = Split fcCut →
    ∃ rects, fcCut = clip_and_select fc rects basePts).
  { clear. intros fc fcCut. unfold polygonReduction_body.
    destruct (read_width_length (MinimumBoundingGeometry fc)) as [width length].
    destruct (neq width (of_Z 0)); [discriminate |].
    destruct (nlt (ndiv length width) reductionRatio); [discriminate |].
    destruct (map snd (MinimumBoundingGeometry fc)) as [| rect0 rest];
      [discriminate |].
    destruct (splitRectangle rect0) as [rects | e]; [| discriminate].
    intros Heq. injection Heq as <-. eauto. }
  revert fc. induction fuel as [| fuel IH]; intros fc Hrun; [discriminate |].
  cbn [polygonReduction] in Hrun.
  destruct (polygonReduction_body FC BasePts MinimumBoundingGeometry
              clip_and_select fc reductionRatio basePts) as [fc0 | fcCut | e]
    eqn:Hbody.
  - injection Hrun as <-.
    destruct (Haccept _ _ Hbody) as [-> Htest].
    split; [exact Htest |]. split; [left; reflexivity |]. split.
    + intros n. cbn [polygonReduction]. rewrite Hbody. reflexivity.
    + intros [| fuel'] Hle; [lia |]. cbn [polygonReduction].
      rewrite Hbody. reflexivity.
  - destruct (IH fcCut Hrun) as (Htest & Horigin & Hagain & Hmore).
    split; [exact Htest |]. split; [| split; [exact Hagain |]].
    + right. destruct Horigin as [-> | Hclip]; [| exact Hclip].
      destruct (Hsplit _ _ Hbody) as [rects ->]. eauto.
    + intros [| fuel'] Hle; [lia |]. cbn [polygonReduction].
      rewrite Hbody. apply Hmore. lia.
  - discriminate.
Qed.

(** The 8 by 1 rectangle with [reductionRatio] 3 on binary64 floats: two
    cuts, and the 2 by 1 rectangle that is left is returned. *)
Lemma polygonReduction_result_passes_ratio_test_witness :
  let result := [fpoint 0 0; fpoint 2 0; fpoint 2 1; fpoint 0 1; fpoint 0 0] in
  (∃ width length,
     read_width_length (Demo.rectangle_mbg result) = (width, length)
     ∧ neq width (of_Z 0) = false
     ∧ nlt (ndiv length width) 3%float = true)
  ∧ (result = Demo.rectangle_8_by_1
     ∨ ∃ fc' rects, result = Demo.keep_first_half fc' rects tt)
  ∧ (∀ n, polygonReduction _ _ Demo.rectangle_mbg Demo.keep_first_half
            (S n) result 3%float tt = Some (Ret result))
  ∧ (∀ fuel', (3 ≤ fuel')%nat →
       polygonReduction _ _ Demo.rectangle_mbg Demo.keep_first_half
         fuel' Demo.rectangle_8_by_1 3%float tt = Some (Ret result)).
Proof.
  intros result.
  apply (polygonReduction_result_passes_ratio_test
           Demo.rectangle_mbg Demo.keep_first_half 3
           Demo.rectangle_8_by_1 3%float tt result).
  vm_compute. reflexivity.
Defined.

(** ** remove_holes *)

Lemma outer_ring_part_spec {N : Type} (part : list (option (Point N)))
    (arr : list (Point N)) :
  (∃ pts, part = map Some pts ∧ outer_ring_part part arr = (arr ++ pts, false))
  ∨ (∃ pts rest, part = map Some pts ++ None :: rest
                 ∧ outer_ring_part part arr = (arr ++ pts, true)).
Proof.
  revert arr. induction part as [| [p |] part IH]; intros arr.
  - left. exists []. rewrite app_nil_r. done.
  - destruct (IH (arr ++ [p])) as [(pts & -> & Hrun) | (pts & rest & -> & Hrun)].
    + left. exists (p :: pts). simpl. rewrite Hrun, <- app_assoc. done.
    + right. exists (p :: pts), rest. simpl. rewrite Hrun, <- app_assoc. done.
  - right. exists [], part. rewrite app_nil_r. done.
Qed.

Lemma outer_ring_spec {N : Type} (geom : list (list (option (Point N))))
    (arr : list (Point N)) :
  (∃ pts, concat geom = map Some pts ∧ outer_ring geom arr = None)
  ∨ (∃ pts rest, concat geom = map Some pts ++ None :: rest
                 ∧ outer_ring geom arr = Some (arr ++ pts)).
Proof.
  revert arr. induction geom as [| part geom IH]; intros arr.
  - left. exists []. done.
  - simpl.
    destruct (outer_ring_part_spec part arr)
      as [(pts & -> & ->) | (pts & rest & -> & ->)].
    + destruct (IH (arr ++ pts)) as [(pts' & Hc & ->) | (pts' & rest & Hc & ->)].
      * left. exists (pts ++ pts'). rewrite Hc, map_app. done.
      * right. exists (pts ++ pts'), rest.
        rewrite Hc, map_app, <- !app_assoc. done.
    + right. exists pts, (rest ++ concat geom). rewrite <- app_assoc. done.
Qed.

Lemma first_null_unique {N : Type} (outer outer' : list (Point N))
    (rest rest' : list (option (Point N))) :
  map Some outer ++ None :: rest = map Some outer' ++ None :: rest' →
  outer = outer'.
Proof.
  revert outer'. induction outer as [| p outer IH]; intros [| p' outer'] Heq;
    simpl in Heq; try discriminate; [reflexivity |].
  injection Heq as -> Heq. f_equal. apply IH. exact Heq.
Qed.

(** X20.  [remove_holes] returns a geometry that is not a polygon as it
    is, with the flag [False], whatever its parts hold; and a polygon with
    no null point in its parts likewise.  For a polygon with a null point
    it returns, with the flag [True], the polygon of one part that holds
    the points met before the first null point, over all parts in order.
    What it returns has no null point: applied again, it changes
    nothing. *)
Theorem remove_holes_keeps_points_before_first_null {N : Type} :
  (∀ parts : list (list (option (Point N))),
     remove_holes (NotPolygon parts) = (NotPolygon parts, false))
  ∧ (∀ (parts : list (list (option (Point N)))) (points : list (Point N)),
       concat parts = map Some points →
       remove_holes (Polygon parts) = (Polygon parts, false))
  ∧ (∀ (parts : list (list (option (Point N)))) (outer : list (Point N))
       (rest : list (option (Point N))),
       concat parts = map Some outer ++ None :: rest →
       remove_holes (Polygon parts) = (Polygon [map Some outer], true))
  ∧ (∀ geom : Geometry N,
       remove_holes (fst (remove_holes geom))
       = (fst (remove_holes geom), false)).
Proof.
  assert (Hnone : ∀ (pts outer : list (Point N)) rest,
            map Some pts ≠ map Some outer ++ None :: rest).
  { intros pts outer rest Heq.
    assert (Hin : In None (map Some pts)).
    { rewrite Heq. apply in_or_app. right. left. reflexivity. }
    apply in_map_iff in Hin. destruct Hin as (p & Hp & _). discriminate. }
  assert (Hwhole : ∀ (parts : list (list (option (Point N)))) points,
            concat parts = map Some points →
            remove_holes (Polygon parts) = (Polygon parts, false)).
  { intros parts points Hc. cbn [remove_holes].
    destruct (outer_ring_spec parts []) as [(q & _ & ->) | (q & rest & Hc' & _)];
      [reflexivity |].
    rewrite Hc in Hc'. destruct (Hnone _ _ _ Hc'). }
  assert (Hcut : ∀ (parts : list (list (option (Point N)))) outer rest,
            concat parts = map Some outer ++ None :: rest →
            remove_holes (Polygon parts) = (Polygon [map Some outer], true)).
  { intros parts outer rest Hc. cbn [remove_holes].
    destruct (outer_ring_spec parts []) as [(q & Hc' & _) | (q & rest' & Hc' & ->)].
    - rewrite Hc in Hc'. symmetry in Hc'. destruct (Hnone _ _ _ Hc').
    - rewrite Hc in Hc'. rewrite (first_null_unique _ _ _ _ Hc'). reflexivity. }
  split; [reflexivity |]. split; [exact Hwhole |]. split; [exact Hcut |].
  intros [parts | parts]; [| reflexivity].
  destruct (outer_ring_spec parts []) as [(q & Hc & _) | (q & rest & Hc & _)].
  - rewrite (Hwhole parts q Hc). cbn [fst]. apply (Hwhole parts q Hc).
  - rewrite (Hcut parts q rest Hc). cbn [fst].
    apply (Hwhole [map Some q] q). simpl. apply app_nil_r.
Qed.

(** ** Field lists: the geometry tokens *)

Lemma getShapeGeomToken_map (fieldList : list string) :
  getShapeGeomToken fieldList
  = map (λ field, if String.eqb (upper field) "SHAPE" then "SHAPE@" else field)
      fieldList.
Proof.
  set (g := λ field : string,
              if String.eqb (upper field) "SHAPE" then "SHAPE@" else field).
  unfold getShapeGeomToken.
  assert (Hloop : ∀ n k (cur : list string),
    (k + n = length fieldList)%nat →
    length cur = length fieldList →
    (∀ i, cur !! i = if (i <? k)%nat then g <$> fieldList !! i else fieldList !! i) →
    fold_left (λ fieldList i,
                 match fieldList !! i with
                 | Some field =>
                     if String.eqb (upper field) "SHAPE"
                     then <[i := "SHAPE@"]> fieldList
                     else fieldList
                 | None => fieldList
                 end) (seq k n) cur
    = map g fieldList).
  { induction n as [| n IH]; intros k cur Hk Hlen Hcur.
    - simpl. apply list_eq. intros i. rewrite Hcur, list_lookup_fmap.
      destruct (Nat.ltb_spec i k) as [_ | Hge]; [reflexivity |].
      rewrite (lookup_ge_None_2 fieldList i) by lia. reflexivity.
    - cbn [seq fold_left].
      assert (Hat : cur !! k = fieldList !! k).
      { rewrite Hcur. rewrite Nat.ltb_irrefl. reflexivity. }
      destruct (lookup_lt_is_Some_2 fieldList k) as [field Hfield]; [lia |].
      rewrite Hat, Hfield.
      apply IH; [lia | |].
      + destruct (String.eqb (upper field) "SHAPE"); [| exact Hlen].
        rewrite length_insert. exact Hlen.
      + intros i. destruct (decide (i = k)) as [-> | Hne].
        * replace (k <? S k)%nat with true by (symmetry; apply Nat.ltb_lt; lia).
          rewrite Hfield. cbn [fmap option_fmap option_map]. unfold g.
          destruct (String.eqb (upper field) "SHAPE") eqn:Hshape.
          -- apply list_lookup_insert_eq. lia.
          -- rewrite Hat. exact Hfield.
        * assert (Hother : (if String.eqb (upper field) "SHAPE"
                            then <[k := "SHAPE@"]> cur else cur) !! i = cur !! i).
          { destruct (String.eqb (upper field) "SHAPE"); [| reflexivity].
            apply list_lookup_insert_ne. congruence. }
          rewrite Hother, Hcur.
          destruct (Nat.ltb_spec i k), (Nat.ltb_spec i (S k)); try lia; reflexivity. }
  apply (Hloop (length fieldList) 0%nat fieldList); [lia | reflexivity |].
  intros i. reflexivity.
Qed.

(** X21.  [getShapeGeomToken] replaces, in place, exactly the fields
    spelled [shape] in any mix of upper and lower case by ['SHAPE@'] and
    leaves no such field.  [addShapeGeomToken] makes sure of the token
    without ever repeating it.  Together: after
    [addShapeGeomToken(getShapeGeomToken(fields))] the token stands where
    the first shape field stood, and in front when there was none. *)
Theorem shape_token_placed_once (fieldList : list string) :
  let shape field := String.eqb (upper field) "SHAPE" in
  getShapeGeomToken fieldList
  = map (λ field, if shape field then "SHAPE@" else field) fieldList
  ∧ Forall (λ field, shape field = false) (getShapeGeomToken fieldList)
  ∧ "SHAPE@" ∈ addShapeGeomToken fieldList
  ∧ addShapeGeomToken (addShapeGeomToken fieldList) = addShapeGeomToken fieldList
  ∧ addShapeGeomToken (getShapeGeomToken fieldList)
    = (if existsb (λ field, shape field || String.eqb field "SHAPE@") fieldList
       then getShapeGeomToken fieldList
       else "SHAPE@" :: fieldList).
Proof.
  intros shape. subst shape. cbv beta.
  split; [apply getShapeGeomToken_map |].
  rewrite getShapeGeomToken_map.
  assert (Hin : ∀ l : list string, "SHAPE@" ∈ addShapeGeomToken l).
  { intros l. unfold addShapeGeomToken.
    destruct (bool_decide ("SHAPE@" ∈ l)) eqn:Hd; cbn [negb].
    - apply bool_decide_eq_true in Hd. exact Hd.
    - apply list_elem_of_here. }
  split; [| split; [apply Hin | split]].
  - apply Forall_forall. intros field Hfield.
    apply list_elem_of_In, in_map_iff in Hfield. destruct Hfield as (f & <- & _).
    destruct (String.eqb (upper f) "SHAPE") eqn:Hf; [reflexivity | exact Hf].
  - unfold addShapeGeomToken at 1.
    rewrite (bool_decide_eq_true_2 _ (Hin fieldList)). reflexivity.
  - set (g := λ field : string,
                if String.eqb (upper field) "SHAPE" then "SHAPE@" else field).
    set (P := λ field : string,
                String.eqb (upper field) "SHAPE" || String.eqb field "SHAPE@").
    assert (Hg : ∀ field, g field = "SHAPE@" ↔ P field = true).
    { intros field. unfold g, P.
      destruct (String.eqb (upper field) "SHAPE"); [done |].
      cbn [orb]. destruct (String.eqb_spec field "SHAPE@"); done. }
    unfold addShapeGeomToken.
    destruct (existsb P fieldList) eqn:Hex.
    + apply existsb_exists in Hex. destruct Hex as (field & Hfield & HP).
      rewrite bool_decide_eq_true_2; [reflexivity |].
      apply list_elem_of_In, in_map_iff. exists field.
      split; [apply Hg; exact HP | exact Hfield].
    + assert (Hsame : map g fieldList = fieldList).
      { clear -Hex Hg. induction fieldList as [| field fieldList IH]; [reflexivity |].
        cbn [existsb] in Hex. apply orb_false_iff in Hex. destruct Hex as [HP Hex].
        cbn [map]. rewrite (IH Hex). f_equal.
        unfold g. unfold P in HP. apply orb_false_iff in HP.
        destruct HP as [-> _]. reflexivity. }
      rewrite bool_decide_eq_false_2; [cbn [negb]; rewrite Hsame; reflexivity |].
      rewrite Hsame. intros Hel. apply list_elem_of_In in Hel.
      assert (Hfalse : existsb P fieldList = true).
      { apply existsb_exists. exists "SHAPE@". split; [exact Hel | reflexivity]. }
      congruence.
Qed.

Example getShapeGeomToken_mixed_case :
  getShapeGeomToken ["OBJECTID"; "Shape"; "NAME"] = ["OBJECTID"; "SHAPE@"; "NAME"]
  ∧ addShapeGeomToken (getShapeGeomToken ["OBJECTID"; "NAME"])
    = ["SHAPE@"; "OBJECTID"; "NAME"].
Proof. split; reflexivity. Qed.

(** ** getSmartRow, setSmartRow *)

Section SmartRows.

Context {V : Type}.
Variable fields : list string.
Variable row : list V.
Hypothesis fields_NoDup : NoDup fields.

Lemma index_NoDup (i : nat) (field : string) :
  fields !! i = Some field → index fields field = Ret i.
Proof.
  intros Hi. unfold index.
  destruct (list_find (λ f, f = field) fields) as [[j f] |] eqn:Hfind.
  - apply list_find_Some in Hfind. destruct Hfind as (Hj & -> & _).
    rewrite (NoDup_lookup fields i j field fields_NoDup Hi Hj). reflexivity.
  - apply list_find_None in Hfind. rewrite Forall_forall in Hfind.
    exfalso. apply (Hfind field); [| reflexivity].
    apply list_elem_of_lookup. eauto.
Qed.

(** The dictionary after the first [k] fields. *)
Lemma getSmartRow_loop (m k : nat) (rowDict : gmap string V) :
  (k + m = length row)%nat → (length row ≤ length fields)%nat →
  (∀ field value, rowDict !! field = Some value
     ↔ ∃ i, (i < k)%nat ∧ fields !! i = Some field ∧ row !! i = Some value) →
  ∃ rowDict',
    fold_left (λ rowDict i,
                 bind rowDict (λ rowDict,
                   match row !! i, fields !! i with
                   | Some value, Some field => Ret (<[field := value]> rowDict)
                   | _, _ => Raise IndexError
                   end)) (seq k m) (Ret rowDict) = Ret rowDict'
    ∧ ∀ field value, rowDict' !! field = Some value
        ↔ ∃ i, (i < length row)%nat ∧ fields !! i = Some field
               ∧ row !! i = Some value.
Proof.
  revert k rowDict. induction m as [| m IH]; intros k rowDict Hk Hlen Hdict.
  - exists rowDict. split; [reflexivity |].
    replace (length row) with k by lia. exact Hdict.
  - cbn [seq fold_left bind].
    destruct (lookup_lt_is_Some_2 row k) as [value Hvalue]; [lia |].
    destruct (lookup_lt_is_Some_2 fields k) as [field Hfield]; [lia |].
    rewrite Hvalue, Hfield. apply IH; [lia | exact Hlen |].
    intros f v. destruct (decide (f = field)) as [-> | Hne].
    + rewrite lookup_insert_eq. split.
      * intros Heq. injection Heq as <-. exists k. split; [lia | done].
      * intros (i & _ & Hf & Hv).
        rewrite (NoDup_lookup fields i k field fields_NoDup Hf Hfield) in Hv.
        congruence.
    + rewrite lookup_insert_ne by done. rewrite Hdict. split.
      * intros (i & Hi & Hf & Hv). exists i. split; [lia | done].
      * intros (i & Hi & Hf & Hv). exists i. split; [| done].
        destruct (decide (i = k)) as [-> | Hik]; [congruence | lia].
Qed.

(** The positions after some of the names. *)
Lemma setSmartRow_loop (names : list (string * V)) (positionList : gmap nat V) :
  (∀ field value, (field, value) ∈ names →
     ∃ i, fields !! i = Some field ∧ row !! i = Some value) →
  (∀ j value, positionList !! j = Some value → row !! j = Some value) →
  ∃ positionList',
    fold_left (λ positionList '(fieldName, value),
                 bind positionList (λ positionList,
                 bind (index fields fieldName) (λ findex,
                   Ret (<[findex := value]> positionList))))
      names (Ret positionList) = Ret positionList'
    ∧ (∀ j value, positionList' !! j = Some value → row !! j = Some value)
    ∧ (∀ j value, positionList !! j = Some value →
                  positionList' !! j = Some value)
    ∧ (∀ field value, (field, value) ∈ names →
         ∃ i, fields !! i = Some field ∧ positionList' !! i = Some value).
Proof.
  revert positionList.
  induction names as [| [field value] names IH]; intros positionList Hnames Hpos.
  - exists positionList. split; [reflexivity |]. split; [exact Hpos |].
    split; [done |]. intros f v Hin. apply elem_of_nil in Hin. done.
  - destruct (Hnames field value) as (i & Hfield & Hvalue);
      [apply list_elem_of_here |].
    cbn [fold_left bind]. rewrite (index_NoDup i field Hfield). cbn [bind].
    destruct (IH (<[i := value]> positionList)) as (P & Hrun & Hrow & Hkeep & Hall).
    + intros f v Hin. apply Hnames. apply list_elem_of_further. exact Hin.
    + intros j v. destruct (decide (j = i)) as [-> | Hne].
      * rewrite lookup_insert_eq. congruence.
      * rewrite lookup_insert_ne by done. apply Hpos.
    + exists P. split; [exact Hrun |]. split; [exact Hrow |]. split.
      * intros j v Hj. apply Hkeep.
        destruct (decide (j = i)) as [-> | Hne].
        -- rewrite lookup_insert_eq. f_equal.
           apply Hpos in Hj. congruence.
        -- rewrite lookup_insert_ne by done. exact Hj.
      * intros f v Hin. apply elem_of_cons in Hin.
        destruct Hin as [Heq | Hin]; [| apply Hall; exact Hin].
        injection Heq as -> ->. exists i. split; [exact Hfield |].
        apply Hkeep. apply lookup_insert_eq.
Qed.

Lemma Sorted_seq (k n : nat) : Sorted le (seq k n).
Proof.
  revert k. induction n as [| n IH]; intros k; [constructor |].
  cbn [seq]. constructor; [apply IH |].
  destruct n; constructor. lia.
Qed.

Lemma row_from_positions (positionList : gmap nat V) (m k : nat) (rowList : list V) :
  (∀ j, positionList !! j = row !! j) →
  fold_left (λ rowList key,
               match positionList !! key with
               | Some value => rowList ++ [value]
               | None => rowList
               end) (seq k m) rowList
  = rowList ++ take m (drop k row).
Proof.
  intros Hpos. revert k rowList. induction m as [| m IH]; intros k rowList.
  - simpl. rewrite app_nil_r. reflexivity.
  - cbn [seq fold_left]. rewrite IH, Hpos.
    destruct (row !! k) as [value |] eqn:Hk.
    + rewrite (drop_S row value k Hk). cbn [take].
      rewrite <- app_assoc. reflexivity.
    + apply lookup_ge_None in Hk.
      rewrite !drop_ge by lia. rewrite !take_nil. reflexivity.
Qed.

End SmartRows.

(** X22.  For field names without repetition and a row no longer than
    the field list: [getSmartRow] returns a dictionary that gives, under
    every field name in reach, the value at the same position of the row,
    and [setSmartRow] of that dictionary gives the row back.  A row longer
    than the field list raises [IndexError]. *)
Theorem setSmartRow_getSmartRow_round_trip {V : Type}
    (fields : list string) (row : list V) :
  NoDup fields →
  ((length row ≤ length fields)%nat →
   ∃ smartRow,
     getSmartRow fields row = Ret smartRow
     ∧ (∀ i field, (i < length row)%nat → fields !! i = Some field →
          smartRow !! field = row !! i)
     ∧ setSmartRow fields smartRow = Ret row)
  ∧ ((length fields < length row)%nat →
     getSmartRow fields row = Raise IndexError).
Proof.
  intros Hnodup. split.
  - intros Hlen.
    destruct (getSmartRow_loop fields row Hnodup (length row) 0 ∅)
      as (smartRow & Hget & Hdict); [lia | exact Hlen | |].
    { intros f v. rewrite lookup_empty. split; [done |].
      intros (i & Hi & _). lia. }
    exists smartRow. split; [exact Hget |]. split.
    + intros i field Hi Hfield.
      destruct (lookup_lt_is_Some_2 row i Hi) as [value Hvalue].
      rewrite Hvalue. apply Hdict. eauto.
    + unfold setSmartRow. cbv zeta.
      destruct (setSmartRow_loop fields row Hnodup (map_to_list smartRow) ∅)
        as (P & Hrun & Hrow & _ & Hall).
      { intros f v Hin. apply elem_of_map_to_list in Hin.
        apply Hdict in Hin. destruct Hin as (i & _ & Hf & Hv). eauto. }
      { intros j v. rewrite lookup_empty. done. }
      rewrite Hrun. cbn [bind].
      assert (Hpos : ∀ j, P !! j = row !! j).
      { intros j. destruct (row !! j) as [value |] eqn:Hj.
        - assert (Hlt : (j < length row)%nat) by (apply lookup_lt_is_Some; eauto).
          destruct (lookup_lt_is_Some_2 fields j) as [field Hfield]; [lia |].
          destruct (Hall field value) as (i & Hi & HP).
          { apply elem_of_map_to_list, Hdict. eauto. }
          rewrite (NoDup_lookup fields j i field Hnodup Hfield Hi). exact HP.
        - destruct (P !! j) as [value |] eqn:HP; [| reflexivity].
          apply Hrow in HP. congruence. }
      assert (Hkeys : merge_sort le (map fst (map_to_list P)) = seq 0 (length row)).
      { apply (Sorted_unique le).
        - apply (Sorted_merge_sort le).
        - apply Sorted_seq.
        - rewrite merge_sort_Permutation.
          apply NoDup_Permutation.
          + apply NoDup_fst_map_to_list.
          + apply NoDup_seq.
          + intros j. rewrite elem_of_seq. split.
            * intros Hj. apply list_elem_of_fmap in Hj.
              destruct Hj as ([j' v] & -> & Hin).
              apply elem_of_map_to_list in Hin. cbn [fst].
              rewrite Hpos in Hin.
              assert ((j' < length row)%nat) by (apply lookup_lt_is_Some; eauto).
              lia.
            * intros Hj.
              destruct (lookup_lt_is_Some_2 row j) as [value Hvalue]; [lia |].
              apply list_elem_of_fmap. exists (j, value). split; [reflexivity |].
              apply elem_of_map_to_list. rewrite Hpos. exact Hvalue. }
      rewrite Hkeys, (row_from_positions row P (length row) 0 [] Hpos).
      cbn [app drop]. rewrite firstn_all. reflexivity.
  - intros Hlen. unfold getSmartRow.
    assert (Hfail : ∀ l, fold_left (λ rowDict i,
                 bind rowDict (λ rowDict : gmap string V,
                   match row !! i, fields !! i with
                   | Some value, Some field => Ret (<[field := value]> rowDict)
                   | _, _ => Raise IndexError
                   end)) l (Raise IndexError) = Raise IndexError).
    { induction l as [| i l IH]; [reflexivity | exact IH]. }
    replace (length row) with (length fields + S (length row - length fields - 1))%nat
      by lia.
    rewrite seq_app, fold_left_app.
    destruct (getSmartRow_loop fields (take (length fields) row) Hnodup
                (length fields) 0 ∅) as (d & Hrun & _).
    { rewrite length_take. lia. }
    { rewrite length_take. lia. }
    { intros f v. rewrite lookup_empty. split; [done |]. intros (i & Hi & _). lia. }
    assert (Hprefix :
      fold_left (λ rowDict i,
                 bind rowDict (λ rowDict : gmap string V,
                   match row !! i, fields !! i with
                   | Some value, Some field => Ret (<[field := value]> rowDict)
                   | _, _ => Raise IndexError
                   end)) (seq 0 (length fields)) (Ret ∅) = Ret d).
    { rewrite <- Hrun. clear -Hlen.
      generalize (Ret (∅ : gmap string V)).
      assert (Hin : ∀ i, i ∈ seq 0 (length fields) → (i < length fields)%nat)
        by (intros i Hi; apply elem_of_seq in Hi; lia).
      induction (seq 0 (length fields)) as [| i l IH]; intros acc; [reflexivity |].
      cbn [fold_left]. rewrite lookup_take_lt by (apply Hin, list_elem_of_here).
      apply IH. intros j Hj. apply Hin, list_elem_of_further, Hj. }
    rewrite Hprefix. cbn [seq fold_left bind Nat.add].
    rewrite (lookup_ge_None_2 fields (length fields)) by lia.
    destruct (row !! length fields); apply Hfail.
Qed.

Lemma setSmartRow_getSmartRow_round_trip_witness :
  let fields := ["OID@"; "NAME"; "AREA"] in
  let row := [7%Z; 8%Z; 9%Z] in
  ((length row ≤ length fields)%nat →
   ∃ smartRow,
     getSmartRow fields row = Ret smartRow
     ∧ (∀ i field, (i < length row)%nat → fields !! i = Some field →
          smartRow !! field = row !! i)
     ∧ setSmartRow fields smartRow = Ret row)
  ∧ ((length fields < length row)%nat →
     getSmartRow fields row = Raise IndexError).
Proof.
  intros fields row.
  apply (setSmartRow_getSmartRow_round_trip fields row).
  unfold fields. repeat (apply NoDup_cons; split; [intros Hin;
    repeat (apply elem_of_cons in Hin; destruct Hin as [Heq | Hin];
            [discriminate |]); apply elem_of_nil in Hin; exact Hin |]).
  apply NoDup_nil. exact I.
Defined.

(** ** getAzimuth of a flipped line *)

(** X23.  In exact arithmetic, for a line whose first and last points
    differ: the azimuth of the flipped line is the azimuth of the line plus
    180, reduced by [% 360], which is the value [extendLineAlongAzimuth]
    computes for direction ['OPPOSITE'].  (A line whose end points coincide
    has azimuth 0 in both directions.) *)
Theorem getAzimuth_flipLine_opposite (geom : Polyline R) :
  firstPoint geom ≠ lastPoint geom →
  getAzimuth Real.atan2 (flipLine geom)
  = ((getAzimuth Real.atan2 geom + of_Z 180) mod of_Z 360)%py.
Proof.
  intros Hne.
  assert (Hne' : firstPoint (flipLine geom) ≠ lastPoint (flipLine geom)).
  { unfold flipLine. cbn [firstPoint lastPoint]. congruence. }
  destruct (getAzimuth_sin_cos geom Hne) as (HL & Hs & Hc).
  destruct (getAzimuth_sin_cos (flipLine geom) Hne') as (_ & Hs' & Hc').
  change (firstPoint (flipLine geom)) with (lastPoint geom) in Hs', Hc'.
  change (lastPoint (flipLine geom)) with (firstPoint geom) in Hs', Hc'.
  rewrite (planar_distance_sym (lastPoint geom) (firstPoint geom)) in Hs', Hc'.
  set (L := planar_distance (firstPoint geom) (lastPoint geom)) in *.
  set (az := getAzimuth Real.atan2 geom) in *.
  set (az' := getAzimuth Real.atan2 (flipLine geom)) in *.
  set (target := ((az + of_Z 180) mod of_Z 360)%py).
  assert (Hrange' : (0 <= az' < 360)%R)
    by apply (getAzimuth_exact_range Real.atan2 (flipLine geom)).
  assert (Hrange : (0 <= target < 360)%R) by (apply Real_py_mod_range; lra).
  destruct (radians_mod_360 (az + of_Z 180)%py) as [Hms Hmc].
  destruct (radians_plus_180 az) as [Hps Hpc].
  fold target in Hms, Hmc.
  assert (Hsin : sin (radians az') = sin (radians target)).
  { rewrite Hms, Hps, Hs, Hs'. field. lra. }
  assert (Hcos : cos (radians az') = cos (radians target)).
  { rewrite Hmc, Hpc, Hc, Hc'. field. lra. }
  destruct (angle_unique _ _ Hsin Hcos) as [k Hk].
  assert (Hdeg : az' = (target + 360 * IZR k)%R).
  { unfold radians in Hk. cbn [nmul ndiv of_Z npi R_PyNum] in Hk.
    pose proof PI_RGT_0 as Hpi.
    apply (Rmult_eq_reg_r (PI / 180)); [| lra].
    rewrite Hk. field. }
  assert (Hself : Real.py_mod (az' + 360 * IZR 0) 360 = az')
    by (apply Real_py_mod_unique; exact Hrange').
  replace (az' + 360 * IZR 0)%R with az' in Hself by (simpl; ring).
  assert (Htarget : Real.py_mod (target + 360 * IZR k) 360 = target)
    by (apply Real_py_mod_unique; exact Hrange).
  rewrite <- Hdeg in Htarget.
  change (az' = target). congruence.
Qed.

Lemma getAzimuth_flipLine_opposite_witness :
  let geom := segment (mkPoint 0%R 0%R) (mkPoint 3%R 4%R) in
  getAzimuth Real.atan2 (flipLine geom)
  = ((getAzimuth Real.atan2 geom + of_Z 180) mod of_Z 360)%py.
Proof.
  intros geom. apply (getAzimuth_flipLine_opposite geom).
  simpl. intros Heq. inversion Heq. lra.
Defined.

(** ** logs.py: the numbered levels *)

(** X24.  After [set_level_num(n)] with [n] from 1 to 5, a message sent
    with [p1], ..., [p5] is handled exactly when the number of the method
    is at most [n], and then once, at the level of the method; the level
    stays as set.  With any other [n], [set_level_num] changes nothing. *)
Theorem set_level_num_lets_through_up_to (n : Z) (msg : string)
    (self : Logs.ArcLogger) :
  let after := Logs.set_level_num n self in
  let sent (k lvl : Z) (p : string → Logs.ArcLogger → Logs.ArcLogger) :=
    Logs.handled (p msg after)
    = (if (k <=? n)%Z then Logs.handled self ++ [(lvl, msg)]
       else Logs.handled self)
    ∧ Logs.level (p msg after) = Logs.level after in
  ((1 <= n <= 5)%Z →
   Logs.level after = (60 - 10 * n)%Z
   ∧ sent 1%Z Logs.CRITICAL Logs.p1
   ∧ sent 2%Z Logs.ERROR Logs.p2
   ∧ sent 3%Z Logs.WARNING Logs.p3
   ∧ sent 4%Z Logs.INFO Logs.p4
   ∧ sent 5%Z Logs.DEBUG Logs.p5)
  ∧ (¬ (1 <= n <= 5)%Z → after = self).
Proof.
  intros after sent. split.
  - intros Hn.
    assert (Hcases : n = 1%Z ∨ n = 2%Z ∨ n = 3%Z ∨ n = 4%Z ∨ n = 5%Z) by lia.
    destruct self as [lvl records].
    destruct Hcases as [-> | [-> | [-> | [-> | ->]]]];
      repeat split; reflexivity.
  - intros Hn. unfold after, Logs.set_level_num.
    destruct (Z.eqb_spec n 5); [lia |]. destruct (Z.eqb_spec n 4); [lia |].
    destruct (Z.eqb_spec n 3); [lia |]. destruct (Z.eqb_spec n 2); [lia |].
    destruct (Z.eqb_spec n 1); [lia |]. reflexivity.
Qed.
